(** * The voice session of the English conversation coach

    A shallow embedding of the session logic of the React component
    [App]: the turn aggregator and the audio playback scheduler inside
    [onmessage], the teardown [stopSession], the start request
    [handleNewSession], the [onopen] callback, the handlers of the API
    key and the system prompt.  Line numbers in the comments are those
    of the source file of the component.

    Conventions of the embedding.
    - A JavaScript string is the list of its UTF-16 code units ([list N]).
    - React state ([useState]) and refs ([useRef]) are fields of one
      record, [AppState]; a state setter takes effect at once.
    - Browser and SDK objects (audio contexts, media streams, audio
      nodes, live sessions, buffer source nodes) live in per-class
      stores inside [AppState]; a reference to an object is its index
      in the store, so aliasing is kept.
    - A handler is a computation in a small state-and-exception monad
      [M]: a JavaScript exception leaves the state changes made so far
      in place and skips the rest of the handler.
    - Times are exact rationals ([Q]); the rounding of IEEE doubles is
      not modelled.
    - One invocation of a callback runs to completion before the next
      event is handled, except [onopen], which is split at its
      [await getUserMedia].
    - Presentation-only state ([isSettingsOpen], [isHelpModalOpen],
      [apiKeyInput], [messagesEndRef]) and the capture callback
      [onaudioprocess] are left out; [level] and [topic] appear only as
      the arguments of [getSystemPrompt]. *)

From Stdlib Require Import ZArith NArith QArith String Ascii List Lia.
From stdpp Require Import base list option decidable.

(** ** JavaScript strings *)

Abbreviation jsstring := (list N).

Definition str (s : string) : jsstring :=
  map N_of_ascii (list_ascii_of_string s).

(** [WhiteSpace] and [LineTerminator] code units of ECMAScript, the
    characters removed by [String.prototype.trim]. *)
Definition isWhiteSpace (c : N) : bool :=
  ((c =? 9) || (c =? 10) || (c =? 11) || (c =? 12) || (c =? 13)
   || (c =? 32) || (c =? 160) || (c =? 5760)
   || ((8192 <=? c) && (c <=? 8202))
   || (c =? 8232) || (c =? 8233) || (c =? 8239) || (c =? 8287)
   || (c =? 12288) || (c =? 65279))%N.

Fixpoint trimStart (s : jsstring) : jsstring :=
  match s with
  | [] => []
  | c :: r => if isWhiteSpace c then trimStart r else s
  end.

Definition trimEnd (s : jsstring) : jsstring := rev (trimStart (rev s)).

Definition trim (s : jsstring) : jsstring := trimEnd (trimStart s).

(** Truthiness of a string: every string but the empty one. *)
Definition truthy_string (s : jsstring) : bool :=
  match s with [] => false | _ :: _ => true end.

(** Truthiness of an optional boolean field. *)
Definition truthy_flag (b : option bool) : bool :=
  match b with Some true => true | _ => false end.

(** [acc += t] where [t] may be [undefined]. *)
Definition js_append (acc : jsstring) (t : option jsstring) : jsstring :=
  acc ++ match t with Some x => x | None => str "undefined" end.

(** ** Messages of the transcript log ([Message] of [types.ts]) *)

Inductive Role := user | ai.

Record Message := mkMessage { role : Role; content : jsstring }.

(** ** Server messages ([LiveServerMessage] of the SDK)

    Every field of the SDK's types is optional. *)

Record Transcription := mkTranscription { text : option jsstring }.
Record Blob := mkBlob { data : option jsstring }.
Record Part := mkPart { inlineData : option Blob }.
Record Content := mkContent { parts : option (list Part) }.
Record LiveServerContent := mkServerContent {
  inputTranscription : option Transcription;
  outputTranscription : option Transcription;
  turnComplete : option bool;
  modelTurn : option Content;
  interrupted : option bool;
}.
Record LiveServerMessage := mkServerMessage {
  serverContent : option LiveServerContent;
}.

(** ** Browser and SDK objects *)

(** An [AudioBuffer]: [duration] is its length in sample frames divided
    by its sample rate. *)
Record AudioBuffer := mkAudioBuffer { frames : N; bufferRate : positive }.

Definition duration (b : AudioBuffer) : Q := Z.of_N (frames b) # bufferRate b.

(** An [AudioContext]; [closed] holds once [close()] was called. *)
Record AudioContextObj := mkContext { sampleRate : positive; closed : bool }.

(** A [MediaStream]: for each of its tracks, whether it was stopped. *)
Record MediaStreamObj := mkStream { tracksEnded : list bool }.

(** A [ScriptProcessorNode] or [MediaStreamAudioSourceNode]. *)
Record AudioNodeObj := mkNode { connected : bool }.

(** The promise of a [LiveSession]; [closeRequested] holds once
    [.then(session => session.close())] was attached to it. *)
Record LiveSessionObj := mkSession { closeRequested : bool }.

(** An [AudioBufferSourceNode]: its buffer, the argument of [start] once
    it was started, and whether [stop] was called. *)
Record SourceNode := mkSource {
  buffer : AudioBuffer;
  startTime : option Q;
  stopped : bool;
}.

(** The client returned by [initializeAi]. *)
Record GoogleGenAI := mkAi { apiKey : jsstring }.

Definition INPUT_SAMPLE_RATE : positive := 16000.
Definition OUTPUT_SAMPLE_RATE : positive := 24000.

(** ** The state of the component *)

Record AppState := mkState {
  messages : list Message;
  isSessionActive : bool;
  statusMessage : list N;
  isApiKeySet : bool;
  isApiKeyModalOpen : bool;
  displayUserTranscription : list N;
  displayTutorTranscription : list N;
  currentUserTranscriptionRef : list N;
  currentTutorTranscriptionRef : list N;
  aiRef : option GoogleGenAI;
  sessionPromiseRef : option nat;
  streamRef : option nat;
  inputAudioContextRef : option nat;
  outputAudioContextRef : option nat;
  scriptProcessorRef : option nat;
  mediaStreamSourceRef : option nat;
  nextStartTimeRef : Q;
  audioPlaybackSources : list nat;
  localStorage : option (list N);
  contexts : list AudioContextObj;
  streams : list MediaStreamObj;
  nodes : list AudioNodeObj;
  sessions : list LiveSessionObj;
  sources : list SourceNode;
}.

Definition set_messages (v : list Message) (s : AppState) : AppState :=
  mkState v (isSessionActive s) (statusMessage s) (isApiKeySet s)
    (isApiKeyModalOpen s) (displayUserTranscription s)
    (displayTutorTranscription s) (currentUserTranscriptionRef s)
    (currentTutorTranscriptionRef s) (aiRef s) (sessionPromiseRef s)
    (streamRef s) (inputAudioContextRef s) (outputAudioContextRef s)
    (scriptProcessorRef s) (mediaStreamSourceRef s) (nextStartTimeRef s)
    (audioPlaybackSources s) (localStorage s) (contexts s) (streams s)
    (nodes s) (sessions s) (sources s).
Definition set_isSessionActive (v : bool) (s : AppState) : AppState :=
  mkState (messages s) v (statusMessage s) (isApiKeySet s)
    (isApiKeyModalOpen s) (displayUserTranscription s)
    (displayTutorTranscription s) (currentUserTranscriptionRef s)
    (currentTutorTranscriptionRef s) (aiRef s) (sessionPromiseRef s)
    (streamRef s) (inputAudioContextRef s) (outputAudioContextRef s)
    (scriptProcessorRef s) (mediaStreamSourceRef s) (nextStartTimeRef s)
    (audioPlaybackSources s) (localStorage s) (contexts s) (streams s)
    (nodes s) (sessions s) (sources s).
Definition set_statusMessage (v : list N) (s : AppState) : AppState :=
  mkState (messages s) (isSessionActive s) v (isApiKeySet s)
    (isApiKeyModalOpen s) (displayUserTranscription s)
    (displayTutorTranscription s) (currentUserTranscriptionRef s)
    (currentTutorTranscriptionRef s) (aiRef s) (sessionPromiseRef s)
    (streamRef s) (inputAudioContextRef s) (outputAudioContextRef s)
    (scriptProcessorRef s) (mediaStreamSourceRef s) (nextStartTimeRef s)
    (audioPlaybackSources s) (localStorage s) (contexts s) (streams s)
    (nodes s) (sessions s) (sources s).
Definition set_isApiKeySet (v : bool) (s : AppState) : AppState :=
  mkState (messages s) (isSessionActive s) (statusMessage s) v
    (isApiKeyModalOpen s) (displayUserTranscription s)
    (displayTutorTranscription s) (currentUserTranscriptionRef s)
    (currentTutorTranscriptionRef s) (aiRef s) (sessionPromiseRef s)
    (streamRef s) (inputAudioContextRef s) (outputAudioContextRef s)
    (scriptProcessorRef s) (mediaStreamSourceRef s) (nextStartTimeRef s)
    (audioPlaybackSources s) (localStorage s) (contexts s) (streams s)
    (nodes s) (sessions s) (sources s).
Definition set_isApiKeyModalOpen (v : bool) (s : AppState) : AppState :=
  mkState (messages s) (isSessionActive s) (statusMessage s) (isApiKeySet s) v
    (displayUserTranscription s) (displayTutorTranscription s)
    (currentUserTranscriptionRef s) (currentTutorTranscriptionRef s) (aiRef s)
    (sessionPromiseRef s) (streamRef s) (inputAudioContextRef s)
    (outputAudioContextRef s) (scriptProcessorRef s) (mediaStreamSourceRef s)
    (nextStartTimeRef s) (audioPlaybackSources s) (localStorage s)
    (contexts s) (streams s) (nodes s) (sessions s) (sources s).
Definition set_displayUserTranscription (v : list N) (s : AppState) : AppState :=
  mkState (messages s) (isSessionActive s) (statusMessage s) (isApiKeySet s)
    (isApiKeyModalOpen s) v (displayTutorTranscription s)
    (currentUserTranscriptionRef s) (currentTutorTranscriptionRef s) (aiRef s)
    (sessionPromiseRef s) (streamRef s) (inputAudioContextRef s)
    (outputAudioContextRef s) (scriptProcessorRef s) (mediaStreamSourceRef s)
    (nextStartTimeRef s) (audioPlaybackSources s) (localStorage s)
    (contexts s) (streams s) (nodes s) (sessions s) (sources s).
Definition set_displayTutorTranscription (v : list N) (s : AppState) : AppState :=
  mkState (messages s) (isSessionActive s) (statusMessage s) (isApiKeySet s)
    (isApiKeyModalOpen s) (displayUserTranscription s) v
    (currentUserTranscriptionRef s) (currentTutorTranscriptionRef s) (aiRef s)
    (sessionPromiseRef s) (streamRef s) (inputAudioContextRef s)
    (outputAudioContextRef s) (scriptProcessorRef s) (mediaStreamSourceRef s)
    (nextStartTimeRef s) (audioPlaybackSources s) (localStorage s)
    (contexts s) (streams s) (nodes s) (sessions s) (sources s).
Definition set_currentUserTranscriptionRef (v : list N) (s : AppState) : AppState :=
  mkState (messages s) (isSessionActive s) (statusMessage s) (isApiKeySet s)
    (isApiKeyModalOpen s) (displayUserTranscription s)
    (displayTutorTranscription s) v (currentTutorTranscriptionRef s) (aiRef s)
    (sessionPromiseRef s) (streamRef s) (inputAudioContextRef s)
    (outputAudioContextRef s) (scriptProcessorRef s) (mediaStreamSourceRef s)
    (nextStartTimeRef s) (audioPlaybackSources s) (localStorage s)
    (contexts s) (streams s) (nodes s) (sessions s) (sources s).
Definition set_currentTutorTranscriptionRef (v : list N) (s : AppState) : AppState :=
  mkState (messages s) (isSessionActive s) (statusMessage s) (isApiKeySet s)
    (isApiKeyModalOpen s) (displayUserTranscription s)
    (displayTutorTranscription s) (currentUserTranscriptionRef s) v (aiRef s)
    (sessionPromiseRef s) (streamRef s) (inputAudioContextRef s)
    (outputAudioContextRef s) (scriptProcessorRef s) (mediaStreamSourceRef s)
    (nextStartTimeRef s) (audioPlaybackSources s) (localStorage s)
    (contexts s) (streams s) (nodes s) (sessions s) (sources s).
Definition set_aiRef (v : option GoogleGenAI) (s : AppState) : AppState :=
  mkState (messages s) (isSessionActive s) (statusMessage s) (isApiKeySet s)
    (isApiKeyModalOpen s) (displayUserTranscription s)
    (displayTutorTranscription s) (currentUserTranscriptionRef s)
    (currentTutorTranscriptionRef s) v (sessionPromiseRef s) (streamRef s)
    (inputAudioContextRef s) (outputAudioContextRef s) (scriptProcessorRef s)
    (mediaStreamSourceRef s) (nextStartTimeRef s) (audioPlaybackSources s)
    (localStorage s) (contexts s) (streams s) (nodes s) (sessions s)
    (sources s).
Definition set_sessionPromiseRef (v : option nat) (s : AppState) : AppState :=
  mkState (messages s) (isSessionActive s) (statusMessage s) (isApiKeySet s)
    (isApiKeyModalOpen s) (displayUserTranscription s)
    (displayTutorTranscription s) (currentUserTranscriptionRef s)
    (currentTutorTranscriptionRef s) (aiRef s) v (streamRef s)
    (inputAudioContextRef s) (outputAudioContextRef s) (scriptProcessorRef s)
    (mediaStreamSourceRef s) (nextStartTimeRef s) (audioPlaybackSources s)
    (localStorage s) (contexts s) (streams s) (nodes s) (sessions s)
    (sources s).
Definition set_streamRef (v : option nat) (s : AppState) : AppState :=
  mkState (messages s) (isSessionActive s) (statusMessage s) (isApiKeySet s)
    (isApiKeyModalOpen s) (displayUserTranscription s)
    (displayTutorTranscription s) (currentUserTranscriptionRef s)
    (currentTutorTranscriptionRef s) (aiRef s) (sessionPromiseRef s) v
    (inputAudioContextRef s) (outputAudioContextRef s) (scriptProcessorRef s)
    (mediaStreamSourceRef s) (nextStartTimeRef s) (audioPlaybackSources s)
    (localStorage s) (contexts s) (streams s) (nodes s) (sessions s)
    (sources s).
Definition set_inputAudioContextRef (v : option nat) (s : AppState) : AppState :=
  mkState (messages s) (isSessionActive s) (statusMessage s) (isApiKeySet s)
    (isApiKeyModalOpen s) (displayUserTranscription s)
    (displayTutorTranscription s) (currentUserTranscriptionRef s)
    (currentTutorTranscriptionRef s) (aiRef s) (sessionPromiseRef s)
    (streamRef s) v (outputAudioContextRef s) (scriptProcessorRef s)
    (mediaStreamSourceRef s) (nextStartTimeRef s) (audioPlaybackSources s)
    (localStorage s) (contexts s) (streams s) (nodes s) (sessions s)
    (sources s).
Definition set_outputAudioContextRef (v : option nat) (s : AppState) : AppState :=
  mkState (messages s) (isSessionActive s) (statusMessage s) (isApiKeySet s)
    (isApiKeyModalOpen s) (displayUserTranscription s)
    (displayTutorTranscription s) (currentUserTranscriptionRef s)
    (currentTutorTranscriptionRef s) (aiRef s) (sessionPromiseRef s)
    (streamRef s) (inputAudioContextRef s) v (scriptProcessorRef s)
    (mediaStreamSourceRef s) (nextStartTimeRef s) (audioPlaybackSources s)
    (localStorage s) (contexts s) (streams s) (nodes s) (sessions s)
    (sources s).
Definition set_scriptProcessorRef (v : option nat) (s : AppState) : AppState :=
  mkState (messages s) (isSessionActive s) (statusMessage s) (isApiKeySet s)
    (isApiKeyModalOpen s) (displayUserTranscription s)
    (displayTutorTranscription s) (currentUserTranscriptionRef s)
    (currentTutorTranscriptionRef s) (aiRef s) (sessionPromiseRef s)
    (streamRef s) (inputAudioContextRef s) (outputAudioContextRef s) v
    (mediaStreamSourceRef s) (nextStartTimeRef s) (audioPlaybackSources s)
    (localStorage s) (contexts s) (streams s) (nodes s) (sessions s)
    (sources s).
Definition set_mediaStreamSourceRef (v : option nat) (s : AppState) : AppState :=
  mkState (messages s) (isSessionActive s) (statusMessage s) (isApiKeySet s)
    (isApiKeyModalOpen s) (displayUserTranscription s)
    (displayTutorTranscription s) (currentUserTranscriptionRef s)
    (currentTutorTranscriptionRef s) (aiRef s) (sessionPromiseRef s)
    (streamRef s) (inputAudioContextRef s) (outputAudioContextRef s)
    (scriptProcessorRef s) v (nextStartTimeRef s) (audioPlaybackSources s)
    (localStorage s) (contexts s) (streams s) (nodes s) (sessions s)
    (sources s).
Definition set_nextStartTimeRef (v : Q) (s : AppState) : AppState :=
  mkState (messages s) (isSessionActive s) (statusMessage s) (isApiKeySet s)
    (isApiKeyModalOpen s) (displayUserTranscription s)
    (displayTutorTranscription s) (currentUserTranscriptionRef s)
    (currentTutorTranscriptionRef s) (aiRef s) (sessionPromiseRef s)
    (streamRef s) (inputAudioContextRef s) (outputAudioContextRef s)
    (scriptProcessorRef s) (mediaStreamSourceRef s) v (audioPlaybackSources s)
    (localStorage s) (contexts s) (streams s) (nodes s) (sessions s)
    (sources s).
Definition set_audioPlaybackSources (v : list nat) (s : AppState) : AppState :=
  mkState (messages s) (isSessionActive s) (statusMessage s) (isApiKeySet s)
    (isApiKeyModalOpen s) (displayUserTranscription s)
    (displayTutorTranscription s) (currentUserTranscriptionRef s)
    (currentTutorTranscriptionRef s) (aiRef s) (sessionPromiseRef s)
    (streamRef s) (inputAudioContextRef s) (outputAudioContextRef s)
    (scriptProcessorRef s) (mediaStreamSourceRef s) (nextStartTimeRef s) v
    (localStorage s) (contexts s) (streams s) (nodes s) (sessions s)
    (sources s).
Definition set_localStorage (v : option (list N)) (s : AppState) : AppState :=
  mkState (messages s) (isSessionActive s) (statusMessage s) (isApiKeySet s)
    (isApiKeyModalOpen s) (displayUserTranscription s)
    (displayTutorTranscription s) (currentUserTranscriptionRef s)
    (currentTutorTranscriptionRef s) (aiRef s) (sessionPromiseRef s)
    (streamRef s) (inputAudioContextRef s) (outputAudioContextRef s)
    (scriptProcessorRef s) (mediaStreamSourceRef s) (nextStartTimeRef s)
    (audioPlaybackSources s) v (contexts s) (streams s) (nodes s) (sessions s)
    (sources s).
Definition set_contexts (v : list AudioContextObj) (s : AppState) : AppState :=
  mkState (messages s) (isSessionActive s) (statusMessage s) (isApiKeySet s)
    (isApiKeyModalOpen s) (displayUserTranscription s)
    (displayTutorTranscription s) (currentUserTranscriptionRef s)
    (currentTutorTranscriptionRef s) (aiRef s) (sessionPromiseRef s)
    (streamRef s) (inputAudioContextRef s) (outputAudioContextRef s)
    (scriptProcessorRef s) (mediaStreamSourceRef s) (nextStartTimeRef s)
    (audioPlaybackSources s) (localStorage s) v (streams s) (nodes s)
    (sessions s) (sources s).
Definition set_streams (v : list MediaStreamObj) (s : AppState) : AppState :=
  mkState (messages s) (isSessionActive s) (statusMessage s) (isApiKeySet s)
    (isApiKeyModalOpen s) (displayUserTranscription s)
    (displayTutorTranscription s) (currentUserTranscriptionRef s)
    (currentTutorTranscriptionRef s) (aiRef s) (sessionPromiseRef s)
    (streamRef s) (inputAudioContextRef s) (outputAudioContextRef s)
    (scriptProcessorRef s) (mediaStreamSourceRef s) (nextStartTimeRef s)
    (audioPlaybackSources s) (localStorage s) (contexts s) v (nodes s)
    (sessions s) (sources s).
Definition set_nodes (v : list AudioNodeObj) (s : AppState) : AppState :=
  mkState (messages s) (isSessionActive s) (statusMessage s) (isApiKeySet s)
    (isApiKeyModalOpen s) (displayUserTranscription s)
    (displayTutorTranscription s) (currentUserTranscriptionRef s)
    (currentTutorTranscriptionRef s) (aiRef s) (sessionPromiseRef s)
    (streamRef s) (inputAudioContextRef s) (outputAudioContextRef s)
    (scriptProcessorRef s) (mediaStreamSourceRef s) (nextStartTimeRef s)
    (audioPlaybackSources s) (localStorage s) (contexts s) (streams s) v
    (sessions s) (sources s).
Definition set_sessions (v : list LiveSessionObj) (s : AppState) : AppState :=
  mkState (messages s) (isSessionActive s) (statusMessage s) (isApiKeySet s)
    (isApiKeyModalOpen s) (displayUserTranscription s)
    (displayTutorTranscription s) (currentUserTranscriptionRef s)
    (currentTutorTranscriptionRef s) (aiRef s) (sessionPromiseRef s)
    (streamRef s) (inputAudioContextRef s) (outputAudioContextRef s)
    (scriptProcessorRef s) (mediaStreamSourceRef s) (nextStartTimeRef s)
    (audioPlaybackSources s) (localStorage s) (contexts s) (streams s)
    (nodes s) v (sources s).
Definition set_sources (v : list SourceNode) (s : AppState) : AppState :=
  mkState (messages s) (isSessionActive s) (statusMessage s) (isApiKeySet s)
    (isApiKeyModalOpen s) (displayUserTranscription s)
    (displayTutorTranscription s) (currentUserTranscriptionRef s)
    (currentTutorTranscriptionRef s) (aiRef s) (sessionPromiseRef s)
    (streamRef s) (inputAudioContextRef s) (outputAudioContextRef s)
    (scriptProcessorRef s) (mediaStreamSourceRef s) (nextStartTimeRef s)
    (audioPlaybackSources s) (localStorage s) (contexts s) (streams s)
    (nodes s) (sessions s) v.

(** ** The handler monad *)

Inductive Exn :=
| TypeError | InvalidStateError | NotAllowedError | NotSupportedError
| DecodeError | ConnectError.

Inductive Completion (A : Type) :=
| Normal (a : A)
| Throw (e : Exn).
Arguments Normal {A} a.
Arguments Throw {A} e.

Definition M (A : Type) : Type := AppState -> Completion A * AppState.

Definition ret {A} (a : A) : M A := fun s => (Normal a, s).

Definition bind {A B} (c : M A) (k : A -> M B) : M B :=
  fun s =>
    match c s with
    | (Normal a, s') => k a s'
    | (Throw e, s') => (Throw e, s')
    end.

Definition throw {A} (e : Exn) : M A := fun s => (Throw e, s).

Definition get : M AppState := fun s => (Normal s, s).

Definition modify (f : AppState -> AppState) : M unit :=
  fun s => (Normal tt, f s).

(** [try { c } catch (e) { h e }] *)
Definition try_catch {A} (c : M A) (h : Exn -> M A) : M A :=
  fun s =>
    match c s with
    | (Normal a, s') => (Normal a, s')
    | (Throw e, s') => h e s'
    end.

(** A call of an [async] function whose promise is dropped: a rejection
    does not reach the caller. *)
Definition detach (c : M unit) : M unit := fun s => (Normal tt, snd (c s)).

(** The state a computation leaves behind, whether it threw or not. *)
Definition exec {A} (c : M A) (s : AppState) : AppState := snd (c s).

Notation "'let!' x ':=' c 'in' k" := (bind c (fun x => k))
  (at level 10, x name, c at level 200, k at level 200).
Notation "c >> k" := (bind c (fun _ => k))
  (at level 90, right associativity).

(** Optional chaining: [o?.f] *)
Definition opt_chain {A B} (o : option A) (f : A -> option B) : option B :=
  match o with
  | Some a => f a
  | None => None
  end.
Notation "o ?. f" := (opt_chain o f) (at level 50, left associativity).

(** [l.forEach(f)] and [for (const x of l) f(x)] *)
Fixpoint forEach {A} (f : A -> M unit) (l : list A) : M unit :=
  match l with
  | [] => ret tt
  | x :: r => f x >> forEach f r
  end.

(** The same loop with the position of each element. *)
Fixpoint forEachFrom {A} (k : nat) (f : nat -> A -> M unit) (l : list A)
  : M unit :=
  match l with
  | [] => ret tt
  | x :: r => f k x >> forEachFrom (S k) f r
  end.

(** ** A JavaScript [Set] of object references, in insertion order *)

Definition Set_add (x : nat) (l : list nat) : list nat :=
  if decide (x ∈ l) then l else l ++ [x].

Definition Set_delete (x : nat) (l : list nat) : list nat :=
  filter (fun y => y ≠ x) l.

(** ** Operations of the browser objects *)

(** [Math.max] on two numbers. *)
Definition Math_max (a b : Q) : Q := if Qle_bool a b then b else a.

(** [stream.getTracks().forEach(track => track.stop())] *)
Definition stop_tracks (st : nat) : M unit :=
  modify (fun s =>
    set_streams
      (alter (fun o => mkStream (map (fun _ => true) (tracksEnded o))) st
             (streams s)) s).

(** [node.disconnect()] *)
Definition disconnect (n : nat) : M unit :=
  modify (fun s => set_nodes (alter (fun _ => mkNode false) n (nodes s)) s).

(** [node.connect(destination)] *)
Definition connect (n : nat) : M unit :=
  modify (fun s => set_nodes (alter (fun _ => mkNode true) n (nodes s)) s).

(** [ctx.state === 'closed'] *)
Definition context_closed (c : nat) (s : AppState) : bool :=
  match contexts s !! c with
  | Some o => closed o
  | None => false
  end.

(** [ctx.close()] *)
Definition close_context (c : nat) : M unit :=
  modify (fun s =>
    set_contexts
      (alter (fun o => mkContext (sampleRate o) true) c (contexts s)) s).

(** [promise.then(session => session.close())] *)
Definition then_close (p : nat) : M unit :=
  modify (fun s =>
    set_sessions (alter (fun _ => mkSession true) p (sessions s)) s).

(** [source.stop()]: an [InvalidStateError] when [start] was not called. *)
Definition mark_stopped (src : SourceNode) : SourceNode :=
  mkSource (buffer src) (startTime src) true.

Definition source_stop (id : nat) : M unit :=
  fun s =>
    match sources s !! id with
    | Some src =>
        match startTime src with
        | Some _ =>
            (Normal tt, set_sources (alter mark_stopped id (sources s)) s)
        | None => (Throw InvalidStateError, s)
        end
    | None => (Throw TypeError, s)
    end.

(** [source.start(when)]: an [InvalidStateError] when called twice. *)
Definition source_start (id : nat) (when : Q) : M unit :=
  fun s =>
    match sources s !! id with
    | Some src =>
        match startTime src with
        | None =>
            (Normal tt,
             set_sources
               (<[id := mkSource (buffer src) (Some when) (stopped src)]>
                  (sources s)) s)
        | Some _ => (Throw InvalidStateError, s)
        end
    | None => (Throw TypeError, s)
    end.

(** [ctx.createBufferSource()] followed by [source.buffer = b] *)
Definition createBufferSource (b : AudioBuffer) : M nat :=
  fun s =>
    (Normal (length (sources s)),
     set_sources (sources s ++ [mkSource b None false]) s).

(** [new AudioContext({ sampleRate })]; [ok] tells whether the browser
    grants the context. *)
Definition newAudioContext (ok : bool) (rate : positive) : M nat :=
  fun s =>
    if ok
    then (Normal (length (contexts s)),
          set_contexts (contexts s ++ [mkContext rate false]) s)
    else (Throw NotSupportedError, s).

(** [ctx.currentTime] when the context has rendered [n] sample frames. *)
Definition currentTime (c : nat) (n : N) : M Q :=
  fun s =>
    match contexts s !! c with
    | Some o => (Normal (Z.of_N n # sampleRate o), s)
    | None => (Throw TypeError, s)
    end.

(** The stream handed over by [getUserMedia], with [n] live tracks. *)
Definition newMediaStream (n : nat) : M nat :=
  fun s =>
    (Normal (length (streams s)),
     set_streams (streams s ++ [mkStream (replicate n false)]) s).

(** [ctx.createMediaStreamSource(...)], [ctx.createScriptProcessor(...)] *)
Definition createNode : M nat :=
  fun s =>
    (Normal (length (nodes s)), set_nodes (nodes s ++ [mkNode false]) s).

(** [connectToLiveSession(ai, prompt, callbacks)]; [ok] tells whether the
    call returns a promise rather than throwing. *)
Definition connectToLiveSession (ok : bool) : M nat :=
  fun s =>
    if ok
    then (Normal (length (sessions s)),
          set_sessions (sessions s ++ [mkSession false]) s)
    else (Throw ConnectError, s).

(** ** The handlers of the component *)

Definition setMessages v := modify (set_messages v).
Definition setIsSessionActive v := modify (set_isSessionActive v).
Definition setStatusMessage v := modify (set_statusMessage (str v)).
Definition setIsApiKeySet v := modify (set_isApiKeySet v).
Definition setIsApiKeyModalOpen v := modify (set_isApiKeyModalOpen v).
Definition setDisplayUserTranscription v :=
  modify (set_displayUserTranscription v).
Definition setDisplayTutorTranscription v :=
  modify (set_displayTutorTranscription v).

(** What the environment answers to a start request: which of the three
    calls inside the [try] of [handleNewSession] fails, if any. *)
Inductive StartOutcome :=
| InputContextFails | OutputContextFails | ConnectFails | Started.

(** What [getUserMedia] answers. *)
Inductive MicResult := Denied | Granted (tracks : nat).

(** The state after the [useState] and [useRef] initialisers, with the
    content of [localStorage.googleApiKey]. *)
Definition init (saved : option jsstring) : AppState :=
  mkState [] false (str "Please set your API Key to begin.") false false
    [] [] [] [] None None None None None None None 0%Q [] saved
    [] [] [] [] [].

(** [stopSession] (lines 117-147), block by block. *)

(** Lines 118-121. *)
Definition stopMicrophone : M unit :=
  let! s := get in
  match streamRef s with
  | Some st => stop_tracks st >> modify (set_streamRef None)
  | None => ret tt
  end.

(** Lines 122-125. *)
Definition disconnectProcessor : M unit :=
  let! s := get in
  match scriptProcessorRef s with
  | Some n => disconnect n >> modify (set_scriptProcessorRef None)
  | None => ret tt
  end.

(** Lines 126-129. *)
Definition disconnectMicSource : M unit :=
  let! s := get in
  match mediaStreamSourceRef s with
  | Some n => disconnect n >> modify (set_mediaStreamSourceRef None)
  | None => ret tt
  end.

(** Lines 130-133. *)
Definition closeInputContext : M unit :=
  let! s := get in
  match inputAudioContextRef s with
  | Some c =>
      if negb (context_closed c s)
      then close_context c >> modify (set_inputAudioContextRef None)
      else ret tt
  | None => ret tt
  end.

(** Lines 134-135. *)
Definition closeSession : M unit :=
  (let! s := get in
   match sessionPromiseRef s with
   | Some p => then_close p
   | None => ret tt
   end) >>
  modify (set_sessionPromiseRef None).

(** [audioPlaybackSources.current.forEach(source => source.stop())]
    and [audioPlaybackSources.current.clear()] (lines 137-138, and
    again lines 241-242). *)
Definition stopPlayback : M unit :=
  (let! s := get in forEach source_stop (audioPlaybackSources s)) >>
  modify (set_audioPlaybackSources []).

(** Lines 139-142. *)
Definition closeOutputContext : M unit :=
  let! s := get in
  match outputAudioContextRef s with
  | Some c =>
      if negb (context_closed c s)
      then close_context c >> modify (set_outputAudioContextRef None)
      else ret tt
  | None => ret tt
  end.

Definition stopSession : M unit :=
  stopMicrophone >>
  disconnectProcessor >>
  disconnectMicSource >>
  closeInputContext >>
  closeSession >>
  stopPlayback >>
  closeOutputContext >>
  modify (set_nextStartTimeRef 0%Q) >>
  setIsSessionActive false >>
  setStatusMessage "Session ended. Click the microphone to practice again.".

(** The body of the [try] in [handleNewSession] (lines 166-255). *)
Definition openSession (o : StartOutcome) : M unit :=
  let! c1 := newAudioContext
               (match o with InputContextFails => false | _ => true end)
               INPUT_SAMPLE_RATE in
  modify (set_inputAudioContextRef (Some c1)) >>
  let! c2 := newAudioContext
               (match o with OutputContextFails => false | _ => true end)
               OUTPUT_SAMPLE_RATE in
  modify (set_outputAudioContextRef (Some c2)) >>
  let! p := connectToLiveSession
              (match o with ConnectFails => false | _ => true end) in
  modify (set_sessionPromiseRef (Some p)).

(** The [try ... catch] of [handleNewSession] (lines 165-261). *)
Definition tryOpenSession (o : StartOutcome) : M unit :=
  try_catch (openSession o)
    (fun _ =>
       setStatusMessage
         "Failed to start session. Check your API key or connection." >>
       setIsSessionActive false).

(** [handleNewSession] (lines 149-262) *)
Definition handleNewSession (o : StartOutcome) : M unit :=
  (let! s := get in
   if isSessionActive s then stopSession else ret tt) >>
  let! s := get in
  match aiRef s with
  | None =>
      setStatusMessage "API Key not set. Please set it in the settings." >>
      setIsApiKeyModalOpen true
  | Some _ =>
      setMessages [] >>
      setDisplayUserTranscription [] >>
      setDisplayTutorTranscription [] >>
      modify (set_currentUserTranscriptionRef []) >>
      modify (set_currentTutorTranscriptionRef []) >>
      setStatusMessage "Connecting to tutor..." >>
      tryOpenSession o
  end.

(** [onopen], up to its [await] (lines 171-173). *)
Definition onopen_begin : M unit :=
  setIsSessionActive true >>
  setStatusMessage "Connected! Start speaking when you are ready.".

(** The body of the [try] in [onopen], from the answer of
    [getUserMedia] on (lines 176-190). *)
Definition startCapture (r : MicResult) : M unit :=
  match r with
  | Denied => throw NotAllowedError
  | Granted n =>
      let! st := newMediaStream n in
      modify (set_streamRef (Some st)) >>
      let! s := get in
      match inputAudioContextRef s with
      | None => throw TypeError
      | Some _ =>
          let! source := createNode in
          modify (set_mediaStreamSourceRef (Some source)) >>
          let! scriptProcessor := createNode in
          modify (set_scriptProcessorRef (Some scriptProcessor)) >>
          connect source >>
          connect scriptProcessor
      end
  end.

(** [onopen], from the answer of [getUserMedia] on (lines 175-195). *)
Definition onopen_resume (r : MicResult) : M unit :=
  try_catch (startCapture r)
    (fun _ =>
       setStatusMessage "Microphone access denied. Please allow permission." >>
       stopSession).

(** [onerror] (lines 246-250) *)
Definition onerror : M unit :=
  setStatusMessage "A connection error occurred. Please restart." >>
  stopSession.

(** [onclose] (lines 251-254) *)
Definition onclose : M unit := stopSession.

(** [source.onended] (line 232) *)
Definition onended (source : nat) : M unit :=
  modify (fun s =>
    set_audioPlaybackSources (Set_delete source (audioPlaybackSources s)) s).

(** [handleMicButtonClick] (lines 268-278) *)
Definition handleMicButtonClick (o : StartOutcome) : M unit :=
  let! s := get in
  if negb (isApiKeySet s) then setIsApiKeyModalOpen true
  else if isSessionActive s then stopSession
  else detach (handleNewSession o).

(** The body of the turn-complete block of [onmessage] (lines 207-217). *)
Definition newMessages (userText tutorText : jsstring) : list Message :=
  (if truthy_string userText then [mkMessage user userText] else []) ++
  (if truthy_string tutorText then [mkMessage ai tutorText] else []).

Definition finalizeTurn : M unit :=
  let! s := get in
  let userText := trim (currentUserTranscriptionRef s) in
  let tutorText := trim (currentTutorTranscriptionRef s) in
  let new := newMessages userText tutorText in
  (if (0 <? length new)%nat
   then modify (fun s => set_messages (messages s ++ new) s)
   else ret tt) >>
  modify (set_currentUserTranscriptionRef []) >>
  modify (set_currentTutorTranscriptionRef []) >>
  setDisplayUserTranscription [] >>
  setDisplayTutorTranscription [].

(** The body of the interruption block of [onmessage] (lines 241-243). *)
Definition flushPlayback : M unit :=
  stopPlayback >>
  modify (set_nextStartTimeRef 0%Q).

(** The blocks of [onmessage] that do not decode audio. *)

(** Lines 198-201. *)
Definition transcribeInput (message : LiveServerMessage) : M unit :=
  match serverContent message ?. inputTranscription with
  | Some tr =>
      modify (fun s =>
        set_currentUserTranscriptionRef
          (js_append (currentUserTranscriptionRef s) (text tr)) s) >>
      let! s := get in
      setDisplayUserTranscription (currentUserTranscriptionRef s)
  | None => ret tt
  end.

(** Lines 202-205. *)
Definition transcribeOutput (message : LiveServerMessage) : M unit :=
  match serverContent message ?. outputTranscription with
  | Some tr =>
      modify (fun s =>
        set_currentTutorTranscriptionRef
          (js_append (currentTutorTranscriptionRef s) (text tr)) s) >>
      let! s := get in
      setDisplayTutorTranscription (currentTutorTranscriptionRef s)
  | None => ret tt
  end.

(** Lines 206-218. *)
Definition completeTurn (message : LiveServerMessage) : M unit :=
  if truthy_flag (serverContent message ?. turnComplete)
  then finalizeTurn
  else ret tt.

(** Lines 240-244. *)
Definition interrupt (message : LiveServerMessage) : M unit :=
  if truthy_flag (serverContent message ?. interrupted)
  then flushPlayback
  else ret tt.

Section App.

(** [initializeAi] of [services/geminiService]; [None] when it throws. *)
Variable initializeAi : jsstring -> option GoogleGenAI.

(** [decodeAudioData(decode(base64), ctx, OUTPUT_SAMPLE_RATE, 1)] of
    [services/geminiService]; [None] when the payload cannot be
    decoded. *)
Variable decodeAudio : jsstring -> option AudioBuffer.

(** The first [useEffect] (lines 48-64). *)
Definition mountEffect : M unit :=
  let! s := get in
  match localStorage s with
  | Some savedApiKey =>
      if truthy_string savedApiKey then
        match initializeAi savedApiKey with
        | Some client =>
            modify (set_aiRef (Some client)) >>
            setIsApiKeySet true >>
            setStatusMessage
              "API Key loaded. Click the microphone to start."
        | None =>
            modify (set_localStorage None) >>
            setStatusMessage
              "Invalid API Key found. Please set a new one." >>
            setIsApiKeyModalOpen true
        end
      else setIsApiKeyModalOpen true
  | None => setIsApiKeyModalOpen true
  end.

(** [handleSaveApiKey] (lines 66-82) *)
Definition handleSaveApiKey (apiKeyInput : jsstring) : M unit :=
  if truthy_string (trim apiKeyInput) then
    match initializeAi apiKeyInput with
    | Some client =>
        modify (set_aiRef (Some client)) >>
        modify (set_localStorage (Some apiKeyInput)) >>
        setIsApiKeySet true >>
        setIsApiKeyModalOpen false >>
        setStatusMessage "API Key set! Ready to start a session."
    | None => ret tt
    end
  else ret tt.

(** One audio part of [onmessage] (lines 223-236); [now] is the number
    of sample frames the output context has rendered when the part is
    reached. *)
Definition playPart (now : N) (part : Part) : M unit :=
  match inlineData part ?. data with
  | Some base64Audio =>
      if truthy_string base64Audio then
        let! s := get in
        match outputAudioContextRef s with
        | None => throw TypeError
        | Some audioContext =>
            let! t := currentTime audioContext now in
            modify (set_nextStartTimeRef
                      (Math_max (nextStartTimeRef s) t)) >>
            match decodeAudio base64Audio with
            | None => throw DecodeError
            | Some audioBuffer =>
                let! source := createBufferSource audioBuffer in
                (let! s := get in
                 source_start source (nextStartTimeRef s)) >>
                modify (fun s =>
                  set_nextStartTimeRef
                    (nextStartTimeRef s + duration audioBuffer)%Q s) >>
                modify (fun s =>
                  set_audioPlaybackSources
                    (Set_add source (audioPlaybackSources s)) s)
            end
        end
      else ret tt
  | None => ret tt
  end.

(** The audio loop of [onmessage] (lines 220-238); [clock k] is the
    reading of the output context's clock when the part at position
    [k] is reached. *)
Definition playParts (clock : nat -> N) (message : LiveServerMessage)
  : M unit :=
  match serverContent message ?. modelTurn ?. parts with
  | Some ps => forEachFrom 0 (fun k part => playPart (clock k) part) ps
  | None => ret tt
  end.

(** [onmessage] (lines 197-245) *)
Definition onmessage (clock : nat -> N) (message : LiveServerMessage)
  : M unit :=
  transcribeInput message >>
  transcribeOutput message >>
  completeTurn message >>
  playParts clock message >>
  interrupt message.

(** ** Events and runs *)

Inductive Event :=
| EvMount
| EvSaveApiKey (apiKeyInput : jsstring)
| EvStartButton (o : StartOutcome)
| EvMicButton (o : StartOutcome)
| EvOpen
| EvMicrophone (r : MicResult)
| EvMessage (clock : nat -> N) (message : LiveServerMessage)
| EvError
| EvClose
| EvEnded (source : nat)
| EvUnmount.

Definition handler (ev : Event) : M unit :=
  match ev with
  | EvMount => mountEffect
  | EvSaveApiKey k => handleSaveApiKey k
  | EvStartButton o => handleNewSession o
  | EvMicButton o => handleMicButtonClick o
  | EvOpen => onopen_begin
  | EvMicrophone r => onopen_resume r
  | EvMessage clock m => onmessage clock m
  | EvError => onerror
  | EvClose => onclose
  | EvEnded src => onended src
  | EvUnmount => stopSession
  end.

(** An exception of a handler is lost in the event loop; the state it
    left behind is the state of the next event. *)
Definition step (s : AppState) (ev : Event) : AppState :=
  exec (handler ev) s.

Definition run (evs : list Event) (s : AppState) : AppState :=
  foldl step s evs.

Definition reachable (s : AppState) : Prop :=
  exists saved evs, s = run evs (init saved).

End App.

(** ** Views of the state and invariants *)

(** The conversation: the transcript log, the two accumulators and the
    two live-display values. *)
Definition conversation (s : AppState)
  : list Message * jsstring * jsstring * jsstring * jsstring :=
  (messages s, currentUserTranscriptionRef s, currentTutorTranscriptionRef s,
   displayUserTranscription s, displayTutorTranscription s).

(** The state with its playback part (tracked set, cursor, source nodes)
    blanked: two states with the same image differ in playback only. *)
Definition outside_playback (s : AppState) : AppState :=
  set_audioPlaybackSources [] (set_nextStartTimeRef 0%Q (set_sources [] s)).

(** The scheduled interval of a started source node. *)
Definition startOf (src : SourceNode) : Q :=
  match startTime src with Some t => t | None => 0%Q end.

Definition endOf (src : SourceNode) : Q :=
  (startOf src + duration (buffer src))%Q.

(** [chain lo l hi]: the nodes of [l] were started one after the other,
    none before [lo], each not before the end of the one before it, and
    the last one ends by [hi]. *)
Fixpoint chain (lo : Q) (l : list SourceNode) (hi : Q) : Prop :=
  match l with
  | [] => (lo <= hi)%Q
  | src :: r =>
      exists t, startTime src = Some t /\ (lo <= t)%Q /\
                chain (t + duration (buffer src))%Q r hi
  end.

(** A source node on which [stop()] does not throw. *)
Definition started (srcs : list SourceNode) (id : nat) : Prop :=
  exists src t, srcs !! id = Some src /\ startTime src = Some t.

(** What holds of the refs between two events. *)
Record wf (s : AppState) : Prop := mkWf {
  wf_tracked : Forall (started (sources s)) (audioPlaybackSources s);
  wf_input : forall c, inputAudioContextRef s = Some c ->
     exists o, contexts s !! c = Some o /\ closed o = false;
  wf_output : forall c, outputAudioContextRef s = Some c ->
     exists o, contexts s !! c = Some o /\ closed o = false;
  wf_distinct : forall c c', inputAudioContextRef s = Some c ->
     outputAudioContextRef s = Some c' -> c <> c';
  wf_stream : forall st, streamRef s = Some st -> st < length (streams s);
  wf_processor : forall n,
     scriptProcessorRef s = Some n -> n < length (nodes s);
  wf_micSource : forall n,
     mediaStreamSourceRef s = Some n -> n < length (nodes s);
  wf_session : forall p,
     sessionPromiseRef s = Some p -> p < length (sessions s);
  wf_noKey : aiRef s = None ->
     sessionPromiseRef s = None /\ contexts s = [] /\ sessions s = [];
  wf_noOutput : outputAudioContextRef s = None ->
     audioPlaybackSources s = [] /\ nextStartTimeRef s = 0%Q;
}.

(** The objects a teardown releases. *)
Definition end_tracks (o : MediaStreamObj) : MediaStreamObj :=
  mkStream (map (fun _ => true) (tracksEnded o)).
Definition close_ctx (o : AudioContextObj) : AudioContextObj :=
  mkContext (sampleRate o) true.
Definition alter_ref {A} (f : A -> A) (r : option nat) (l : list A) : list A :=
  match r with
  | Some i => alter f i l
  | None => l
  end.
Definition stop_all (ids : list nat) (srcs : list SourceNode)
  : list SourceNode :=
  foldl (fun acc id => alter mark_stopped id acc) srcs ids.

(** The state an exception-free [stopSession] ends in, in closed form
    (see [stopSession_teardown]). *)
Definition teardown (s : AppState) : AppState :=
  mkState (messages s) false
    (str "Session ended. Click the microphone to practice again.")
    (isApiKeySet s) (isApiKeyModalOpen s)
    (displayUserTranscription s) (displayTutorTranscription s)
    (currentUserTranscriptionRef s) (currentTutorTranscriptionRef s)
    (aiRef s) None None None None None None 0%Q [] (localStorage s)
    (alter_ref close_ctx (outputAudioContextRef s)
       (alter_ref close_ctx (inputAudioContextRef s) (contexts s)))
    (alter_ref end_tracks (streamRef s) (streams s))
    (alter_ref (fun _ => mkNode false) (mediaStreamSourceRef s)
       (alter_ref (fun _ => mkNode false) (scriptProcessorRef s) (nodes s)))
    (alter_ref (fun _ => mkSession true) (sessionPromiseRef s) (sessions s))
    (stop_all (audioPlaybackSources s) (sources s)).

(** No ref holds an object, nothing is tracked, the cursor is zero and
    the session is inactive. *)
Definition idle (s : AppState) : Prop :=
  streamRef s = None /\ scriptProcessorRef s = None /\
  mediaStreamSourceRef s = None /\ inputAudioContextRef s = None /\
  outputAudioContextRef s = None /\ sessionPromiseRef s = None /\
  audioPlaybackSources s = [] /\ nextStartTimeRef s = 0%Q /\
  isSessionActive s = false.

(** Every object held by a ref of [s], and every tracked source of [s],
    is released in [s']. *)
Definition released (s s' : AppState) : Prop :=
  (forall st, streamRef s = Some st ->
     exists o, streams s' !! st = Some o /\
               Forall (fun e => e = true) (tracksEnded o)) /\
  (forall n, scriptProcessorRef s = Some n ->
     nodes s' !! n = Some (mkNode false)) /\
  (forall n, mediaStreamSourceRef s = Some n ->
     nodes s' !! n = Some (mkNode false)) /\
  (forall c, inputAudioContextRef s = Some c ->
     exists o, contexts s' !! c = Some o /\ closed o = true) /\
  (forall c, outputAudioContextRef s = Some c ->
     exists o, contexts s' !! c = Some o /\ closed o = true) /\
  (forall p, sessionPromiseRef s = Some p ->
     sessions s' !! p = Some (mkSession true)) /\
  (forall id, id ∈ audioPlaybackSources s ->
     exists src, sources s' !! id = Some src /\ stopped src = true).

(** ** The per-speaker fragments of a server message *)

Definition inputFragment (m : LiveServerMessage) : jsstring :=
  match serverContent m ?. inputTranscription with
  | Some tr => js_append [] (text tr)
  | None => []
  end.

Definition outputFragment (m : LiveServerMessage) : jsstring :=
  match serverContent m ?. outputTranscription with
  | Some tr => js_append [] (text tr)
  | None => []
  end.

Definition isTurnComplete (m : LiveServerMessage) : bool :=
  truthy_flag (serverContent m ?. turnComplete).

Definition isInterrupted (m : LiveServerMessage) : bool :=
  truthy_flag (serverContent m ?. interrupted).

Definition audioParts (m : LiveServerMessage) : list Part :=
  match serverContent m ?. modelTurn ?. parts with
  | Some ps => ps
  | None => []
  end.

(** The payload of a part, when [onmessage] plays it. *)
Definition payload (p : Part) : option jsstring :=
  match inlineData p ?. data with
  | Some d => if truthy_string d then Some d else None
  | None => None
  end.

(** [steps R c]: the state [c] leaves behind, whether it throws or not,
    is related by [R] to the state it started from. *)
Definition steps {A} (R : relation AppState) (c : M A) : Prop :=
  forall s, R s (exec c s).

(** Running [c] leaves the view [f] of the state unchanged. *)
Definition same {X} (f : AppState -> X) : relation AppState :=
  fun s s' => f s' = f s.
Definition preserves {X A} (f : AppState -> X) (c : M A) : Prop :=
  steps (same f) c.

(** Running [c] keeps the invariant [P]. *)
Definition inv (P : AppState -> Prop) : relation AppState :=
  fun s s' => P s -> P s'.
Definition keeps {A} (P : AppState -> Prop) (c : M A) : Prop :=
  steps (inv P) c.

(** Running [c] only appends source nodes, started back to back from the
    cursor on, and moves the cursor to or past the end of the last. *)
Definition extends_schedule : relation AppState :=
  fun s s' =>
    exists news, sources s' = sources s ++ news /\
                 chain (nextStartTimeRef s) news (nextStartTimeRef s').

(** The state after one decoded fragment was scheduled at [t]: a new
    source node with buffer [b] started at [t], the cursor moved to the
    end of the buffer, the node tracked. *)
Definition schedule (t : Q) (b : AudioBuffer) (s : AppState) : AppState :=
  set_audioPlaybackSources
    (Set_add (length (sources s)) (audioPlaybackSources s))
    (set_nextStartTimeRef (t + duration b)%Q
       (set_sources (sources s ++ [mkSource b (Some t) false]) s)).

(** The fields the invariant [wf] reads, but for [aiRef]. *)
Definition refs_view (s : AppState) :=
  (audioPlaybackSources s, sources s, inputAudioContextRef s,
   outputAudioContextRef s, contexts s, streamRef s, streams s,
   scriptProcessorRef s, mediaStreamSourceRef s, nodes s,
   sessionPromiseRef s, sessions s, nextStartTimeRef s).

(** The state in which [handleNewSession] reaches its credential check:
    torn down first when a session was active. *)
Definition afterOptionalStop (s : AppState) : AppState :=
  if isSessionActive s then teardown s else s.

(** The state [handleNewSession] enters its [try] with. *)
Definition resetConversation (s : AppState) : AppState :=
  set_statusMessage (str "Connecting to tutor...")
    (set_currentTutorTranscriptionRef []
       (set_currentUserTranscriptionRef []
          (set_displayTutorTranscription []
             (set_displayUserTranscription [] (set_messages [] s))))).

(** Following the specification of the turn aggregator: on a
    turn-complete signal, one finalized message per speaker whose trimmed
    text is not empty, the user's before the assistant's. *)
Definition finalizedTurn (userText tutorText : jsstring) : list Message :=
  filter (fun m => content m <> [])
    [mkMessage user userText; mkMessage ai tutorText].

(** The state after the transcript blocks of [onmessage] on a message
    that does not complete a turn. *)
Definition heard (m : LiveServerMessage) (s : AppState) : AppState :=
  let s1 :=
    match serverContent m ?. inputTranscription with
    | Some _ =>
        set_displayUserTranscription
          (currentUserTranscriptionRef s ++ inputFragment m)
          (set_currentUserTranscriptionRef
             (currentUserTranscriptionRef s ++ inputFragment m) s)
    | None => s
    end in
  match serverContent m ?. outputTranscription with
  | Some _ =>
      set_displayTutorTranscription
        (currentTutorTranscriptionRef s ++ outputFragment m)
        (set_currentTutorTranscriptionRef
           (currentTutorTranscriptionRef s ++ outputFragment m) s1)
  | None => s1
  end.

(** The state after the turn-complete block. *)
Definition finalized (s : AppState) : AppState :=
  set_displayTutorTranscription []
    (set_displayUserTranscription []
       (set_currentTutorTranscriptionRef []
          (set_currentUserTranscriptionRef []
             (set_messages
                (messages s ++
                 newMessages (trim (currentUserTranscriptionRef s))
                             (trim (currentTutorTranscriptionRef s))) s)))).

(** The part [p] holds no payload, or a payload that decodes. *)
Definition decodes (decodeAudio : jsstring -> option AudioBuffer)
           (p : Part) : Prop :=
  match payload p with
  | None => True
  | Some d => decodeAudio d <> None
  end.

(** Nothing tracked is dropped, and every source node created is
    tracked. *)
Definition tracks_new : relation AppState :=
  fun s s' =>
    (forall id, id ∈ audioPlaybackSources s ->
                id ∈ audioPlaybackSources s') /\
    (forall id, length (sources s) <= id < length (sources s') ->
                id ∈ audioPlaybackSources s') /\
    length (sources s) <= length (sources s').

(** The events that neither interrupt nor stop the playback. *)
Definition no_flush (ev : Event) : bool :=
  match ev with
  | EvMessage _ m => negb (isInterrupted m)
  | EvEnded _ | EvOpen | EvMount | EvSaveApiKey _ => true
  | _ => false
  end.

(** ** Sample inputs for the examples *)

(** A client for any key. *)
Definition sampleInitializeAi (key : jsstring) : option GoogleGenAI :=
  Some (mkAi key).

Definition isBase64Char (c : N) : bool :=
  (((65 <=? c) && (c <=? 90)) || ((97 <=? c) && (c <=? 122))
   || ((48 <=? c) && (c <=? 57)) || (c =? 43) || (c =? 47) || (c =? 61))%N.

(** A decoder that rejects a payload holding a character outside the
    base64 alphabet and turns any other into a buffer of a quarter of a
    second per character. *)
Definition sampleDecodeAudio (base64Audio : jsstring) : option AudioBuffer :=
  if forallb isBase64Char base64Audio
  then Some (mkAudioBuffer (6000 * N.of_nat (length base64Audio))
                           OUTPUT_SAMPLE_RATE)
  else None.

Definition userFragment (t : string) : LiveServerMessage :=
  mkServerMessage
    (Some (mkServerContent (Some (mkTranscription (Some (str t))))
                           None None None None)).

Definition tutorFragment (t : string) : LiveServerMessage :=
  mkServerMessage
    (Some (mkServerContent None (Some (mkTranscription (Some (str t))))
                           None None None)).

Definition turnCompleteSignal : LiveServerMessage :=
  mkServerMessage (Some (mkServerContent None None (Some true) None None)).

Definition interruptionSignal : LiveServerMessage :=
  mkServerMessage (Some (mkServerContent None None None None (Some true))).

Definition audioPart (base64Audio : string) : Part :=
  mkPart (Some (mkBlob (Some (str base64Audio)))).

Definition audioMessage (ps : list Part) (i : option bool)
  : LiveServerMessage :=
  mkServerMessage
    (Some (mkServerContent None None None (Some (mkContent (Some ps))) i)).

(** A clock that stands at [n] sample frames. *)
Definition clockAt (n : N) : nat -> N := fun _ => n.

(** A session that is connected: key saved, session started, connection
    open, microphone granted. *)
Definition connectedSession : AppState :=
  run sampleInitializeAi sampleDecodeAudio
    [EvSaveApiKey (str "key"); EvStartButton Started; EvOpen;
     EvMicrophone (Granted 1)]
    (init None).

(** A message with two audio fragments of one second each. *)
Definition twoFragments : LiveServerMessage :=
  audioMessage [audioPart "AAAA"; audioPart "BBBB"] None.

(** The connected session after the two fragments were scheduled when
    the clock of the output context stood at second 2. *)
Definition speakingSession : AppState :=
  run sampleInitializeAi sampleDecodeAudio
    [EvMessage (clockAt 48000) twoFragments] connectedSession.

(** The connected session after three fragments of one second each were
    scheduled. *)
Definition threeFragments : LiveServerMessage :=
  audioMessage [audioPart "AAAA"; audioPart "BBBB"; audioPart "CCCC"] None.

Definition threePlaying : AppState :=
  run sampleInitializeAi sampleDecodeAudio
    [EvMessage (clockAt 48000) threeFragments] connectedSession.

(** ** Trimmed text *)

(** A text that neither begins nor ends with a white-space code unit. *)
Definition trimmed (x : jsstring) : Prop :=
  (forall c r, x = c :: r -> isWhiteSpace c = false) /\
  (forall c r, x = r ++ [c] -> isWhiteSpace c = false).

(** A text of white space only (the empty text included). *)
Definition blank (x : jsstring) : Prop :=
  Forall (fun c => isWhiteSpace c = true) x.

(** ** More views of the state *)

(** The credential flag of the interface says whether there is a
    client. *)
Definition credential_agrees (s : AppState) : Prop :=
  isApiKeySet s = true <-> aiRef s <> None.

(** The flag and the client. *)
Definition credential (s : AppState) : bool * option GoogleGenAI :=
  (isApiKeySet s, aiRef s).

(** The events that are a click on one of the two start controls. *)
Definition starts (ev : Event) : bool :=
  match ev with
  | EvStartButton _ | EvMicButton _ => true
  | _ => false
  end.

(** The events that load or save a key. *)
Definition sets_key (ev : Event) : bool :=
  match ev with
  | EvMount | EvSaveApiKey _ => true
  | _ => false
  end.

(** The events that deliver a server message. *)
Definition is_message (ev : Event) : bool :=
  match ev with
  | EvMessage _ _ => true
  | _ => false
  end.

(** The events that deliver a server message with the turn-complete
    signal. *)
Definition completes (ev : Event) : bool :=
  match ev with
  | EvMessage _ m => isTurnComplete m
  | _ => false
  end.

(** A conversation in which each live-display value shows its
    accumulator and no message of the log is empty or begins or ends
    with white space. *)
Definition tidy (s : AppState) : Prop :=
  displayUserTranscription s = currentUserTranscriptionRef s /\
  displayTutorTranscription s = currentTutorTranscriptionRef s /\
  Forall (fun m => content m <> [] /\ trimmed (content m)) (messages s).

(** The playback part of the state: the tracked set, the source nodes
    and the cursor. *)
Definition playback (s : AppState) : list nat * list SourceNode * Q :=
  (audioPlaybackSources s, sources s, nextStartTimeRef s).

(** [playing s l]: [l] lists the source nodes of the tracked set of
    [s], in the order in which they were added to it. *)
Definition playing (s : AppState) (l : list SourceNode) : Prop :=
  Forall2 (fun id src => sources s !! id = Some src)
    (audioPlaybackSources s) l.

(** The tracked set holds no node twice, and its nodes are running
    (started, not stopped) and were started back to back, none before
    time zero and the last one ending by the cursor. *)
Definition schedule_ok (s : AppState) : Prop :=
  NoDup (audioPlaybackSources s) /\
  exists l, playing s l /\
            Forall (fun src => stopped src = false) l /\
            chain 0 l (nextStartTimeRef s).

(** ** Objects and the refs that hold them *)

(** The object stores, but for the source nodes, and the refs into
    them. *)
Definition resources (s : AppState) :=
  (contexts s, streams s, nodes s, sessions s,
   inputAudioContextRef s, outputAudioContextRef s, streamRef s,
   scriptProcessorRef s, mediaStreamSourceRef s, sessionPromiseRef s).

(** Every object that is still open is held by a ref through which
    [stopSession] releases it. *)
Definition owned (s : AppState) : Prop :=
  (forall c o, contexts s !! c = Some o ->
     closed o = true \/
     inputAudioContextRef s = Some c \/ outputAudioContextRef s = Some c) /\
  (forall st o, streams s !! st = Some o ->
     Forall (fun e => e = true) (tracksEnded o) \/ streamRef s = Some st) /\
  (forall n o, nodes s !! n = Some o ->
     connected o = false \/
     scriptProcessorRef s = Some n \/ mediaStreamSourceRef s = Some n) /\
  (forall p o, sessions s !! p = Some o ->
     closeRequested o = true \/ sessionPromiseRef s = Some p).

(** No audio context, stream, capture node or session is left open. *)
Definition nothing_open (s : AppState) : Prop :=
  Forall (fun o => closed o = true) (contexts s) /\
  Forall (fun o => Forall (fun e => e = true) (tracksEnded o)) (streams s) /\
  Forall (fun o => connected o = false) (nodes s) /\
  Forall (fun o => closeRequested o = true) (sessions s).

(** A ref of the connection (contexts, session) holds an object. *)
Definition holds_session (s : AppState) : bool :=
  match inputAudioContextRef s, outputAudioContextRef s,
        sessionPromiseRef s with
  | None, None, None => false
  | _, _, _ => true
  end.

(** A ref of the capture chain (stream, nodes) holds an object. *)
Definition holds_capture (s : AppState) : bool :=
  match streamRef s, scriptProcessorRef s, mediaStreamSourceRef s with
  | None, None, None => false
  | _, _, _ => true
  end.

(** The event makes its handler assign a ref that holds an object
    without releasing the object first: a start request while the
    session is not active but its refs are set (an earlier start is
    still connecting, or failed half-way), or a second stream handed
    over by [getUserMedia]. *)
Definition overwrites (s : AppState) (ev : Event) : bool :=
  match ev with
  | EvStartButton _ => negb (isSessionActive s) && holds_session s
  | EvMicButton _ =>
      isApiKeySet s && negb (isSessionActive s) && holds_session s
  | EvMicrophone (Granted _) => holds_capture s
  | _ => false
  end.

(** The events that leave the connection and the capture chain
    alone. *)
Definition quiet (ev : Event) : bool :=
  match ev with
  | EvMount | EvSaveApiKey _ | EvOpen | EvMessage _ _ | EvEnded _ => true
  | _ => false
  end.

(** An audio context that exists and that no ref holds. *)
Definition unheld_context (c : nat) (s : AppState) : Prop :=
  c < length (contexts s) /\
  inputAudioContextRef s <> Some c /\ outputAudioContextRef s <> Some c.

(** A session that exists and that the session ref does not hold. *)
Definition unheld_session (p : nat) (s : AppState) : Prop :=
  p < length (sessions s) /\ sessionPromiseRef s <> Some p.

(** The [disabled] attribute of the "Start New Session" button
    (line 376). *)
Definition startButtonDisabled (s : AppState) : bool :=
  negb (isApiKeySet s) || isSessionActive s.

Section Runs.
Variable initializeAi : jsstring -> option GoogleGenAI.
Variable decodeAudio : jsstring -> option AudioBuffer.

(** A run in which no event overwrites a ref that holds an object. *)
Fixpoint orderly (s : AppState) (evs : list Event) : bool :=
  match evs with
  | [] => true
  | ev :: r =>
      negb (overwrites s ev) &&
      orderly (step initializeAi decodeAudio s ev) r
  end.
End Runs.

(** [untouched c p s s']: if no ref of [s] holds the context [c], none
    of [s'] does and the context is in [s'] as it was in [s]; the same
    for the session [p]. *)
Definition untouched (c p : nat) : relation AppState :=
  fun s s' =>
    (unheld_context c s ->
     unheld_context c s' /\ contexts s' !! c = contexts s !! c) /\
    (unheld_session p s ->
     unheld_session p s' /\ sessions s' !! p = sessions s !! p).

(** The session the session ref holds has not been asked to close. *)
Definition session_pending (s : AppState) : Prop :=
  forall p, sessionPromiseRef s = Some p ->
            sessions s !! p = Some (mkSession false).

(** The state with its conversation and its playback part blanked: two
    states with the same image differ in the conversation and in
    playback only. *)
Definition outside_conversation_and_playback (s : AppState) : AppState :=
  set_messages []
    (set_displayUserTranscription []
       (set_displayTutorTranscription []
          (set_currentUserTranscriptionRef []
             (set_currentTutorTranscriptionRef [] (outside_playback s))))).

(** The state with the client, the credential flag, the modal flag, the
    status message and the stored key blanked: two states with the
    same image differ in these five at most. *)
Definition outside_credential (s : AppState) : AppState :=
  set_aiRef None
    (set_isApiKeySet false
       (set_isApiKeyModalOpen false
          (set_statusMessage [] (set_localStorage None s)))).

(** [gapless lo l hi]: the nodes of [l] were started back to back
    without a gap, the first at [lo], each at the end of the one before
    it, and the last one ends at [hi]. *)
Fixpoint gapless (lo : Q) (l : list SourceNode) (hi : Q) : Prop :=
  match l with
  | [] => (lo == hi)%Q
  | src :: r =>
      exists t, startTime src = Some t /\ (t == lo)%Q /\
                gapless (t + duration (buffer src))%Q r hi
  end.

(** ** The system prompt and the choices of the settings panel *)

(** [LEVELS] and [TOPICS] of [constants.ts]. *)
Definition LEVELS : list jsstring :=
  [ str "Beginner (A1-A2): Basic phrases & introductions";
    str "Intermediate (B1): Everyday conversations";
    str "Upper-Intermediate (B2): Work & academic topics";
    str "Advanced (C1): Complex & abstract discussions";
    str "Proficient (C2): Nuanced & native-like speech" ].

Definition TOPICS : list jsstring :=
  [ str "Getting to Know Each Other";
    str "Daily Life & Routines";
    str "Hobbies & Interests";
    str "Food & Cooking";
    str "Travel & Holidays";
    str "Work & Career";
    str "Technology & The Future";
    str "Health & Fitness";
    str "Movies & TV Shows";
    str "Current Events & News";
    str "Ordering in a Restaurant";
    str "Job Interview Practice";
    str "Making a Presentation";
    str "Social & Cultural Issues" ].

(** The text of a template literal, line by line: the lines joined by
    line feeds. *)
Definition LF : N := 10.

Definition template (lines : list jsstring) : jsstring :=
  match lines with
  | [] => []
  | l :: r => l ++ concat (map (fun x => LF :: x) r)
  end.

(** The lines of the prompt before the settings (lines 93-97). *)
Definition promptHeader : list jsstring :=
  [ str ("You are Anna, a friendly and patient AI English "
         ++ "conversation coach.")%string;
    [];
    str ("Your primary goal is to help the user practice their "
         ++ "English speaking skills through a guided, interactive "
         ++ "question-and-answer format.")%string;
    [];
    str "Current Settings:" ].

(** The lines of the prompt after the settings (lines 100-114). *)
Definition promptInstructions : list jsstring :=
  [ [];
    str "Your instructions are:";
    str ("1. **Speak ONLY in English.** Do not use any other "
         ++ "language.")%string;
    str ("2. **Initiate the Conversation:** Start by introducing "
         ++ "yourself and asking an engaging, open-ended question "
         ++ "related to the selected topic.")%string;
    str ("3. **Lead the Dialogue:** Your main role is to guide "
         ++ "the conversation. Ask a question, listen carefully to "
         ++ "the user's response, and then react.")%string;
    str ("4. **Provide Constructive Feedback:** If the user's "
         ++ "response has a grammatical error, uses an unnatural "
         ++ "phrase, or doesn't logically answer the question, you "
         ++ "MUST provide a gentle correction.")%string;
    str "    - First, acknowledge their attempt positively.";
    str "    - Then, clearly explain the mistake.";
    str ("    - Finally, offer a correct or more natural "
         ++ "alternative.")%string;
    str "    - Example: "
      ++ [34%N]
      ++ str ("That's a great thought! A slightly more natural way to "
            ++ "say that would be, 'I enjoy watching movies in my free "
            ++ "time.' We use 'in my free time' instead of 'on my free "
            ++ "time'.")%string
      ++ [34%N];
    str ("5. **Ask Follow-up Questions:** After providing "
         ++ "feedback or if the user's answer is good, ask a "
         ++ "relevant follow-up question to keep the conversation "
         ++ "flowing naturally.")%string;
    str ("6. **Adapt Your Language:** Adjust your vocabulary, "
         ++ "question complexity, and speaking pace to match the "
         ++ "user's selected proficiency level.")%string;
    str ("7. **Maintain a Positive Tone:** Always be supportive, "
         ++ "encouraging, and patient.")%string;
    str ("8. **Be Concise:** Keep your own speaking turns "
         ++ "relatively short to maximize the user's practice time.")%string;
    str ("9. **Stay on Topic:** Strictly adhere to the chosen "
         ++ "conversation topic and difficulty level.")%string ].

(** [getSystemPrompt] (lines 92-115), with the two state variables it
    closes over. *)
Definition getSystemPrompt (level topic : jsstring) : jsstring :=
  template
    (promptHeader
     ++ [str "- Level: " ++ level; str "- Topic: " ++ topic]
     ++ promptInstructions).

(** A text without a line feed. *)
Definition singleLine (x : jsstring) : bool :=
  forallb (fun c => negb (c =? LF)%N) x.

(** ** More sample states *)

(** The key is saved and nothing was started. *)
Definition readySession : AppState :=
  run sampleInitializeAi sampleDecodeAudio
    [EvSaveApiKey (str "key")] (init None).

(** A start was requested and the connection is not open yet. *)
Definition pendingSession : AppState :=
  run sampleInitializeAi sampleDecodeAudio
    [EvStartButton Started] readySession.

(** The connected session in the middle of a turn. *)
Definition midTurn : AppState :=
  run sampleInitializeAi sampleDecodeAudio
    [EvMessage (clockAt 0) (userFragment "I go");
     EvMessage (clockAt 0) (tutorFragment "Good")] connectedSession.

(** The connected session after one turn. *)
Definition afterTurn : AppState :=
  run sampleInitializeAi sampleDecodeAudio
    [EvMessage (clockAt 0) (userFragment " I go to school ");
     EvMessage (clockAt 0) (tutorFragment "Well done. ");
     EvMessage (clockAt 0) turnCompleteSignal] connectedSession.

(** The session was stopped with the microphone button while two
    buffers were playing. *)
Definition stoppedSession : AppState :=
  run sampleInitializeAi sampleDecodeAudio
    [EvMicButton Started] speakingSession.

(** The connection opened and the session was stopped before the
    microphone was granted. *)
Definition stoppedAtPrompt : AppState :=
  run sampleInitializeAi sampleDecodeAudio
    [EvOpen; EvMicButton Started] pendingSession.

(** A message with a transcript fragment, a fragment of audio that
    cannot be decoded and the interruption signal. *)
Definition noisyMessage : LiveServerMessage :=
  mkServerMessage
    (Some (mkServerContent (Some (mkTranscription (Some (str "Hi"))))
             None None (Some (mkContent (Some [audioPart "!"])))
             (Some true))).

(** Two sessions in a row, the first one stopped with the microphone
    button. *)
Definition twoSessions : list Event :=
  [EvMount; EvSaveApiKey (str "key");
   EvStartButton Started; EvOpen; EvMicrophone (Granted 1);
   EvMessage (clockAt 48000) twoFragments; EvMicButton Started;
   EvMicButton Started; EvOpen; EvMicrophone (Granted 2);
   EvMessage (clockAt 0) (userFragment "Hello")].

(** The connected session in its second turn: the first turn is in the
    log and both speakers have said something new. *)
Definition talkingSession : AppState :=
  run sampleInitializeAi sampleDecodeAudio
    [EvMessage (clockAt 0) (userFragment " I go to school ");
     EvMessage (clockAt 0) (tutorFragment "Well done. ");
     EvMessage (clockAt 0) turnCompleteSignal;
     EvMessage (clockAt 0) (userFragment "And then");
     EvMessage (clockAt 0) (tutorFragment "Go on")] connectedSession.

(** Two clicks on the start button in a row, the second while the
    first start is still connecting; both connections open. *)
Definition startedTwice : list Event :=
  [EvSaveApiKey (str "key"); EvStartButton Started; EvStartButton Started;
   EvOpen].

(** The same, with the microphone granted to both sessions. *)
Definition capturingTwice : list Event :=
  startedTwice ++ [EvMicrophone (Granted 1); EvOpen; EvMicrophone (Granted 1)].

(** One session up to the permission prompt. *)
Definition startedOnce : list Event :=
  [EvSaveApiKey (str "key"); EvStartButton Started; EvOpen].

(** * Proofs *)

(** ** Frame rules of the handler monad *)

Section Frame.
Context (R : relation AppState) `{!PreOrder R}.

Lemma steps_ret {A} (a : A) : steps R (ret a).
Proof. intros s. reflexivity. Qed.

Lemma steps_throw {A} (e : Exn) : steps R (@throw A e).
Proof. intros s. reflexivity. Qed.

Lemma steps_get : steps R get.
Proof. intros s. reflexivity. Qed.

Lemma steps_modify (g : AppState -> AppState) :
  (forall s, R s (g s)) -> steps R (modify g).
Proof. intros H s. apply H. Qed.

Lemma steps_bind {A B} (c : M A) (k : A -> M B) :
  steps R c -> (forall a, steps R (k a)) -> steps R (bind c k).
Proof.
  intros Hc Hk s. specialize (Hc s). unfold exec, bind in *.
  destruct (c s) as [[a|e] s1]; simpl in *.
  - etransitivity; [exact Hc | apply (Hk a s1)].
  - exact Hc.
Qed.

Lemma steps_try_catch {A} (c : M A) (h : Exn -> M A) :
  steps R c -> (forall e, steps R (h e)) -> steps R (try_catch c h).
Proof.
  intros Hc Hh s. specialize (Hc s). unfold exec, try_catch in *.
  destruct (c s) as [[a|e] s1]; simpl in *.
  - exact Hc.
  - etransitivity; [exact Hc | apply (Hh e s1)].
Qed.

Lemma steps_detach (c : M unit) : steps R c -> steps R (detach c).
Proof. intros Hc s. apply Hc. Qed.

Lemma steps_forEach {A} (g : A -> M unit) (l : list A) :
  (forall x, steps R (g x)) -> steps R (forEach g l).
Proof.
  intros Hg. induction l as [|x r IH]; simpl.
  - apply steps_ret.
  - apply steps_bind; [apply Hg | intros _; exact IH].
Qed.

Lemma steps_forEachFrom {A} (g : nat -> A -> M unit) (l : list A) :
  (forall k x, steps R (g k x)) ->
  forall k, steps R (forEachFrom k g l).
Proof.
  intros Hg. induction l as [|x r IH]; intros k; simpl.
  - apply steps_ret.
  - apply steps_bind; [apply Hg | intros _; apply IH].
Qed.
End Frame.

#[local] Instance same_preorder {X} (f : AppState -> X) : PreOrder (same f).
Proof.
  split.
  - intros s. reflexivity.
  - intros s1 s2 s3 H12 H23. unfold same in *. congruence.
Qed.

#[local] Instance inv_preorder (P : AppState -> Prop) : PreOrder (inv P).
Proof.
  split.
  - intros s H. exact H.
  - intros s1 s2 s3 H12 H23 H. apply H23, H12, H.
Qed.

(** One step of a proof of [steps R c]: split the computation at its
    head; a primitive is left to [tac]. *)
Ltac steps_step tac :=
  lazymatch goal with
  | |- steps _ (bind _ _) => apply steps_bind; [apply _ | | intro]
  | |- steps _ (ret _) => apply steps_ret; apply _
  | |- steps _ (throw _) => apply steps_throw; apply _
  | |- steps _ get => apply steps_get; apply _
  | |- steps _ (modify _) => apply steps_modify; intro; tac
  | |- steps _ (try_catch _ _) => apply steps_try_catch; [apply _ | | intro]
  | |- steps _ (detach _) => apply steps_detach
  | |- steps _ (forEach _ _) => apply steps_forEach; [apply _ | intro]
  | |- steps _ (forEachFrom _ _ _) =>
      apply steps_forEachFrom; [apply _ | intros]
  | |- steps _ (match ?x with _ => _ end) => destruct x
  | |- steps _ _ =>
      let s := fresh "s" in
      intro s;
      unfold exec, source_stop, source_start, createBufferSource,
        newAudioContext, currentTime, newMediaStream, createNode,
        connectToLiveSession;
      repeat case_match; tac
  end.

Ltac unfold_ops :=
  unfold stop_tracks, disconnect, connect, close_context, then_close,
    setMessages, setIsSessionActive, setStatusMessage, setIsApiKeySet,
    setIsApiKeyModalOpen, setDisplayUserTranscription,
    setDisplayTutorTranscription.

(** A frame proof: every primitive leaves the view alone by
    computation. *)
Ltac frame :=
  unfold preserves; unfold_ops;
  repeat steps_step ltac:(unfold same; reflexivity).

(** ** The teardown leaves the conversation alone *)

Lemma stopSession_conversation : preserves conversation stopSession.
Proof.
  unfold stopSession, stopMicrophone, disconnectProcessor,
    disconnectMicSource, closeInputContext, closeSession, stopPlayback,
    closeOutputContext.
  frame.
Qed.

Lemma flushPlayback_outside_playback :
  preserves outside_playback flushPlayback.
Proof. unfold flushPlayback, stopPlayback. frame. Qed.

(** ** The teardown in closed form *)

Lemma started_alter (srcs : list SourceNode) (i id : nat) :
  started srcs id -> started (alter mark_stopped i srcs) id.
Proof.
  intros (src & t & Hl & Ht). destruct (decide (i = id)) as [->|Hne].
  - exists (mark_stopped src), t. split; [|exact Ht].
    rewrite list_lookup_alter_eq, Hl. reflexivity.
  - exists src, t. split; [|exact Ht].
    rewrite list_lookup_alter_ne by exact Hne. exact Hl.
Qed.

Lemma forEach_source_stop (ids : list nat) (s : AppState) :
  Forall (started (sources s)) ids ->
  forEach source_stop ids s
  = (Normal tt, set_sources (stop_all ids (sources s)) s).
Proof.
  revert s. induction ids as [|id r IH]; intros s H; simpl.
  - destruct s; reflexivity.
  - inversion H as [|? ? (src & t & Hl & Ht) Hr]; subst.
    unfold bind, source_stop at 1. rewrite Hl, Ht.
    rewrite IH.
    + reflexivity.
    + simpl. eapply List.Forall_impl; [|exact Hr].
      intros x Hx. apply started_alter, Hx.
Qed.

Lemma stopPlayback_started (s : AppState) :
  Forall (started (sources s)) (audioPlaybackSources s) ->
  stopPlayback s
  = (Normal tt,
     set_audioPlaybackSources []
       (set_sources (stop_all (audioPlaybackSources s) (sources s)) s)).
Proof.
  intros H. unfold stopPlayback, bind, get, modify.
  rewrite forEach_source_stop by exact H. reflexivity.
Qed.

Lemma wf_input_open (s : AppState) (c : nat) :
  wf s -> inputAudioContextRef s = Some c -> context_closed c s = false.
Proof.
  intros W H. destruct (wf_input s W c H) as (o & Ho & Hc).
  unfold context_closed. rewrite Ho. exact Hc.
Qed.

Lemma wf_output_open (s : AppState) (c : nat) :
  wf s -> outputAudioContextRef s = Some c -> context_closed c s = false.
Proof.
  intros W H. destruct (wf_output s W c H) as (o & Ho & Hc).
  unfold context_closed. rewrite Ho. exact Hc.
Qed.

Lemma stopMicrophone_eq (s : AppState) :
  stopMicrophone s
  = (Normal tt,
     set_streamRef None
       (set_streams (alter_ref end_tracks (streamRef s) (streams s)) s)).
Proof.
  unfold stopMicrophone, bind, get. destruct s as []; simpl.
  destruct streamRef0; reflexivity.
Qed.

Lemma disconnectProcessor_eq (s : AppState) :
  disconnectProcessor s
  = (Normal tt,
     set_scriptProcessorRef None
       (set_nodes (alter_ref (fun _ => mkNode false) (scriptProcessorRef s)
                     (nodes s)) s)).
Proof.
  unfold disconnectProcessor, bind, get. destruct s as []; simpl.
  destruct scriptProcessorRef0; reflexivity.
Qed.

Lemma disconnectMicSource_eq (s : AppState) :
  disconnectMicSource s
  = (Normal tt,
     set_mediaStreamSourceRef None
       (set_nodes (alter_ref (fun _ => mkNode false) (mediaStreamSourceRef s)
                     (nodes s)) s)).
Proof.
  unfold disconnectMicSource, bind, get. destruct s as []; simpl.
  destruct mediaStreamSourceRef0; reflexivity.
Qed.

Lemma closeInputContext_eq (s : AppState) :
  (forall c, inputAudioContextRef s = Some c -> context_closed c s = false) ->
  closeInputContext s
  = (Normal tt,
     set_inputAudioContextRef None
       (set_contexts (alter_ref close_ctx (inputAudioContextRef s)
                        (contexts s)) s)).
Proof.
  intros H. unfold closeInputContext, bind, get.
  destruct (inputAudioContextRef s) as [c|] eqn:E.
  - rewrite (H c eq_refl). reflexivity.
  - destruct s; simpl in *; subst; reflexivity.
Qed.

Lemma closeOutputContext_eq (s : AppState) :
  (forall c, outputAudioContextRef s = Some c -> context_closed c s = false) ->
  closeOutputContext s
  = (Normal tt,
     set_outputAudioContextRef None
       (set_contexts (alter_ref close_ctx (outputAudioContextRef s)
                        (contexts s)) s)).
Proof.
  intros H. unfold closeOutputContext, bind, get.
  destruct (outputAudioContextRef s) as [c|] eqn:E.
  - rewrite (H c eq_refl). reflexivity.
  - destruct s; simpl in *; subst; reflexivity.
Qed.

Lemma closeSession_eq (s : AppState) :
  closeSession s
  = (Normal tt,
     set_sessionPromiseRef None
       (set_sessions (alter_ref (fun _ => mkSession true)
                        (sessionPromiseRef s) (sessions s)) s)).
Proof.
  unfold closeSession, bind, get. destruct s as []; simpl.
  destruct sessionPromiseRef0; reflexivity.
Qed.

(** On a well-formed state the teardown does not throw and ends in
    [teardown s]. *)
Lemma stopSession_teardown (s : AppState) :
  wf s -> stopSession s = (Normal tt, teardown s).
Proof.
  intros W.
  unfold stopSession, bind.
  rewrite stopMicrophone_eq, disconnectProcessor_eq, disconnectMicSource_eq.
  rewrite closeInputContext_eq
    by (intros c Hc; exact (wf_input_open s c W Hc)).
  rewrite closeSession_eq.
  rewrite stopPlayback_started by exact (wf_tracked s W).
  rewrite closeOutputContext_eq.
  - reflexivity.
  - simpl. intros c Hc.
    destruct (inputAudioContextRef s) as [c'|] eqn:E; simpl.
    + unfold context_closed; simpl.
      rewrite list_lookup_alter_ne by (eapply wf_distinct; eauto).
      exact (wf_output_open s c W Hc).
    + apply (wf_output_open s c W Hc).
Qed.

(** ** What the teardown leaves behind *)

Lemma teardown_idle (s : AppState) : idle (teardown s).
Proof. repeat split. Qed.


Lemma alter_ref_nil {A} (f : A -> A) (r : option nat) : alter_ref f r [] = [].
Proof. destruct r; reflexivity. Qed.

Lemma alter_ref_lookup {A} (f : A -> A) (r : option nat) (l : list A) i :
  alter_ref f r l !! i
  = (if decide (r = Some i) then f else id) <$> l !! i.
Proof.
  unfold alter_ref. case_decide as H.
  - subst r. apply list_lookup_alter_eq.
  - destruct r as [j|].
    + rewrite list_lookup_alter_ne by congruence.
      destruct (l !! i); reflexivity.
    + destruct (l !! i); reflexivity.
Qed.

Lemma stop_all_lookup (ids : list nat) (srcs : list SourceNode) (i : nat) :
  stop_all ids srcs !! i
  = (if decide (i ∈ ids) then mark_stopped else id) <$> srcs !! i.
Proof.
  revert srcs. induction ids as [|j r IH]; intros srcs.
  - change (stop_all [] srcs) with srcs.
    case_decide as H; [inversion H|]. destruct (srcs !! i); reflexivity.
  - change (stop_all (j :: r) srcs)
      with (stop_all r (alter mark_stopped j srcs)).
    rewrite IH. destruct (decide (j = i)) as [->|Hne].
    + rewrite list_lookup_alter_eq.
      rewrite (decide_True (P := i ∈ i :: r)) by (apply elem_of_cons; auto).
      destruct (srcs !! i) as [src|]; [|reflexivity].
      case_decide; reflexivity.
    + rewrite list_lookup_alter_ne by exact Hne.
      case_decide as Hin.
      * rewrite decide_True by (apply elem_of_cons; auto). reflexivity.
      * rewrite decide_False; [reflexivity|].
        rewrite elem_of_cons. intros [->|H]; [apply Hne|apply Hin]; auto.
Qed.

Lemma tracks_all_ended (o : MediaStreamObj) :
  Forall (fun e => e = true) (tracksEnded (end_tracks o)).
Proof.
  destruct o as [l]. simpl. induction l; simpl; constructor; auto.
Qed.

Lemma wf_teardown (s : AppState) : wf s -> wf (teardown s).
Proof.
  intros W. split; simpl; try discriminate.
  - constructor.
  - intros Hk. destruct (wf_noKey s W Hk) as (_ & Hc & Hs).
    rewrite Hc, Hs. rewrite !alter_ref_nil. auto.
  - auto.
Qed.

Lemma teardown_released (s : AppState) : wf s -> released s (teardown s).
Proof.
  intros W. unfold released. simpl. repeat split.
  - intros st H. rewrite H. simpl.
    destruct (lookup_lt_is_Some_2 _ _ (wf_stream s W st H)) as [o Ho].
    exists (end_tracks o). rewrite list_lookup_alter_eq, Ho. split; [reflexivity|].
    apply tracks_all_ended.
  - intros n H.
    destruct (lookup_lt_is_Some_2 _ _ (wf_processor s W n H)) as [o Ho].
    rewrite !alter_ref_lookup, Ho, H.
    rewrite (decide_True (P := Some n = Some n)) by reflexivity.
    destruct (decide (mediaStreamSourceRef s = Some n)); reflexivity.
  - intros n H.
    destruct (lookup_lt_is_Some_2 _ _ (wf_micSource s W n H)) as [o Ho].
    rewrite !alter_ref_lookup, Ho, H.
    rewrite (decide_True (P := Some n = Some n)) by reflexivity.
    destruct (decide (scriptProcessorRef s = Some n)); reflexivity.
  - intros c H. destruct (wf_input s W c H) as (o & Ho & _).
    rewrite !alter_ref_lookup, Ho, H. simpl.
    rewrite (decide_True (P := Some c = Some c)) by reflexivity.
    destruct (decide (outputAudioContextRef s = Some c));
      eexists; split; reflexivity.
  - intros c H. destruct (wf_output s W c H) as (o & Ho & _).
    rewrite !alter_ref_lookup, Ho, H. simpl.
    rewrite (decide_True (P := Some c = Some c)) by reflexivity.
    destruct (decide (inputAudioContextRef s = Some c));
      eexists; split; reflexivity.
  - intros p H.
    destruct (lookup_lt_is_Some_2 _ _ (wf_session s W p H)) as [o Ho].
    rewrite alter_ref_lookup, Ho, H.
    rewrite decide_True by reflexivity. reflexivity.
  - intros id H.
    pose proof (wf_tracked s W) as Ht.
    rewrite Forall_forall in Ht.
    destruct (Ht id (proj1 (list_elem_of_In _ _) H)) as (src & t & Hl & _).
    exists (mark_stopped src). rewrite stop_all_lookup, Hl.
    rewrite decide_True by exact H. split; reflexivity.
Qed.

(** ** Times and schedules *)

Lemma Math_max_l (a b : Q) : (a <= Math_max a b)%Q.
Proof.
  unfold Math_max. destruct (Qle_bool a b) eqn:E.
  - apply Qle_bool_iff, E.
  - apply Qle_refl.
Qed.

Lemma Math_max_r (a b : Q) : (b <= Math_max a b)%Q.
Proof.
  unfold Math_max. destruct (Qle_bool a b) eqn:E.
  - apply Qle_refl.
  - apply Qlt_le_weak, Qnot_le_lt. intros H.
    apply Qle_bool_iff in H. congruence.
Qed.

Lemma Math_max_zero (n : N) (r : positive) :
  Math_max 0 (Z.of_N n # r) = (Z.of_N n # r)%Q.
Proof.
  unfold Math_max.
  assert (H : Qle_bool 0 (Z.of_N n # r) = true).
  { apply Qle_bool_iff. unfold Qle. simpl. lia. }
  rewrite H. reflexivity.
Qed.

Lemma duration_nonneg (b : AudioBuffer) : (0 <= duration b)%Q.
Proof. unfold duration, Qle. simpl. lia. Qed.

Lemma Qle_plus_duration (t : Q) (b : AudioBuffer) :
  (t <= t + duration b)%Q.
Proof.
  rewrite <- (Qplus_0_r t) at 1.
  apply Qplus_le_compat; [apply Qle_refl | apply duration_nonneg].
Qed.

Lemma chain_lower (lo lo' hi : Q) (l : list SourceNode) :
  (lo' <= lo)%Q -> chain lo l hi -> chain lo' l hi.
Proof.
  intros H. destruct l as [|src r]; simpl.
  - intros H1. eapply Qle_trans; eauto.
  - intros (t & Ht & Hlo & Hr). exists t. repeat split; auto.
    eapply Qle_trans; eauto.
Qed.

Lemma chain_app (a b c : Q) (l1 l2 : list SourceNode) :
  chain a l1 b -> chain b l2 c -> chain a (l1 ++ l2) c.
Proof.
  revert a. induction l1 as [|src r IH]; intros a; simpl.
  - intros H1 H2. eapply chain_lower; eauto.
  - intros (t & Ht & Hlo & Hr) H2. exists t. repeat split; auto.
Qed.

(** Along a chain the cursor does not go back. *)
Lemma chain_le (lo hi : Q) (l : list SourceNode) :
  chain lo l hi -> (lo <= hi)%Q.
Proof.
  revert lo. induction l as [|src r IH]; intros lo; simpl.
  - auto.
  - intros (t & Ht & Hlo & Hr). apply IH in Hr.
    eapply Qle_trans; [exact Hlo|].
    eapply Qle_trans; [apply Qle_plus_duration | exact Hr].
Qed.

(** In a chain every node starts at or after [lo] and ends by [hi]. *)
Lemma chain_bounds (lo hi : Q) (l : list SourceNode) (src : SourceNode) :
  chain lo l hi -> src ∈ l ->
  exists t, startTime src = Some t /\ (lo <= t)%Q /\
            (t + duration (buffer src) <= hi)%Q.
Proof.
  revert lo. induction l as [|x r IH]; intros lo Hc Hin.
  - inversion Hin.
  - simpl in Hc. destruct Hc as (t & Ht & Hlo & Hr).
    apply elem_of_cons in Hin as [->|Hin].
    + exists t. repeat split; auto. apply (chain_le _ _ _ Hr).
    + destruct (IH _ Hr Hin) as (t' & Ht' & Hlo' & Hhi').
      exists t'. repeat split; auto.
      eapply Qle_trans; [exact Hlo|].
      eapply Qle_trans; [apply Qle_plus_duration | exact Hlo'].
Qed.

(** Two nodes of a chain do not overlap: the earlier one ends before the
    later one starts. *)
Lemma chain_no_overlap (lo hi : Q) (l : list SourceNode) (i j : nat)
      (a b : SourceNode) :
  chain lo l hi -> i < j -> l !! i = Some a -> l !! j = Some b ->
  exists ta tb, startTime a = Some ta /\ startTime b = Some tb /\
                (ta + duration (buffer a) <= tb)%Q.
Proof.
  revert lo i j. induction l as [|x r IH]; intros lo i j Hc Hij Hi Hj.
  - discriminate.
  - simpl in Hc. destruct Hc as (t & Ht & Hlo & Hr).
    destruct j as [|j]; [lia|]. simpl in Hj.
    destruct i as [|i]; simpl in Hi.
    + injection Hi as <-.
      assert (Hb : b ∈ r) by (eapply list_elem_of_lookup_2; eauto).
      destruct (chain_bounds _ _ _ _ Hr Hb) as (tb & Htb & Hlob & _).
      exists t, tb. auto.
    + apply (IH _ i j Hr); [lia | exact Hi | exact Hj].
Qed.

#[local] Instance extends_schedule_preorder : PreOrder extends_schedule.
Proof.
  split.
  - intros s. exists []. split; [symmetry; apply app_nil_r | apply Qle_refl].
  - intros s1 s2 s3 (n1 & E1 & C1) (n2 & E2 & C2).
    exists (n1 ++ n2). split.
    + rewrite E2, E1. symmetry. apply app_assoc.
    + eapply chain_app; eauto.
Qed.

(** A step that leaves the source nodes and the cursor alone extends the
    schedule by nothing. *)
Lemma extends_schedule_same (s s' : AppState) :
  sources s' = sources s -> nextStartTimeRef s' = nextStartTimeRef s ->
  extends_schedule s s'.
Proof.
  intros H1 H2. exists []. rewrite H1, H2.
  split; [symmetry; apply app_nil_r | apply Qle_refl].
Qed.

(** A step that leaves the refs and the objects alone, and does not
    drop the client, keeps the invariant. *)
Lemma wf_transport (s s' : AppState) :
  refs_view s' = refs_view s -> (aiRef s' = None -> aiRef s = None) ->
  wf s -> wf s'.
Proof.
  unfold refs_view.
  intros [= E1 E2 E3 E4 E5 E6 E7 E8 E9 E10 E11 E12 E13] Hk W.
  destruct W as [W1 W2 W3 W4 W5 W6 W7 W8 W9 W10].
  split; rewrite ?E1, ?E2, ?E3, ?E4, ?E5, ?E6, ?E7, ?E8, ?E9, ?E10,
           ?E11, ?E12, ?E13; auto.
Qed.

(** ** The audio part of [onmessage] *)

Section Playback.
Variable decodeAudio : jsstring -> option AudioBuffer.

(** What [playPart] does, case by case. *)
Lemma playPart_eq (now : N) (part : Part) (s : AppState) :
  playPart decodeAudio now part s
  = match payload part with
    | None => (Normal tt, s)
    | Some d =>
        match outputAudioContextRef s with
        | None => (Throw TypeError, s)
        | Some c =>
            match contexts s !! c with
            | None => (Throw TypeError, s)
            | Some o =>
                let t := Math_max (nextStartTimeRef s)
                           (Z.of_N now # sampleRate o) in
                match decodeAudio d with
                | None => (Throw DecodeError, set_nextStartTimeRef t s)
                | Some b => (Normal tt, schedule t b s)
                end
            end
        end
    end.
Proof.
  unfold playPart, payload.
  destruct (inlineData part ?. data) as [d|]; [|reflexivity].
  destruct (truthy_string d); [|reflexivity].
  unfold bind at 1, get.
  destruct (outputAudioContextRef s) as [c|]; [|reflexivity].
  unfold bind at 1, currentTime.
  destruct (contexts s !! c) as [o|]; [|reflexivity].
  unfold bind at 1, modify at 1.
  destruct (decodeAudio d) as [b|]; [|reflexivity].
  unfold bind, createBufferSource, get, modify, source_start. simpl.
  rewrite lookup_app_r by lia. rewrite Nat.sub_diag. simpl.
  rewrite insert_app_r_alt by lia. rewrite Nat.sub_diag. simpl.
  reflexivity.
Qed.

Lemma playPart_conversation (now : N) (part : Part) :
  preserves conversation (playPart decodeAudio now part).
Proof.
  intros s. unfold exec. rewrite playPart_eq.
  repeat case_match; reflexivity.
Qed.

Lemma playPart_extends (now : N) (part : Part) :
  steps extends_schedule (playPart decodeAudio now part).
Proof.
  intros s. unfold exec. rewrite playPart_eq.
  destruct (payload part) as [d|]; [|reflexivity].
  destruct (outputAudioContextRef s) as [c|]; [|reflexivity].
  destruct (contexts s !! c) as [o|]; [|reflexivity].
  simpl. destruct (decodeAudio d) as [b|]; simpl.
  - eexists [_]. split; [reflexivity|]. simpl. eexists. split; [reflexivity|].
    split; [apply Math_max_l | apply Qle_refl].
  - exists []. split; [symmetry; apply app_nil_r|]. simpl.
    apply Math_max_l.
Qed.

Lemma started_app (srcs news : list SourceNode) (id : nat) :
  started srcs id -> started (srcs ++ news) id.
Proof.
  intros (src & t & Hl & Ht). exists src, t. split; [|exact Ht].
  apply lookup_app_l_Some, Hl.
Qed.

Lemma wf_schedule (t : Q) (b : AudioBuffer) (s : AppState) :
  outputAudioContextRef s <> None -> wf s -> wf (schedule t b s).
Proof.
  intros Ho W. destruct W as [W1 W2 W3 W4 W5 W6 W7 W8 W9 W10].
  split; simpl; auto; [|tauto].
  assert (Hold : Forall (started (sources s ++ [mkSource b (Some t) false]))
                   (audioPlaybackSources s)).
  { eapply List.Forall_impl; [|exact W1]. intros id. apply started_app. }
  unfold Set_add. case_decide; [exact Hold|].
  apply Forall_app. split; [exact Hold|]. constructor; [|constructor].
  exists (mkSource b (Some t) false), t. split; [|reflexivity].
  rewrite lookup_app_r by lia. rewrite Nat.sub_diag. reflexivity.
Qed.

Lemma playPart_wf (now : N) (part : Part) :
  keeps wf (playPart decodeAudio now part).
Proof.
  intros s W. unfold exec. rewrite playPart_eq.
  destruct (payload part) as [d|]; [|exact W].
  destruct (outputAudioContextRef s) as [c|] eqn:Ec; [|exact W].
  destruct (contexts s !! c) as [o|]; [|exact W].
  simpl. destruct (decodeAudio d) as [b|]; simpl.
  - apply wf_schedule; [congruence | exact W].
  - destruct W as [W1 W2 W3 W4 W5 W6 W7 W8 W9 W10].
    split; simpl; auto. rewrite Ec. discriminate.
Qed.
End Playback.

(** ** The invariant holds between events *)

Lemma stopSession_wf : keeps wf stopSession.
Proof.
  intros s W. unfold exec. rewrite stopSession_teardown by exact W.
  apply wf_teardown, W.
Qed.

Lemma flushPlayback_eq (s : AppState) :
  Forall (started (sources s)) (audioPlaybackSources s) ->
  flushPlayback s
  = (Normal tt,
     set_nextStartTimeRef 0%Q
       (set_audioPlaybackSources []
          (set_sources (stop_all (audioPlaybackSources s) (sources s)) s))).
Proof.
  intros H. unfold flushPlayback, bind.
  rewrite stopPlayback_started by exact H. reflexivity.
Qed.

Lemma flushPlayback_wf : keeps wf flushPlayback.
Proof.
  intros s W. unfold exec. rewrite flushPlayback_eq by apply (wf_tracked s W).
  destruct W as [W1 W2 W3 W4 W5 W6 W7 W8 W9 W10].
  split; simpl; auto.
Qed.

Lemma onended_wf (source : nat) : keeps wf (onended source).
Proof.
  intros s W. destruct W as [W1 W2 W3 W4 W5 W6 W7 W8 W9 W10].
  split; simpl; auto.
  - unfold Set_delete. clear W10.
    induction W1 as [|x l Hx Hl IH]; [constructor|].
    rewrite filter_cons. case_decide; [constructor|]; auto.
  - intros Ho. destruct (W10 Ho) as [Ht Hc]. rewrite Ht. auto.
Qed.

Ltac wf_prim :=
  unfold inv; apply wf_transport;
  [reflexivity | simpl; first [discriminate | tauto | auto]].

Ltac wf_step :=
  first [ apply stopSession_wf | apply flushPlayback_wf
        | steps_step ltac:(wf_prim) ].

Ltac wf_frame := unfold keeps; unfold_ops; repeat wf_step.

Lemma handleNewSession_eq (o : StartOutcome) (s : AppState) :
  wf s ->
  handleNewSession o s
  = match aiRef s with
    | None =>
        (Normal tt,
         set_isApiKeyModalOpen true
           (set_statusMessage
              (str "API Key not set. Please set it in the settings.")
              (afterOptionalStop s)))
    | Some _ => tryOpenSession o (resetConversation (afterOptionalStop s))
    end.
Proof.
  intros W. unfold handleNewSession, afterOptionalStop.
  unfold bind at 1. unfold bind at 1, get at 1.
  destruct (isSessionActive s).
  - rewrite stopSession_teardown by exact W.
    unfold bind at 1, get. simpl. destruct (aiRef s); reflexivity.
  - unfold ret at 1. unfold bind at 1, get. destruct (aiRef s); reflexivity.
Qed.

Lemma lookup_new {A} (l : list A) (x : A) : (l ++ [x]) !! length l = Some x.
Proof. rewrite lookup_app_r by lia. rewrite Nat.sub_diag. reflexivity. Qed.

Lemma lookup_new2 {A} (l : list A) (x y : A) :
  ((l ++ [x]) ++ [y]) !! length l = Some x.
Proof.
  rewrite lookup_app_l by (rewrite length_app; simpl; lia). apply lookup_new.
Qed.

Lemma open_context_app (ctxs l : list AudioContextObj) (c : nat) :
  (exists o, ctxs !! c = Some o /\ closed o = false) ->
  exists o, (ctxs ++ l) !! c = Some o /\ closed o = false.
Proof.
  intros (o & Ho & Hc). exists o. split; [apply lookup_app_l_Some, Ho|exact Hc].
Qed.

Lemma open_context_lt (ctxs : list AudioContextObj) (c : nat) :
  (exists o, ctxs !! c = Some o /\ closed o = false) -> c < length ctxs.
Proof. intros (o & Ho & _). eapply lookup_lt_Some, Ho. Qed.

Lemma tryOpenSession_wf (o : StartOutcome) (s : AppState) :
  wf s -> aiRef s <> None -> wf (exec (tryOpenSession o) s).
Proof.
  intros W Hk. destruct W as [W1 W2 W3 W4 W5 W6 W7 W8 W9 W10].
  destruct o; split; simpl; auto; try tauto.
  all: try (intros c [= <-]); try (intros c c' [= <-]).
  all: try (eexists; split;
            [first [apply lookup_new | apply lookup_new2] | reflexivity]).
  all: try (intros H; apply open_context_app, W3, H).
  all: try (intros H; apply W3, open_context_lt in H; lia).
  all: try (rewrite !length_app; simpl; intros [= <-]; lia).
  - intros c H. apply open_context_app, W3, H.
  - rewrite length_app. simpl. lia.
Qed.

Lemma handleNewSession_wf (o : StartOutcome) : keeps wf (handleNewSession o).
Proof.
  intros s W. unfold exec. rewrite handleNewSession_eq by exact W.
  assert (W' : wf (afterOptionalStop s)).
  { unfold afterOptionalStop. destruct (isSessionActive s); [|exact W].
    apply wf_teardown, W. }
  assert (Hk : aiRef (afterOptionalStop s) = aiRef s).
  { unfold afterOptionalStop. destruct (isSessionActive s); reflexivity. }
  destruct (aiRef s) as [client|] eqn:E.
  - apply tryOpenSession_wf.
    + revert W'. apply wf_transport; [reflexivity|]. simpl. auto.
    + simpl. rewrite Hk. discriminate.
  - simpl. revert W'. apply wf_transport; [reflexivity|]. simpl. auto.
Qed.

Lemma handleMicButtonClick_wf (o : StartOutcome) :
  keeps wf (handleMicButtonClick o).
Proof.
  unfold handleMicButtonClick. unfold keeps.
  apply steps_bind; [apply _ | apply steps_get; apply _ | intros s].
  destruct (negb (isApiKeySet s)); [wf_frame|].
  destruct (isSessionActive s); [apply stopSession_wf|].
  apply steps_detach, handleNewSession_wf.
Qed.

Lemma onopen_begin_wf : keeps wf onopen_begin.
Proof. unfold onopen_begin. wf_frame. Qed.

Lemma finalizeTurn_wf : keeps wf finalizeTurn.
Proof. unfold finalizeTurn. wf_frame. Qed.

Lemma startCapture_wf (r : MicResult) : keeps wf (startCapture r).
Proof.
  intros s W. destruct W as [W1 W2 W3 W4 W5 W6 W7 W8 W9 W10].
  destruct r as [|n]; [split; auto|].
  unfold exec, startCapture, bind, newMediaStream, modify, get. simpl.
  destruct (inputAudioContextRef s) as [c|] eqn:E; simpl.
  - split; simpl; auto; try rewrite E; auto.
    all: try (intros ? [= <-]).
    all: rewrite ?length_alter, ?length_app; simpl; lia.
  - split; simpl; auto; try rewrite E; auto.
    intros ? [= <-]. rewrite length_app. simpl. lia.
Qed.

Lemma onopen_resume_wf (r : MicResult) : keeps wf (onopen_resume r).
Proof.
  unfold onopen_resume, keeps.
  apply steps_try_catch; [apply _ | apply startCapture_wf | intros e].
  wf_frame.
Qed.

Lemma onerror_wf : keeps wf onerror.
Proof. unfold onerror. wf_frame. Qed.

Section HandlersKeepInvariant.
Variable initializeAi : jsstring -> option GoogleGenAI.
Variable decodeAudio : jsstring -> option AudioBuffer.

Lemma mountEffect_wf : keeps wf (mountEffect initializeAi).
Proof. unfold mountEffect. wf_frame. Qed.

Lemma handleSaveApiKey_wf (k : jsstring) :
  keeps wf (handleSaveApiKey initializeAi k).
Proof. unfold handleSaveApiKey. wf_frame. Qed.

Lemma onmessage_wf (clock : nat -> N) (m : LiveServerMessage) :
  keeps wf (onmessage decodeAudio clock m).
Proof.
  unfold onmessage, keeps.
  repeat (apply steps_bind; [apply _ | | intros _]).
  - unfold transcribeInput. wf_frame.
  - unfold transcribeOutput. wf_frame.
  - unfold completeTurn.
    destruct (truthy_flag _); [apply finalizeTurn_wf | wf_frame].
  - unfold playParts.
    destruct (serverContent m ?. modelTurn ?. parts); [|wf_frame].
    apply steps_forEachFrom; [apply _|]. intros k x. apply playPart_wf.
  - unfold interrupt.
    destruct (truthy_flag _); [apply flushPlayback_wf | wf_frame].
Qed.

Lemma handler_wf (ev : Event) :
  keeps wf (handler initializeAi decodeAudio ev).
Proof.
  destruct ev; simpl.
  - apply mountEffect_wf.
  - apply handleSaveApiKey_wf.
  - apply handleNewSession_wf.
  - apply handleMicButtonClick_wf.
  - apply onopen_begin_wf.
  - apply onopen_resume_wf.
  - apply onmessage_wf.
  - apply onerror_wf.
  - apply stopSession_wf.
  - apply onended_wf.
  - apply stopSession_wf.
Qed.

Lemma init_wf (saved : option jsstring) : wf (init saved).
Proof. split; simpl; auto; try discriminate. Qed.

Lemma run_wf (evs : list Event) (s : AppState) :
  wf s -> wf (run initializeAi decodeAudio evs s).
Proof.
  revert s. induction evs as [|ev r IH]; intros s W; [exact W|].
  simpl. apply IH. apply handler_wf, W.
Qed.

(** Every reachable state is well formed. *)
Lemma reachable_wf (s : AppState) :
  reachable initializeAi decodeAudio s -> wf s.
Proof. intros (saved & evs & ->). apply run_wf, init_wf. Qed.

Lemma reachable_init (saved : option jsstring) :
  reachable initializeAi decodeAudio (init saved).
Proof. exists saved, []. reflexivity. Qed.

Lemma reachable_run (evs : list Event) (s : AppState) :
  reachable initializeAi decodeAudio s ->
  reachable initializeAi decodeAudio (run initializeAi decodeAudio evs s).
Proof.
  intros (saved & evs0 & ->). exists saved, (evs0 ++ evs).
  unfold run. rewrite foldl_app. reflexivity.
Qed.
End HandlersKeepInvariant.

(** ** The turn aggregator *)

Lemma transcribeInput_eq (m : LiveServerMessage) (s : AppState) :
  transcribeInput m s
  = (Normal tt,
     match serverContent m ?. inputTranscription with
     | Some _ =>
         set_displayUserTranscription
           (currentUserTranscriptionRef s ++ inputFragment m)
           (set_currentUserTranscriptionRef
              (currentUserTranscriptionRef s ++ inputFragment m) s)
     | None => s
     end).
Proof.
  unfold transcribeInput, inputFragment.
  destruct (serverContent m ?. inputTranscription); reflexivity.
Qed.

Lemma transcribeOutput_eq (m : LiveServerMessage) (s : AppState) :
  transcribeOutput m s
  = (Normal tt,
     match serverContent m ?. outputTranscription with
     | Some _ =>
         set_displayTutorTranscription
           (currentTutorTranscriptionRef s ++ outputFragment m)
           (set_currentTutorTranscriptionRef
              (currentTutorTranscriptionRef s ++ outputFragment m) s)
     | None => s
     end).
Proof.
  unfold transcribeOutput, outputFragment.
  destruct (serverContent m ?. outputTranscription); reflexivity.
Qed.

Lemma finalizeTurn_eq (s : AppState) : finalizeTurn s = (Normal tt, finalized s).
Proof.
  unfold finalizeTurn, finalized, bind, get.
  destruct (newMessages (trim (currentUserTranscriptionRef s))
                        (trim (currentTutorTranscriptionRef s))) as [|x l] eqn:E.
  - simpl. unfold bind, modify, setDisplayUserTranscription,
      setDisplayTutorTranscription, modify. simpl.
    rewrite app_nil_r. destruct s; reflexivity.
  - reflexivity.
Qed.

(** The three transcript blocks never throw: they end in [heard m s],
    finalized when the message completes a turn. *)
Lemma transcript_blocks_eq (m : LiveServerMessage) (s : AppState) :
  (transcribeInput m >> transcribeOutput m >> completeTurn m) s
  = (Normal tt, if isTurnComplete m then finalized (heard m s) else heard m s).
Proof.
  unfold bind. rewrite transcribeInput_eq, transcribeOutput_eq.
  unfold completeTurn, isTurnComplete, heard.
  destruct (truthy_flag (serverContent m ?. turnComplete)).
  - rewrite finalizeTurn_eq.
    destruct (serverContent m ?. inputTranscription),
      (serverContent m ?. outputTranscription); reflexivity.
  - destruct (serverContent m ?. inputTranscription),
      (serverContent m ?. outputTranscription); reflexivity.
Qed.

Lemma heard_accumulators (m : LiveServerMessage) (s : AppState) :
  messages (heard m s) = messages s /\
  currentUserTranscriptionRef (heard m s)
  = currentUserTranscriptionRef s ++ inputFragment m /\
  currentTutorTranscriptionRef (heard m s)
  = currentTutorTranscriptionRef s ++ outputFragment m.
Proof.
  unfold heard, inputFragment, outputFragment.
  destruct (serverContent m ?. inputTranscription),
    (serverContent m ?. outputTranscription); simpl;
    rewrite ?app_nil_r; auto.
Qed.

(** The code's [newMessages] is the specification's [finalizedTurn]. *)
Lemma newMessages_finalizedTurn (userText tutorText : jsstring) :
  newMessages userText tutorText = finalizedTurn userText tutorText.
Proof.
  unfold newMessages, finalizedTurn.
  destruct userText, tutorText; reflexivity.
Qed.

Lemma flushPlayback_conversation : preserves conversation flushPlayback.
Proof. unfold flushPlayback, stopPlayback. frame. Qed.

Section Aggregator.
Variable initializeAi : jsstring -> option GoogleGenAI.
Variable decodeAudio : jsstring -> option AudioBuffer.

Lemma audio_blocks_conversation (clock : nat -> N) (m : LiveServerMessage) :
  preserves conversation (playParts decodeAudio clock m >> interrupt m).
Proof.
  unfold preserves.
  apply steps_bind; [apply _ | | intros _].
  - unfold playParts.
    destruct (serverContent m ?. modelTurn ?. parts);
      [|apply steps_ret; apply _].
    apply steps_forEachFrom; [apply _|]. intros k x.
    apply playPart_conversation.
  - unfold interrupt.
    destruct (truthy_flag _);
      [apply flushPlayback_conversation | apply steps_ret; apply _].
Qed.

(** The conversation after [onmessage], whatever its audio part does. *)
Lemma onmessage_conversation (clock : nat -> N) (m : LiveServerMessage)
      (s : AppState) :
  conversation (exec (onmessage decodeAudio clock m) s)
  = conversation
      (if isTurnComplete m then finalized (heard m s) else heard m s).
Proof.
  pose proof (transcript_blocks_eq m s) as H.
  pose proof (audio_blocks_conversation clock m) as Ha.
  unfold exec, onmessage, bind in *.
  destruct (transcribeInput m s) as [[[]|e1] s1]; [|discriminate].
  destruct (transcribeOutput m s1) as [[[]|e2] s2]; [|discriminate].
  destruct (completeTurn m s2) as [[[]|e3] s3]; [|discriminate].
  injection H as <-. apply (Ha s3).
Qed.
End Aggregator.

Section TurnAggregator.
Variable initializeAi : jsstring -> option GoogleGenAI.
Variable decodeAudio : jsstring -> option AudioBuffer.

(** Messages that complete no turn only grow the accumulators. *)
Lemma fragments_accumulate
      (pre : list ((nat -> N) * LiveServerMessage)) (s : AppState) :
  Forall (fun cm => isTurnComplete (snd cm) = false) pre ->
  let s' := run initializeAi decodeAudio
              (map (fun cm => EvMessage (fst cm) (snd cm)) pre) s in
  messages s' = messages s /\
  currentUserTranscriptionRef s'
  = currentUserTranscriptionRef s
    ++ concat (map (fun cm => inputFragment (snd cm)) pre) /\
  currentTutorTranscriptionRef s'
  = currentTutorTranscriptionRef s
    ++ concat (map (fun cm => outputFragment (snd cm)) pre).
Proof.
  revert s. induction pre as [|[clock m] r IH]; intros s H.
  - simpl. rewrite !app_nil_r. auto.
  - inversion H as [|? ? Hm Hr]; subst. simpl in Hm.
    change (run initializeAi decodeAudio
              (map (fun cm => EvMessage (fst cm) (snd cm)) ((clock, m) :: r))
              s)
      with (run initializeAi decodeAudio
              (map (fun cm => EvMessage (fst cm) (snd cm)) r)
              (exec (onmessage decodeAudio clock m) s)).
    destruct (IH (exec (onmessage decodeAudio clock m) s) Hr)
      as (E1 & E2 & E3).
    pose proof (onmessage_conversation decodeAudio clock m s) as Hc.
    rewrite Hm in Hc. unfold conversation in Hc.
    injection Hc as C1 C2 C3 _ _.
    destruct (heard_accumulators m s) as (A1 & A2 & A3).
    cbv zeta. rewrite E1, E2, E3, C1, C2, C3, A1, A2, A3. simpl.
    rewrite <- !app_assoc. auto.
Qed.

(** C1. For every sequence of messages carrying transcript fragments
    and completing no turn, followed by a message with the
    turn-complete signal, the transcript log gains one finalized
    message per speaker whose trimmed accumulated text is not empty,
    the user's before the assistant's, each holding the trimmed
    concatenation of what the accumulator held when the sequence began
    (nothing, at the start of a turn) and of that speaker's fragments;
    the two accumulators and the two live-display values are empty
    afterwards; when both trimmed texts are empty the log is unchanged,
    and the next turn starts from empty accumulators like any other. *)
Theorem turn_complete_finalizes_the_turn
      (pre : list ((nat -> N) * LiveServerMessage))
      (clock : nat -> N) (fin : LiveServerMessage) (s : AppState) :
  Forall (fun cm => isTurnComplete (snd cm) = false) pre ->
  isTurnComplete fin = true ->
  let s' := run initializeAi decodeAudio
              (map (fun cm => EvMessage (fst cm) (snd cm)) pre
               ++ [EvMessage clock fin]) s in
  let userText :=
    trim (currentUserTranscriptionRef s
          ++ concat (map (fun cm => inputFragment (snd cm)) pre)
          ++ inputFragment fin) in
  let tutorText :=
    trim (currentTutorTranscriptionRef s
          ++ concat (map (fun cm => outputFragment (snd cm)) pre)
          ++ outputFragment fin) in
  messages s' = messages s ++ finalizedTurn userText tutorText /\
  currentUserTranscriptionRef s' = [] /\
  currentTutorTranscriptionRef s' = [] /\
  displayUserTranscription s' = [] /\
  displayTutorTranscription s' = [] /\
  (userText = [] -> tutorText = [] -> messages s' = messages s).
Proof.
  intros Hpre Hfin s' userText tutorText.
  destruct (fragments_accumulate pre s Hpre) as (E1 & E2 & E3).
  set (s1 := run initializeAi decodeAudio
               (map (fun cm => EvMessage (fst cm) (snd cm)) pre) s) in *.
  assert (Hs' : s' = exec (onmessage decodeAudio clock fin) s1).
  { unfold s', s1, run. rewrite foldl_app. reflexivity. }
  pose proof (onmessage_conversation decodeAudio clock fin s1) as Hc.
  rewrite Hfin, <- Hs' in Hc. unfold conversation in Hc. simpl in Hc.
  injection Hc as C1 C2 C3 C4 C5.
  destruct (heard_accumulators fin s1) as (A1 & A2 & A3).
  rewrite A1, A2, A3, E1, E2, E3, <- !app_assoc in C1.
  fold userText tutorText in C1.
  rewrite newMessages_finalizedTurn in C1.
  repeat split; auto.
  intros Hu Ht. rewrite C1, Hu, Ht. apply app_nil_r.
Qed.
End TurnAggregator.

(** The scenario of the specification: the user fragments ["I go"] and
    [" to school"], then a turn-complete signal and no assistant
    fragment, add exactly the user message ["I go to school"]. *)
Lemma turn_complete_finalizes_the_turn_witness :
  messages
    (run sampleInitializeAi sampleDecodeAudio
       [EvMessage (clockAt 0) (userFragment "I go");
        EvMessage (clockAt 0) (userFragment " to school");
        EvMessage (clockAt 0) turnCompleteSignal] (init None))
  = [mkMessage user (str "I go to school")].
Proof.
  apply (turn_complete_finalizes_the_turn sampleInitializeAi sampleDecodeAudio
           [(clockAt 0, userFragment "I go");
            (clockAt 0, userFragment " to school")]
           (clockAt 0) turnCompleteSignal (init None)).
  - repeat constructor.
  - reflexivity.
Defined.

(** The aggregator on small inputs. *)

Example trim_removes_white_space :
  trim [9; 10; 160; 65; 32; 66; 8232; 13; 65279]%N = [65; 32; 66]%N.
Proof. reflexivity. Qed.

Example trim_of_blank_text : trim [32; 9; 12288; 8195]%N = [].
Proof. reflexivity. Qed.

Example turn_of_both_speakers :
  messages
    (run sampleInitializeAi sampleDecodeAudio
       [EvMessage (clockAt 0) (userFragment " How are");
        EvMessage (clockAt 0) (tutorFragment "I am ");
        EvMessage (clockAt 0) (userFragment " you? ");
        EvMessage (clockAt 0) (tutorFragment "fine.");
        EvMessage (clockAt 0) turnCompleteSignal] (init None))
  = [mkMessage user (str "How are you?"); mkMessage ai (str "I am fine.")].
Proof. vm_compute. reflexivity. Qed.

Example turn_of_blank_fragments :
  conversation
    (run sampleInitializeAi sampleDecodeAudio
       [EvMessage (clockAt 0) (userFragment "  ");
        EvMessage (clockAt 0) turnCompleteSignal;
        EvMessage (clockAt 0) (userFragment "Hello")] (init None))
  = ([], str "Hello", [], str "Hello", []).
Proof. vm_compute. reflexivity. Qed.

Example fragment_without_text :
  currentUserTranscriptionRef
    (run sampleInitializeAi sampleDecodeAudio
       [EvMessage (clockAt 0)
          (mkServerMessage
             (Some (mkServerContent (Some (mkTranscription None))
                                    None None None None)))] (init None))
  = str "undefined".
Proof. vm_compute. reflexivity. Qed.

(** ** The playback scheduler *)

Ltac schedule_frame :=
  unfold_ops;
  repeat steps_step ltac:(apply extends_schedule_same; reflexivity).

Section Scheduler.
Variable initializeAi : jsstring -> option GoogleGenAI.
Variable decodeAudio : jsstring -> option AudioBuffer.

Lemma onmessage_extends (clock : nat -> N) (m : LiveServerMessage) :
  isInterrupted m = false ->
  steps extends_schedule (onmessage decodeAudio clock m).
Proof.
  intros Hi. unfold onmessage.
  repeat (apply steps_bind; [apply _ | | intros _]).
  - unfold transcribeInput. schedule_frame.
  - unfold transcribeOutput. schedule_frame.
  - unfold completeTurn, finalizeTurn. schedule_frame.
  - unfold playParts.
    destruct (serverContent m ?. modelTurn ?. parts); [|schedule_frame].
    apply steps_forEachFrom; [apply _|]. intros k x. apply playPart_extends.
  - unfold interrupt. unfold isInterrupted in Hi. rewrite Hi.
    schedule_frame.
Qed.

Lemma handler_extends (ev : Event) :
  no_flush ev = true ->
  steps extends_schedule (handler initializeAi decodeAudio ev).
Proof.
  destruct ev; simpl; try discriminate; intros H.
  - unfold mountEffect. schedule_frame.
  - unfold handleSaveApiKey. schedule_frame.
  - unfold onopen_begin. schedule_frame.
  - apply onmessage_extends. destruct (isInterrupted message); auto.
  - unfold onended. schedule_frame.
Qed.

Lemma run_extends (evs : list Event) (s : AppState) :
  Forall (fun ev => no_flush ev = true) evs ->
  extends_schedule s (run initializeAi decodeAudio evs s).
Proof.
  revert s. induction evs as [|ev r IH]; intros s H.
  - reflexivity.
  - inversion H as [|? ? Hev Hr]; subst. simpl.
    etransitivity; [apply (handler_extends ev Hev s) | apply IH, Hr].
Qed.

(** C2. Over every run of events that neither interrupt nor stop the
    playback, from any state: the cursor never goes back; the source
    nodes created along the run, in the order in which they were
    scheduled, start no earlier than the cursor at the beginning of
    the run and end no later than the cursor at its end; of any two of
    them the earlier ends before the later starts, so no two scheduled
    buffers overlap.  And each fragment is scheduled by this law: a
    decoded part reached at clock reading [now] is started at the
    cursor value at scheduling, the greater of the cursor before (the
    end of the fragment scheduled before it) and the current time of
    the context, and the cursor moves to the end of its buffer. *)
Theorem playback_schedule_never_overlaps (evs : list Event) (s : AppState) :
  Forall (fun ev => no_flush ev = true) evs ->
  let s' := run initializeAi decodeAudio evs s in
  (forall evs1 evs2, evs = evs1 ++ evs2 ->
     (nextStartTimeRef (run initializeAi decodeAudio evs1 s)
      <= nextStartTimeRef s')%Q) /\
  (exists news,
     sources s' = sources s ++ news /\
     (forall src, src ∈ news ->
        exists t, startTime src = Some t /\
                  (nextStartTimeRef s <= t)%Q /\
                  (t + duration (buffer src) <= nextStartTimeRef s')%Q) /\
     (forall i j a b, i < j -> news !! i = Some a -> news !! j = Some b ->
        exists ta tb, startTime a = Some ta /\ startTime b = Some tb /\
                      (ta + duration (buffer a) <= tb)%Q)) /\
  (forall now part d c o b s0,
     payload part = Some d ->
     outputAudioContextRef s0 = Some c ->
     contexts s0 !! c = Some o ->
     decodeAudio d = Some b ->
     let t := Math_max (nextStartTimeRef s0) (Z.of_N now # sampleRate o) in
     playPart decodeAudio now part s0 = (Normal tt, schedule t b s0) /\
     sources (schedule t b s0)
     = sources s0 ++ [mkSource b (Some t) false] /\
     (nextStartTimeRef s0 <= t)%Q /\
     (Z.of_N now # sampleRate o <= t)%Q /\
     nextStartTimeRef (schedule t b s0) = (t + duration b)%Q).
Proof.
  intros H s'. split; [|split].
  - intros evs1 evs2 ->. unfold s', run. rewrite foldl_app.
    apply Forall_app in H as [_ H2].
    destruct (run_extends evs2 (run initializeAi decodeAudio evs1 s) H2)
      as (news & _ & Hc).
    apply (chain_le _ _ _ Hc).
  - destruct (run_extends evs s H) as (news & E & Hc).
    exists news. split; [exact E|]. split.
    + intros src Hin. apply (chain_bounds _ _ _ _ Hc Hin).
    + intros i j a b. apply (chain_no_overlap _ _ _ _ _ _ _ Hc).
  - intros now part d c o b s0 Hd Hc Ho Hb t.
    rewrite playPart_eq, Hd, Hc, Ho, Hb. fold t.
    repeat split; [apply Math_max_l | apply Math_max_r].
Qed.
End Scheduler.


(** Two fragments of one second each, reached when the clock of the
    output context stands at second 2, are appended to the schedule and
    do not overlap. *)
Lemma playback_schedule_never_overlaps_witness :
  exists news,
    sources (run sampleInitializeAi sampleDecodeAudio
               [EvMessage (clockAt 48000) twoFragments] connectedSession)
    = sources connectedSession ++ news /\
    (forall i j a b, i < j -> news !! i = Some a -> news !! j = Some b ->
       exists ta tb, startTime a = Some ta /\ startTime b = Some tb /\
                     (ta + duration (buffer a) <= tb)%Q).
Proof.
  destruct (playback_schedule_never_overlaps
              sampleInitializeAi sampleDecodeAudio
              [EvMessage (clockAt 48000) twoFragments] connectedSession)
    as (_ & (news & E & _ & Hno) & _).
  - constructor; [reflexivity | constructor].
  - exists news. split; [exact E | exact Hno].
Defined.

Example speaking_schedule :
  map (fun src => (startTime src, Qred (endOf src))) (sources speakingSession)
  = [(Some (48000 # 24000), 3); (Some (1728000000 # 576000000), 4)]%Q.
Proof. vm_compute. reflexivity. Qed.

(** ** Messages that interrupt, and fragments that do not decode *)

#[local] Instance tracks_new_preorder : PreOrder tracks_new.
Proof.
  split.
  - intros s. repeat split; auto. intros id H. lia.
  - intros s1 s2 s3 (A1 & B1 & C1) (A2 & B2 & C2). repeat split.
    + intros id H. apply A2, A1, H.
    + intros id H. destruct (decide (id < length (sources s2))).
      * apply A2, B1. lia.
      * apply B2. lia.
    + lia.
Qed.

Lemma forEachFrom_app {A} (f : nat -> A -> M unit) (l1 l2 : list A)
      (k : nat) (s s1 : AppState) :
  forEachFrom k f l1 s = (Normal tt, s1) ->
  forEachFrom k f (l1 ++ l2) s = forEachFrom (k + length l1) f l2 s1.
Proof.
  revert k s. induction l1 as [|x r IH]; intros k s H; simpl in *.
  - injection H as <-. rewrite Nat.add_0_r. reflexivity.
  - unfold bind in *. destruct (f k x s) as [[[]|e] s']; [|discriminate].
    rewrite (IH (S k) s' H). f_equal. lia.
Qed.

Section Interruption.
Variable initializeAi : jsstring -> option GoogleGenAI.
Variable decodeAudio : jsstring -> option AudioBuffer.

Lemma playPart_outside_playback (now : N) (part : Part) :
  preserves outside_playback (playPart decodeAudio now part).
Proof.
  intros s. unfold exec. rewrite playPart_eq.
  repeat case_match; reflexivity.
Qed.

Lemma playPart_tracks_new (now : N) (part : Part) :
  steps tracks_new (playPart decodeAudio now part).
Proof.
  intros s. unfold exec. rewrite playPart_eq.
  destruct (payload part) as [d|]; [|reflexivity].
  destruct (outputAudioContextRef s) as [c|]; [|reflexivity].
  destruct (contexts s !! c) as [o|]; [|reflexivity].
  simpl. destruct (decodeAudio d) as [b|]; simpl.
  - repeat split; simpl.
    + intros id Hid. unfold Set_add. case_decide; [exact Hid|].
      apply elem_of_app. left. exact Hid.
    + rewrite length_app. simpl. intros id Hid.
      assert (id = length (sources s)) as -> by lia.
      unfold Set_add. case_decide; [assumption|].
      apply elem_of_app. right. apply list_elem_of_singleton. reflexivity.
    + rewrite length_app. lia.
  - repeat split; simpl; auto. intros id Hid. lia.
Qed.

(** [onmessage] is its transcript blocks, which never throw, followed
    by its audio loop and its interruption check. *)
Lemma onmessage_split (clock : nat -> N) (m : LiveServerMessage)
      (s : AppState) :
  onmessage decodeAudio clock m s
  = (playParts decodeAudio clock m >> interrupt m)
      (if isTurnComplete m then finalized (heard m s) else heard m s).
Proof.
  pose proof (transcript_blocks_eq m s) as H.
  unfold onmessage, bind in *.
  destruct (transcribeInput m s) as [[[]|e1] s1]; [|discriminate].
  destruct (transcribeOutput m s1) as [[[]|e2] s2]; [|discriminate].
  destruct (completeTurn m s2) as [[[]|e3] s3]; [|discriminate].
  injection H as <-. reflexivity.
Qed.

Lemma heard_outside_conversation (m : LiveServerMessage) (s : AppState) :
  refs_view (if isTurnComplete m then finalized (heard m s) else heard m s)
  = refs_view s /\
  aiRef (if isTurnComplete m then finalized (heard m s) else heard m s)
  = aiRef s /\
  nextStartTimeRef
    (if isTurnComplete m then finalized (heard m s) else heard m s)
  = nextStartTimeRef s /\
  isSessionActive
    (if isTurnComplete m then finalized (heard m s) else heard m s)
  = isSessionActive s.
Proof.
  unfold heard.
  destruct (isTurnComplete m), (serverContent m ?. inputTranscription),
    (serverContent m ?. outputTranscription); repeat split.
Qed.

(** With an output context, parts that all decode are played without
    an exception. *)
Lemma playParts_normal (clock : nat -> N) (ps : list Part) (k : nat)
      (s : AppState) :
  wf s -> outputAudioContextRef s <> None ->
  Forall (decodes decodeAudio) ps ->
  exists s',
    forEachFrom k (fun k part => playPart decodeAudio (clock k) part) ps s
    = (Normal tt, s').
Proof.
  revert k s. induction ps as [|p r IH]; intros k s W Ho H.
  - exists s. reflexivity.
  - inversion H as [|? ? Hp Hr]; subst. simpl. unfold bind.
    pose proof (playPart_wf decodeAudio (clock k) p s W) as W1.
    pose proof (playPart_outside_playback (clock k) p s) as F1.
    unfold exec in W1, F1.
    assert (Hn : exists s1,
               playPart decodeAudio (clock k) p s = (Normal tt, s1)).
    { rewrite playPart_eq. unfold decodes in Hp.
      destruct (payload p) as [d|]; [|eauto].
      destruct (outputAudioContextRef s) as [c|] eqn:Ec; [|congruence].
      destruct (wf_output s W c Ec) as (o & Hl & _). rewrite Hl.
      destruct (decodeAudio d); [eauto | congruence]. }
    destruct Hn as [s1 E1]. rewrite E1 in *. simpl in *.
    apply (IH (S k) s1 W1); [|exact Hr].
    apply (f_equal outputAudioContextRef) in F1. simpl in F1.
    rewrite F1. exact Ho.
Qed.

Lemma playLoop_outside_playback (clock : nat -> N) (ps : list Part)
      (k : nat) :
  preserves outside_playback
    (forEachFrom k (fun k part => playPart decodeAudio (clock k) part) ps).
Proof.
  apply steps_forEachFrom; [apply _|]. intros j x.
  apply playPart_outside_playback.
Qed.

Lemma playLoop_wf (clock : nat -> N) (ps : list Part) (k : nat) :
  keeps wf
    (forEachFrom k (fun k part => playPart decodeAudio (clock k) part) ps).
Proof.
  apply steps_forEachFrom; [apply _|]. intros j x. apply playPart_wf.
Qed.

Lemma playLoop_tracks_new (clock : nat -> N) (ps : list Part) (k : nat) :
  steps tracks_new
    (forEachFrom k (fun k part => playPart decodeAudio (clock k) part) ps).
Proof.
  apply steps_forEachFrom; [apply _|]. intros j x.
  apply playPart_tracks_new.
Qed.
End Interruption.

Section InterruptionSignal.
Variable initializeAi : jsstring -> option GoogleGenAI.
Variable decodeAudio : jsstring -> option AudioBuffer.

Lemma playParts_eq (clock : nat -> N) (m : LiveServerMessage)
      (s : AppState) :
  playParts decodeAudio clock m s
  = forEachFrom 0 (fun k part => playPart decodeAudio (clock k) part)
      (audioParts m) s.
Proof.
  unfold playParts, audioParts.
  destruct (serverContent m ?. modelTurn ?. parts); reflexivity.
Qed.

(** C3, as amended. On receiving a message with the interruption
    signal in a reachable state, provided every audio fragment the
    same message carries can be decoded: every buffer that was tracked
    when the message arrived is stopped, and so is every buffer
    scheduled from the message itself; the tracked set is empty and
    the cursor is zero; with an output context the handler ends
    without an exception; and the audio fragment scheduled next is
    started at the current time of the output context, not at the
    cursor value from before the interruption. *)
Theorem interruption_flushes_playback
        (clock : nat -> N) (m : LiveServerMessage) (s : AppState) :
  reachable initializeAi decodeAudio s ->
  isInterrupted m = true ->
  Forall (decodes decodeAudio) (audioParts m) ->
  let s' := exec (onmessage decodeAudio clock m) s in
  (forall id, id ∈ audioPlaybackSources s ->
     exists src, sources s' !! id = Some src /\ stopped src = true) /\
  (forall id src, length (sources s) <= id ->
     sources s' !! id = Some src -> stopped src = true) /\
  audioPlaybackSources s' = [] /\
  nextStartTimeRef s' = 0%Q /\
  (outputAudioContextRef s <> None ->
   onmessage decodeAudio clock m s = (Normal tt, s')) /\
  (forall now part d c o b,
     payload part = Some d ->
     outputAudioContextRef s' = Some c ->
     contexts s' !! c = Some o ->
     decodeAudio d = Some b ->
     playPart decodeAudio now part s'
     = (Normal tt, schedule (Z.of_N now # sampleRate o) b s')).
Proof.
  intros Hr Hi Hp. apply reachable_wf in Hr. cbv zeta.
  set (s3 := if isTurnComplete m then finalized (heard m s) else heard m s).
  destruct (heard_outside_conversation m s) as (Ev & Ek & _ & _).
  fold s3 in Ev, Ek.
  assert (W3 : wf s3).
  { revert Hr. apply wf_transport; [exact Ev | rewrite Ek; auto]. }
  assert (Eo : outputAudioContextRef s3 = outputAudioContextRef s)
    by (unfold refs_view in Ev; congruence).
  assert (Et : audioPlaybackSources s3 = audioPlaybackSources s)
    by (unfold refs_view in Ev; congruence).
  assert (Es : sources s3 = sources s)
    by (unfold refs_view in Ev; congruence).
  pose proof (playLoop_wf decodeAudio clock (audioParts m) 0 s3 W3) as W2.
  pose proof (playLoop_tracks_new decodeAudio clock (audioParts m) 0 s3)
    as (T1 & T2 & T3).
  pose proof (playLoop_outside_playback decodeAudio clock (audioParts m) 0 s3)
    as F2.
  apply (f_equal outputAudioContextRef) in F2. simpl in F2.
  assert (E : onmessage decodeAudio clock m s
              = (playParts decodeAudio clock m >> flushPlayback) s3).
  { rewrite onmessage_split. fold s3. unfold interrupt.
    unfold isInterrupted in Hi. rewrite Hi. reflexivity. }
  unfold bind in E. rewrite playParts_eq in E. unfold exec in *.
  rewrite E.
  destruct (forEachFrom 0
              (fun k part => playPart decodeAudio (clock k) part)
              (audioParts m) s3) as [[[]|e] s2] eqn:E2; simpl in *.
  - (* the audio loop ended: the interruption block runs *)
    pose proof (wf_tracked s2 W2) as Ht.
    rewrite (flushPlayback_eq s2 Ht). cbn [snd].
    set (s' := set_nextStartTimeRef 0%Q _).
    repeat apply conj; try reflexivity.
    + intros id Hid. rewrite <- Et in Hid. apply T1 in Hid.
      rewrite Forall_forall in Ht.
      destruct (Ht id (proj1 (list_elem_of_In _ _) Hid))
        as (src & t & Hl & _).
      exists (mark_stopped src). subst s'. simpl.
      rewrite stop_all_lookup, Hl.
      rewrite decide_True by exact Hid. split; reflexivity.
    + intros id src Hge Hl. subst s'. simpl in Hl.
      rewrite stop_all_lookup in Hl.
      destruct (sources s2 !! id) as [src0|] eqn:E0; [|discriminate].
      assert (Hin : id ∈ audioPlaybackSources s2).
      { apply T2. rewrite Es. split; [exact Hge|].
        eapply lookup_lt_Some, E0. }
      rewrite decide_True in Hl by exact Hin.
      injection Hl as <-. reflexivity.
    + intros now part d c o b Hd Hc Ho Hb.
      rewrite playPart_eq, Hd, Hc, Ho, Hb. cbv zeta.
      change (nextStartTimeRef s') with 0%Q.
      rewrite Math_max_zero. reflexivity.
  - (* the audio loop threw: there is no output context *)
    assert (Hno : outputAudioContextRef s = None).
    { destruct (outputAudioContextRef s) as [c|] eqn:Ec; [|reflexivity].
      destruct (playParts_normal decodeAudio clock (audioParts m) 0 s3 W3)
        as [x Hx]; [congruence | exact Hp | congruence]. }
    destruct (wf_noOutput s2 W2) as [Htr Hcur]; [congruence|].
    repeat apply conj; auto.
    + intros id Hid. rewrite <- Et in Hid. apply T1 in Hid.
      rewrite Htr in Hid. inversion Hid.
    + intros id src Hge Hl.
      assert (Hin : id ∈ audioPlaybackSources s2).
      { apply T2. rewrite Es. split; [exact Hge|].
        eapply lookup_lt_Some, Hl. }
      rewrite Htr in Hin. inversion Hin.
    + congruence.
    + intros now part d c o b Hd Hc Ho Hb.
      rewrite playPart_eq, Hd, Hc, Ho, Hb. cbv zeta.
      rewrite Hcur, Math_max_zero. reflexivity.
Qed.
End InterruptionSignal.
Example connectedSession_reachable :
  reachable sampleInitializeAi sampleDecodeAudio connectedSession.
Proof. apply reachable_run, reachable_init. Qed.

Example speakingSession_reachable :
  reachable sampleInitializeAi sampleDecodeAudio speakingSession.
Proof. apply reachable_run, connectedSession_reachable. Qed.

Example threePlaying_reachable :
  reachable sampleInitializeAi sampleDecodeAudio threePlaying.
Proof. apply reachable_run, connectedSession_reachable. Qed.

(** The scenario of the specification: three audio fragments are
    scheduled, then the interruption signal arrives before any of them
    ends. *)
Lemma interruption_flushes_playback_witness :
  let s' := exec (onmessage sampleDecodeAudio (clockAt 60000)
                    interruptionSignal) threePlaying in
  audioPlaybackSources s' = [] /\ nextStartTimeRef s' = 0%Q.
Proof.
  destruct (interruption_flushes_playback
              sampleInitializeAi sampleDecodeAudio
              (clockAt 60000) interruptionSignal threePlaying)
    as (_ & _ & Et & Ec & _).
  - exact threePlaying_reachable.
  - reflexivity.
  - constructor.
  - split; [exact Et | exact Ec].
Defined.

Example interruption_scenario :
  let s' := exec (onmessage sampleDecodeAudio (clockAt 60000)
                    interruptionSignal) threePlaying in
  audioPlaybackSources threePlaying = [0; 1; 2] /\
  map stopped (sources threePlaying) = [false; false; false] /\
  map stopped (sources s') = [true; true; true] /\
  audioPlaybackSources s' = [] /\
  nextStartTimeRef s' = 0%Q.
Proof. vm_compute. repeat split. Qed.

(** C3 as stated fails: an interruption signal that comes in one message
    with an audio fragment that cannot be decoded is never acted on.
    The two scheduled buffers stay tracked and keep playing, and the
    cursor is not reset. *)
Lemma interruption_skipped_counterexample :
  let m := audioMessage [audioPart "!"] (Some true) in
  let s' := exec (onmessage sampleDecodeAudio (clockAt 60000) m)
                 speakingSession in
  isInterrupted m = true /\
  audioPlaybackSources speakingSession = [0; 1] /\
  audioPlaybackSources s' = [0; 1] /\
  map stopped (sources s') = [false; false] /\
  ~ (nextStartTimeRef s' == 0)%Q.
Proof.
  vm_compute. repeat split; intros H; discriminate H.
Qed.

(** ** Frame properties *)

(** C8. [stopSession] does not modify the conversation: whatever the
    state, and whether the teardown throws or not, the transcript log,
    the two accumulators and the two live-display values are afterwards
    what they were before the call. *)
Theorem stopSession_keeps_conversation (s : AppState) :
  let s' := exec stopSession s in
  messages s' = messages s /\
  currentUserTranscriptionRef s' = currentUserTranscriptionRef s /\
  currentTutorTranscriptionRef s' = currentTutorTranscriptionRef s /\
  displayUserTranscription s' = displayUserTranscription s /\
  displayTutorTranscription s' = displayTutorTranscription s.
Proof.
  pose proof (stopSession_conversation s) as H.
  unfold same, conversation in H. injection H as H1 H2 H3 H4 H5. auto.
Qed.

Section InterruptionFrame.
Variable decodeAudio : jsstring -> option AudioBuffer.

(** C10. The interruption block of [onmessage] changes playback state
    only: after it, whatever the state and whether a [stop()] throws
    or not, the state differs from the one before in the tracked set,
    the cursor and the source nodes at most; in particular the
    transcript log, the two accumulators, the session handle and the
    session-active flag are unchanged.  A message that holds the
    interruption signal and nothing else runs exactly this block. *)
Theorem interruption_changes_playback_only (s : AppState) :
  let s' := exec flushPlayback s in
  outside_playback s' = outside_playback s /\
  messages s' = messages s /\
  currentUserTranscriptionRef s' = currentUserTranscriptionRef s /\
  currentTutorTranscriptionRef s' = currentTutorTranscriptionRef s /\
  sessionPromiseRef s' = sessionPromiseRef s /\
  isSessionActive s' = isSessionActive s /\
  (forall clock,
     onmessage decodeAudio clock interruptionSignal s = flushPlayback s).
Proof.
  pose proof (flushPlayback_outside_playback s) as H.
  unfold same in H. cbv zeta. repeat apply conj.
  - exact H.
  - apply (f_equal messages) in H. exact H.
  - apply (f_equal currentUserTranscriptionRef) in H. exact H.
  - apply (f_equal currentTutorTranscriptionRef) in H. exact H.
  - apply (f_equal sessionPromiseRef) in H. exact H.
  - apply (f_equal isSessionActive) in H. exact H.
  - intros clock. reflexivity.
Qed.
End InterruptionFrame.

(** ** The session lifecycle *)

Lemma tryOpenSession_conversation (o : StartOutcome) :
  preserves conversation (tryOpenSession o).
Proof. unfold tryOpenSession, openSession. frame. Qed.

Section Lifecycle.
Variable initializeAi : jsstring -> option GoogleGenAI.
Variable decodeAudio : jsstring -> option AudioBuffer.

(** C6. A start request in a reachable state without a client
    ([aiRef] is null) is rejected by [handleNewSession] before
    anything is opened: the handler ends without an exception, the
    status message asks for the API key and is not the connecting one,
    the API-key modal is open, and there is still no session promise,
    no audio context and no session at all. *)
Theorem start_without_credential_is_rejected
        (o : StartOutcome) (s : AppState) :
  reachable initializeAi decodeAudio s ->
  aiRef s = None ->
  exists s',
    handleNewSession o s = (Normal tt, s') /\
    statusMessage s'
    = str "API Key not set. Please set it in the settings." /\
    statusMessage s' <> str "Connecting to tutor..." /\
    isApiKeyModalOpen s' = true /\
    sessionPromiseRef s' = None /\
    inputAudioContextRef s' = None /\
    outputAudioContextRef s' = None /\
    contexts s' = [] /\
    sessions s' = [].
Proof.
  intros Hr Hk. apply reachable_wf in Hr.
  assert (W' : wf (afterOptionalStop s)).
  { unfold afterOptionalStop. destruct (isSessionActive s); [|exact Hr].
    apply wf_teardown, Hr. }
  assert (Hk' : aiRef (afterOptionalStop s) = None).
  { unfold afterOptionalStop. destruct (isSessionActive s); exact Hk. }
  destruct (wf_noKey _ W' Hk') as (Hp & Hc & Hs).
  eexists. split; [rewrite handleNewSession_eq by exact Hr; rewrite Hk;
                   reflexivity|].
  simpl. repeat apply conj; auto.
  - destruct (inputAudioContextRef (afterOptionalStop s)) as [c|] eqn:E;
      [|reflexivity].
    destruct (wf_input _ W' c E) as (x & Hx & _).
    rewrite Hc in Hx. discriminate.
  - destruct (outputAudioContextRef (afterOptionalStop s)) as [c|] eqn:E;
      [|reflexivity].
    destruct (wf_output _ W' c E) as (x & Hx & _).
    rewrite Hc in Hx. discriminate.
Qed.

(** C9. A start request in a reachable state with a client present
    resets the conversation before it connects: [handleNewSession]
    enters its [try], where the audio contexts and the connection are
    opened, in a state whose transcript log is empty and whose two
    accumulators and two live-display values are the empty string;
    and they are still so when the handler ends, whether the
    connection was opened or not. *)
Theorem new_session_resets_conversation (o : StartOutcome) (s : AppState) :
  reachable initializeAi decodeAudio s ->
  aiRef s <> None ->
  exists s0,
    handleNewSession o s = tryOpenSession o s0 /\
    conversation s0 = ([], [], [], [], []) /\
    let s' := exec (handleNewSession o) s in
    messages s' = [] /\
    currentUserTranscriptionRef s' = [] /\
    currentTutorTranscriptionRef s' = [] /\
    displayUserTranscription s' = [] /\
    displayTutorTranscription s' = [].
Proof.
  intros Hr Hk. apply reachable_wf in Hr.
  exists (resetConversation (afterOptionalStop s)).
  assert (E : handleNewSession o s
              = tryOpenSession o (resetConversation (afterOptionalStop s))).
  { rewrite handleNewSession_eq by exact Hr.
    destruct (aiRef s); [reflexivity | congruence]. }
  split; [exact E|]. split; [reflexivity|].
  pose proof (tryOpenSession_conversation o
                (resetConversation (afterOptionalStop s))) as H.
  unfold same, exec in *. rewrite E. cbv zeta.
  unfold conversation in H. simpl in H. injection H as H1 H2 H3 H4 H5.
  auto.
Qed.
End Lifecycle.

(** ** A fragment that cannot be decoded *)

Section DecodeFailure.
Variable initializeAi : jsstring -> option GoogleGenAI.
Variable decodeAudio : jsstring -> option AudioBuffer.

(** Without an output context the audio loop changes nothing, and
    throws as soon as it meets a payload. *)
Lemma playLoop_no_output (clock : nat -> N) (ps : list Part) (k : nat)
      (s : AppState) :
  outputAudioContextRef s = None ->
  exists r,
    forEachFrom k (fun k part => playPart decodeAudio (clock k) part) ps s
    = (r, s) /\
    ((exists p, p ∈ ps /\ payload p <> None) -> exists e, r = Throw e).
Proof.
  intros Ho. revert k. induction ps as [|p ps IH]; intros k.
  - exists (Normal tt). split; [reflexivity|].
    intros (p & Hp & _). inversion Hp.
  - simpl. unfold bind. rewrite playPart_eq, Ho.
    destruct (payload p) as [d|] eqn:Ep.
    + exists (Throw TypeError). split; [reflexivity | eauto].
    + destruct (IH (S k)) as (r & Er & Hr). exists r. split; [exact Er|].
      intros (q & Hq & Hpq). apply Hr. exists q. split; [|exact Hpq].
      apply elem_of_cons in Hq as [->|Hq]; [congruence | exact Hq].
Qed.

(** C5, as amended. In a reachable state, when a message holds an
    audio fragment that cannot be decoded after parts that all decode,
    the handler throws at that fragment, or before it when there is no
    output context to play on.  What it leaves behind is the state
    after the same message cut before the failed fragment and without
    interruption signal, but for the cursor, which with an output
    context has moved up to the current time of the context if it was
    behind.  So the failed fragment creates and tracks no source node,
    the transcript fragments, the turn-complete signal and the earlier
    parts of the message have been handled, the later parts and the
    interruption signal of the message are not, the session is not
    stopped (active flag, session promise, contexts and output context
    are untouched), and the events that follow are handled from that
    state on. *)
Theorem undecodable_fragment_aborts_the_handler
        (clock : nat -> N) (trIn trOut : option Transcription)
        (tc i : option bool) (pre post : list Part) (bad : Part)
        (d : jsstring) (s : AppState) :
  reachable initializeAi decodeAudio s ->
  Forall (decodes decodeAudio) pre ->
  payload bad = Some d ->
  decodeAudio d = None ->
  let m := mkServerMessage
             (Some (mkServerContent trIn trOut tc
                      (Some (mkContent (Some (pre ++ bad :: post)))) i)) in
  let m0 := mkServerMessage
              (Some (mkServerContent trIn trOut tc
                       (Some (mkContent (Some pre))) None)) in
  let s' := exec (onmessage decodeAudio clock m) s in
  let s2 := exec (onmessage decodeAudio clock m0) s in
  (exists e, onmessage decodeAudio clock m s = (Throw e, s')) /\
  s' = set_nextStartTimeRef (nextStartTimeRef s') s2 /\
  (nextStartTimeRef s2 <= nextStartTimeRef s')%Q /\
  (forall c o,
     outputAudioContextRef s = Some c -> contexts s !! c = Some o ->
     onmessage decodeAudio clock m0 s = (Normal tt, s2) /\
     onmessage decodeAudio clock m s = (Throw DecodeError, s') /\
     nextStartTimeRef s'
     = Math_max (nextStartTimeRef s2)
                (Z.of_N (clock (length pre)) # sampleRate o)) /\
  (outputAudioContextRef s = None -> s' = s2) /\
  isSessionActive s' = isSessionActive s /\
  sessionPromiseRef s' = sessionPromiseRef s /\
  outputAudioContextRef s' = outputAudioContextRef s /\
  contexts s' = contexts s /\
  (forall evs,
     run initializeAi decodeAudio (EvMessage clock m :: evs) s
     = run initializeAi decodeAudio evs s').
Proof.
  intros Hr Hpre Hd Hdec m m0. apply reachable_wf in Hr.
  set (s3 := if isTurnComplete m0 then finalized (heard m0 s)
             else heard m0 s).
  destruct (heard_outside_conversation m0 s) as (Ev & Ek & _ & Ea).
  fold s3 in Ev, Ek, Ea.
  assert (W3 : wf s3).
  { revert Hr. apply wf_transport; [exact Ev | rewrite Ek; auto]. }
  assert (Eo3 : outputAudioContextRef s3 = outputAudioContextRef s)
    by (unfold refs_view in Ev; congruence).
  assert (Ec3 : contexts s3 = contexts s)
    by (unfold refs_view in Ev; congruence).
  assert (Ep3 : sessionPromiseRef s3 = sessionPromiseRef s)
    by (unfold refs_view in Ev; congruence).
  assert (Em0 : onmessage decodeAudio clock m0 s
                = (forEachFrom 0
                     (fun k part => playPart decodeAudio (clock k) part) pre
                   >> ret tt) s3).
  { rewrite onmessage_split. reflexivity. }
  assert (Em : onmessage decodeAudio clock m s
               = (forEachFrom 0
                    (fun k part => playPart decodeAudio (clock k) part)
                    (pre ++ bad :: post)
                  >> interrupt m) s3).
  { rewrite onmessage_split. reflexivity. }
  assert (Hrun : forall evs,
             run initializeAi decodeAudio (EvMessage clock m :: evs) s
             = run initializeAi decodeAudio evs
                 (exec (onmessage decodeAudio clock m) s))
    by reflexivity.
  cbv zeta. unfold exec in *.
  destruct (outputAudioContextRef s) as [c|] eqn:Eo.
  - (* an output context: the decoder is reached and fails *)
    destruct (playParts_normal decodeAudio clock pre 0 s3 W3) as [s2 E2];
      [congruence | exact Hpre |].
    pose proof (playLoop_wf decodeAudio clock pre 0 s3 W3) as W2.
    pose proof (playLoop_outside_playback decodeAudio clock pre 0 s3) as F2.
    unfold exec, same in W2, F2. rewrite E2 in W2, F2. simpl in W2, F2.
    assert (Eo2 : outputAudioContextRef s2 = Some c).
    { rewrite <- Eo3. apply (f_equal outputAudioContextRef) in F2.
      exact F2. }
    assert (Ec2 : contexts s2 = contexts s).
    { rewrite <- Ec3. apply (f_equal contexts) in F2. exact F2. }
    assert (Ep2 : sessionPromiseRef s2 = sessionPromiseRef s).
    { rewrite <- Ep3. apply (f_equal sessionPromiseRef) in F2. exact F2. }
    assert (Ea2 : isSessionActive s2 = isSessionActive s).
    { rewrite <- Ea. apply (f_equal isSessionActive) in F2. exact F2. }
    destruct (wf_output s2 W2 c Eo2) as (o & Hl & _).
    assert (E0 : onmessage decodeAudio clock m0 s = (Normal tt, s2)).
    { rewrite Em0. unfold bind. rewrite E2. reflexivity. }
    assert (E : onmessage decodeAudio clock m s
                = (Throw DecodeError,
                   set_nextStartTimeRef
                     (Math_max (nextStartTimeRef s2)
                        (Z.of_N (clock (length pre)) # sampleRate o)) s2)).
    { rewrite Em. unfold bind at 1.
      rewrite (forEachFrom_app _ pre (bad :: post) 0 s3 s2 E2). simpl.
      unfold bind at 1. rewrite playPart_eq, Hd, Eo2, Hl, Hdec.
      reflexivity. }
    rewrite E, E0. cbn [snd].
    repeat apply conj; auto.
    + eauto.
    + apply Math_max_l.
    + intros c' o' [= <-] Ho'. rewrite <- Ec2, Hl in Ho'.
      injection Ho' as <-. auto.
    + discriminate.
    + intros evs. rewrite Hrun, E. reflexivity.
  - (* no output context: the loop throws at the first payload *)
    assert (Eo3' : outputAudioContextRef s3 = None) by congruence.
    destruct (playLoop_no_output clock (pre ++ bad :: post) 0 s3 Eo3')
      as (r & Er & Hthrow).
    destruct (playLoop_no_output clock pre 0 s3 Eo3')
      as (r0 & Er0 & _).
    destruct Hthrow as [e ->].
    { exists bad. split; [|congruence].
      apply elem_of_app. right. apply elem_of_cons. auto. }
    assert (E : onmessage decodeAudio clock m s = (Throw e, s3)).
    { rewrite Em. unfold bind. rewrite Er. reflexivity. }
    assert (E0 : snd (onmessage decodeAudio clock m0 s) = s3).
    { rewrite Em0. unfold bind. rewrite Er0. destruct r0; reflexivity. }
    rewrite E, E0. cbn [snd].
    repeat apply conj; auto.
    + eauto.
    + destruct s3; reflexivity.
    + apply Qle_refl.
    + intros ? ? [=].
    + intros evs. rewrite Hrun, E. reflexivity.
Qed.
End DecodeFailure.

(** ** The claims on the sample session *)

(** A message holding a fragment that plays, one that cannot be decoded
    and a third one, with the interruption signal: the handler throws at
    the second. *)
Lemma undecodable_fragment_aborts_the_handler_witness :
  exists e s',
    onmessage sampleDecodeAudio (clockAt 48000)
      (mkServerMessage
         (Some (mkServerContent None None None
                  (Some (mkContent
                           (Some ([audioPart "AAAA"]
                                  ++ audioPart "!" :: [audioPart "BBBB"]))))
                  (Some true))))
      connectedSession
    = (Throw e, s').
Proof.
  destruct (undecodable_fragment_aborts_the_handler
              sampleInitializeAi sampleDecodeAudio (clockAt 48000)
              None None None (Some true)
              [audioPart "AAAA"] [audioPart "BBBB"] (audioPart "!")
              (str "!") connectedSession)
    as ((e & E) & _).
  - exact connectedSession_reachable.
  - constructor; [|constructor]. vm_compute. discriminate.
  - reflexivity.
  - reflexivity.
  - eexists _, _. exact E.
Defined.

Example undecodable_fragment_scenario :
  let m := mkServerMessage
             (Some (mkServerContent None None None
                      (Some (mkContent
                               (Some [audioPart "AAAA"; audioPart "!";
                                      audioPart "BBBB"])))
                      (Some true))) in
  let r := onmessage sampleDecodeAudio (clockAt 48000) m connectedSession in
  fst r = Throw DecodeError /\
  audioPlaybackSources (snd r) = [0] /\
  map stopped (sources (snd r)) = [false] /\
  Qred (nextStartTimeRef (snd r)) = 3%Q /\
  isSessionActive (snd r) = true.
Proof. vm_compute. repeat split. Qed.

(** C5 as stated fails: the fragment that cannot be decoded is not the
    only thing dropped, and the cursor is not left alone.  With the
    cursor at zero and the clock at second 2, a message holding an
    undecodable fragment followed by a decodable one moves the cursor to
    second 2 and schedules nothing, although the second fragment alone
    would have been scheduled. *)
Lemma undecodable_fragment_counterexample :
  let m := audioMessage [audioPart "!"; audioPart "AAAA"] None in
  let s' := exec (onmessage sampleDecodeAudio (clockAt 48000) m)
                 connectedSession in
  sampleDecodeAudio (str "!") = None /\
  sampleDecodeAudio (str "AAAA") <> None /\
  nextStartTimeRef connectedSession = 0%Q /\
  ~ (nextStartTimeRef s' == nextStartTimeRef connectedSession)%Q /\
  sources s' = [] /\
  sources (exec (onmessage sampleDecodeAudio (clockAt 48000)
                   (audioMessage [audioPart "AAAA"] None))
                connectedSession) <> [].
Proof.
  vm_compute. repeat split; try discriminate; intros H; discriminate H.
Qed.

Lemma start_without_credential_is_rejected_witness :
  exists s',
    handleNewSession Started (init None) = (Normal tt, s') /\
    isApiKeyModalOpen s' = true /\
    contexts s' = [] /\
    sessions s' = [].
Proof.
  destruct (start_without_credential_is_rejected
              sampleInitializeAi sampleDecodeAudio Started (init None))
    as (s' & E & _ & _ & Hm & _ & _ & _ & Hc & Hs).
  - apply reachable_init.
  - reflexivity.
  - exists s'. auto.
Defined.

Example speakingSession_has_client : aiRef speakingSession <> None.
Proof. vm_compute. discriminate. Qed.

(** A start request in the middle of the second turn of a session: the
    log holds the two messages of the first turn and both accumulators
    hold text, and the start request empties them all. *)
Lemma new_session_resets_conversation_witness :
  conversation talkingSession
  = ([mkMessage user (str "I go to school"); mkMessage ai (str "Well done.")],
     str "And then", str "Go on", str "And then", str "Go on") /\
  conversation (exec (handleNewSession Started) talkingSession)
  = ([], [], [], [], []).
Proof.
  split; [vm_compute; reflexivity|].
  destruct (new_session_resets_conversation
              sampleInitializeAi sampleDecodeAudio Started talkingSession)
    as (s0 & _ & _ & H1 & H2 & H3 & H4 & H5).
  - apply reachable_run, connectedSession_reachable.
  - vm_compute. discriminate.
  - unfold conversation. rewrite H1, H2, H3, H4, H5. reflexivity.
Defined.

(** ** [String.prototype.trim] *)

Lemma trimStart_head (s : jsstring) (c : N) (r : jsstring) :
  trimStart s = c :: r -> isWhiteSpace c = false.
Proof.
  induction s as [|x l IH]; simpl; [discriminate|].
  destruct (isWhiteSpace x) eqn:E; [exact IH|].
  intros [= <- _]. exact E.
Qed.

Lemma trimStart_suffix (s : jsstring) : exists k, s = k ++ trimStart s.
Proof.
  induction s as [|x l [k IH]]; simpl; [exists []; reflexivity|].
  destruct (isWhiteSpace x).
  - exists (x :: k). simpl. rewrite <- IH. reflexivity.
  - exists []. reflexivity.
Qed.

Lemma trimStart_blank (s : jsstring) : trimStart s = [] <-> blank s.
Proof.
  unfold blank. induction s as [|x l IH]; simpl.
  - split; [constructor | reflexivity].
  - destruct (isWhiteSpace x) eqn:E.
    + rewrite IH. split; [constructor; auto | inversion 1; auto].
    + split; [discriminate | inversion 1; congruence].
Qed.

Lemma trimStart_fixed (s : jsstring) :
  (forall c r, s = c :: r -> isWhiteSpace c = false) -> trimStart s = s.
Proof.
  destruct s as [|x l]; simpl; [reflexivity|].
  intros H. rewrite (H x l eq_refl). reflexivity.
Qed.

Lemma blank_rev (s : jsstring) : blank (rev s) <-> blank s.
Proof.
  unfold blank. rewrite !List.Forall_forall.
  split; intros H c Hc; apply H.
  - apply in_rev. rewrite rev_involutive. exact Hc.
  - apply in_rev, Hc.
Qed.

(** [trim] gives the empty text on white space only, and on nothing
    else. *)
Lemma trim_blank (s : jsstring) : trim s = [] <-> blank s.
Proof.
  unfold trim, trimEnd. split.
  - intros H. apply (f_equal (@rev N)) in H. rewrite rev_involutive in H.
    simpl in H. apply (proj1 (trimStart_blank _)) in H.
    apply (proj1 (blank_rev _)) in H.
    destruct (trimStart s) as [|c r] eqn:E; [apply trimStart_blank, E|].
    apply trimStart_head in E. unfold blank in H.
    apply Forall_cons_1 in H. destruct H as [Hc _]. congruence.
  - intros H. apply trimStart_blank in H. rewrite H. reflexivity.
Qed.

(** The result of [trim] neither begins nor ends with white space. *)
Lemma trim_trimmed (s : jsstring) : trimmed (trim s).
Proof.
  unfold trim, trimEnd. split; intros c r Hc.
  - destruct (trimStart_suffix (rev (trimStart s))) as [k Hk].
    apply (f_equal (@rev N)) in Hc. rewrite rev_involutive in Hc.
    simpl in Hc. rewrite Hc in Hk.
    apply (f_equal (@rev N)) in Hk. rewrite rev_involutive in Hk.
    rewrite app_assoc, rev_app_distr in Hk. simpl in Hk.
    apply (trimStart_head _ _ _ Hk).
  - apply (f_equal (@rev N)) in Hc. rewrite rev_involutive in Hc.
    rewrite rev_app_distr in Hc. simpl in Hc.
    apply (trimStart_head _ _ _ Hc).
Qed.

(** [trim] leaves a trimmed text alone. *)
Lemma trim_fixed (s : jsstring) : trimmed s -> trim s = s.
Proof.
  intros [H1 H2]. unfold trim, trimEnd.
  rewrite (trimStart_fixed s H1).
  rewrite trimStart_fixed; [apply rev_involutive|].
  intros c r Hc. apply (H2 c (rev r)).
  apply (f_equal (@rev N)) in Hc. rewrite rev_involutive in Hc.
  exact Hc.
Qed.

(** ** The credential *)

Ltac unfold_handlers :=
  unfold handler, mountEffect, handleSaveApiKey, handleMicButtonClick,
    handleNewSession, tryOpenSession, openSession, onopen_begin,
    onopen_resume, startCapture, onerror, onclose, onended, onmessage,
    transcribeInput, transcribeOutput, completeTurn, finalizeTurn, playParts,
    playPart, interrupt, flushPlayback, stopSession, stopMicrophone,
    disconnectProcessor, disconnectMicSource, closeInputContext, closeSession,
    stopPlayback, closeOutputContext.

Section Credential.
Variable initializeAi : jsstring -> option GoogleGenAI.
Variable decodeAudio : jsstring -> option AudioBuffer.

(** Only the mount effect and [handleSaveApiKey] touch the flag or the
    client. *)
Lemma handler_credential (ev : Event) :
  sets_key ev = false ->
  preserves credential (handler initializeAi decodeAudio ev).
Proof.
  destruct ev; try discriminate; intros _; unfold_handlers; frame.
Qed.

Lemma handler_credential_agrees (ev : Event) :
  keeps credential_agrees (handler initializeAi decodeAudio ev).
Proof.
  destruct (sets_key ev) eqn:E.
  - destruct ev; try discriminate; intros s H;
      unfold exec, handler, mountEffect, handleSaveApiKey, bind, get.
    + destruct (localStorage s) as [k|]; [|exact H].
      destruct (truthy_string k); [|exact H].
      destruct (initializeAi k); [|exact H].
      split; [discriminate | reflexivity].
    + destruct (truthy_string (trim apiKeyInput)); [|exact H].
      destruct (initializeAi apiKeyInput); [|exact H].
      split; [discriminate | reflexivity].
  - intros s H. pose proof (handler_credential ev E s) as F.
    unfold same, credential in F. injection F as F1 F2.
    unfold credential_agrees. rewrite F1, F2. exact H.
Qed.

Lemma run_credential_agrees (evs : list Event) (s : AppState) :
  credential_agrees s ->
  credential_agrees (run initializeAi decodeAudio evs s).
Proof.
  revert s. induction evs as [|ev r IH]; intros s H; [exact H|].
  simpl. apply IH, handler_credential_agrees, H.
Qed.

Lemma reachable_credential_agrees (s : AppState) :
  reachable initializeAi decodeAudio s -> credential_agrees s.
Proof.
  intros (saved & evs & ->). apply run_credential_agrees.
  split; [discriminate | intros H; exfalso; apply H; reflexivity].
Qed.

(** X1. In every reachable state the credential flag the interface
    reads ([isApiKeySet]) holds exactly when there is a client
    ([aiRef] is not null), so the guard of [handleMicButtonClick] and
    the guard of [handleNewSession] agree; and no event takes a client
    away again. *)
Theorem credential_flag_agrees_with_client (s : AppState) :
  reachable initializeAi decodeAudio s ->
  (isApiKeySet s = true <-> aiRef s <> None) /\
  (forall evs, aiRef s <> None ->
     aiRef (run initializeAi decodeAudio evs s) <> None).
Proof.
  intros Hr. split; [apply reachable_credential_agrees, Hr|].
  clear Hr. intros evs. revert s.
  induction evs as [|ev r IH]; intros s H; [exact H|].
  simpl. apply IH. destruct (sets_key ev) eqn:E.
  - destruct ev; try discriminate;
      unfold step, exec, handler, mountEffect, handleSaveApiKey, bind, get.
    + destruct (localStorage s) as [k|]; [|exact H].
      destruct (truthy_string k); [|exact H].
      destruct (initializeAi k); [discriminate | exact H].
    + destruct (truthy_string (trim apiKeyInput)); [|exact H].
      destruct (initializeAi apiKeyInput); [discriminate | exact H].
  - pose proof (handler_credential ev E s) as F.
    unfold same, credential in F. injection F as _ F2.
    unfold step. rewrite F2. exact H.
Qed.

(** X2. [handleMicButtonClick] in closed form, in every reachable
    state: without the credential flag the click only opens the API-key
    modal; with an active session it is the teardown; otherwise it is a
    start request that passes the credential check of
    [handleNewSession], resets the conversation and enters the [try]
    block.  The click never throws. *)
Theorem mic_button_toggles_the_session (o : StartOutcome) (s : AppState) :
  reachable initializeAi decodeAudio s ->
  handleMicButtonClick o s
  = (Normal tt,
     if negb (isApiKeySet s) then set_isApiKeyModalOpen true s
     else if isSessionActive s then teardown s
     else exec (tryOpenSession o) (resetConversation s)).
Proof.
  intros Hr. pose proof (reachable_credential_agrees s Hr) as Hk.
  apply reachable_wf in Hr.
  unfold handleMicButtonClick, bind, get.
  destruct (isApiKeySet s) eqn:Ek; simpl; [|reflexivity].
  destruct (isSessionActive s) eqn:Ea.
  - apply stopSession_teardown, Hr.
  - unfold detach. rewrite handleNewSession_eq by exact Hr.
    unfold afterOptionalStop. rewrite Ea.
    destruct (aiRef s) eqn:E; [reflexivity|].
    destruct (proj1 Hk Ek E).
Qed.
End Credential.

(** A click on the microphone button during the connected session is
    the teardown. *)
Lemma mic_button_toggles_the_session_witness :
  handleMicButtonClick Started connectedSession
  = (Normal tt, teardown connectedSession).
Proof.
  pose proof (mic_button_toggles_the_session
                sampleInitializeAi sampleDecodeAudio Started connectedSession
                connectedSession_reachable) as H.
  assert (Ek : isApiKeySet connectedSession = true)
    by (vm_compute; reflexivity).
  assert (Ea : isSessionActive connectedSession = true)
    by (vm_compute; reflexivity).
  rewrite Ek, Ea in H. exact H.
Defined.

Lemma credential_flag_agrees_with_client_witness :
  (isApiKeySet connectedSession = true <-> aiRef connectedSession <> None) /\
  (forall evs, aiRef connectedSession <> None ->
     aiRef (run sampleInitializeAi sampleDecodeAudio evs connectedSession)
     <> None).
Proof.
  apply (credential_flag_agrees_with_client
           sampleInitializeAi sampleDecodeAudio connectedSession).
  exact connectedSession_reachable.
Defined.

(** ** Saving and loading the key *)

Section KeyStorage.
Variable initializeAi : jsstring -> option GoogleGenAI.

Lemma truthy_trim (k : jsstring) : truthy_string (trim k) = false <-> blank k.
Proof.
  rewrite <- trim_blank. destruct (trim k); simpl; split; congruence.
Qed.

(** X3. [handleSaveApiKey] on a key that consists of white space only
    (the empty key included), or that [initializeAi] refuses, ends
    without an exception and changes nothing in the state (it only
    shows an alert): no client is set, nothing is stored, the modal
    stays as it is. *)
Theorem blank_or_refused_key_is_not_saved (k : jsstring) (s : AppState) :
  blank k \/ initializeAi k = None ->
  handleSaveApiKey initializeAi k s = (Normal tt, s).
Proof.
  unfold handleSaveApiKey. intros [H|H].
  - apply truthy_trim in H. rewrite H. reflexivity.
  - rewrite H. destruct (truthy_string (trim k)); reflexivity.
Qed.

(** X4. Saving and loading a key round-trip.  A key with a character
    that is not white space and which [initializeAi] accepts is stored
    by [handleSaveApiKey] as typed (not trimmed), with the client set,
    the flag raised and the modal closed; and the mount effect of a
    component started afresh on that storage loads the same client
    again without opening the modal. *)
Theorem saved_key_is_loaded_at_next_mount
        (k : jsstring) (client : GoogleGenAI) (s : AppState) :
  ~ blank k ->
  initializeAi k = Some client ->
  let s1 := exec (handleSaveApiKey initializeAi k) s in
  let s2 := exec (mountEffect initializeAi) (init (localStorage s1)) in
  (localStorage s1 = Some k /\ aiRef s1 = Some client /\
   isApiKeySet s1 = true /\ isApiKeyModalOpen s1 = false) /\
  (localStorage s2 = Some k /\ aiRef s2 = Some client /\
   isApiKeySet s2 = true /\ isApiKeyModalOpen s2 = false).
Proof.
  intros Hb Hk.
  assert (Ht : truthy_string (trim k) = true).
  { destruct (truthy_string (trim k)) eqn:E; [reflexivity|].
    apply truthy_trim in E. contradiction. }
  assert (Hn : truthy_string k = true).
  { destruct k; [|reflexivity]. exfalso. apply Hb. constructor. }
  cbv zeta. unfold exec, handleSaveApiKey. rewrite Ht, Hk. simpl.
  unfold mountEffect, bind, get. simpl. rewrite Hn, Hk. simpl.
  repeat split.
Qed.

(** X5. The mount effect on a freshly initialised component never
    throws and ends in one of two ways.  Either the storage holds a
    non-empty key that [initializeAi] accepts: the client is set, the
    flag is raised, the modal stays closed and the storage is kept.  Or
    there is no client and the modal is opened; a stored key that was
    refused has then been removed, so that no refused key survives the
    mount. *)
Theorem mount_loads_the_key_or_asks_for_it (saved : option jsstring) :
  exists s',
    mountEffect initializeAi (init saved) = (Normal tt, s') /\
    ((exists k client,
        saved = Some k /\ k <> [] /\ initializeAi k = Some client /\
        aiRef s' = Some client /\ isApiKeySet s' = true /\
        isApiKeyModalOpen s' = false /\ localStorage s' = saved)
     \/
     (aiRef s' = None /\ isApiKeySet s' = false /\
      isApiKeyModalOpen s' = true /\
      (localStorage s' = saved \/ localStorage s' = None))) /\
    (forall k, localStorage s' = Some k ->
       k = [] \/ initializeAi k <> None).
Proof.
  unfold mountEffect, bind, get. simpl.
  destruct saved as [[|c r]|]; simpl.
  - eexists. split; [reflexivity|]. split.
    + right. simpl. auto.
    + simpl. intros k [= <-]. auto.
  - destruct (initializeAi (c :: r)) as [client|] eqn:E.
    + eexists. split; [reflexivity|]. split.
      * left. exists (c :: r), client. simpl. repeat split; auto.
      * simpl. intros k [= <-]. right. congruence.
    + eexists. split; [reflexivity|]. split.
      * right. simpl. auto.
      * simpl. discriminate.
  - eexists. split; [reflexivity|]. split.
    + right. simpl. auto.
    + simpl. discriminate.
Qed.
End KeyStorage.

Lemma blank_or_refused_key_is_not_saved_witness :
  handleSaveApiKey sampleInitializeAi [32; 9; 160]%N (init None)
  = (Normal tt, init None).
Proof.
  apply (blank_or_refused_key_is_not_saved sampleInitializeAi
           [32; 9; 160]%N (init None)).
  left. repeat constructor.
Defined.

Lemma saved_key_is_loaded_at_next_mount_witness :
  let s1 := exec (handleSaveApiKey sampleInitializeAi (str " key "))
                 (init None) in
  let s2 := exec (mountEffect sampleInitializeAi) (init (localStorage s1)) in
  (localStorage s1 = Some (str " key ") /\
   aiRef s1 = Some (mkAi (str " key ")) /\
   isApiKeySet s1 = true /\ isApiKeyModalOpen s1 = false) /\
  (localStorage s2 = Some (str " key ") /\
   aiRef s2 = Some (mkAi (str " key ")) /\
   isApiKeySet s2 = true /\ isApiKeyModalOpen s2 = false).
Proof.
  apply (saved_key_is_loaded_at_next_mount sampleInitializeAi
           (str " key ") (mkAi (str " key ")) (init None)).
  - intros H. apply trim_blank in H. vm_compute in H. discriminate H.
  - reflexivity.
Defined.

(** ** The conversation between events *)

Lemma tidy_transport (s s' : AppState) :
  conversation s' = conversation s -> tidy s -> tidy s'.
Proof.
  unfold conversation, tidy. intros [= E1 E2 E3 E4 E5].
  rewrite E1, E2, E3, E4, E5. auto.
Qed.

Lemma tidy_empty (s : AppState) :
  conversation s = ([], [], [], [], []) -> tidy s.
Proof.
  unfold conversation, tidy. intros [= E1 E2 E3 E4 E5].
  rewrite E1, E2, E3, E4, E5. repeat split. constructor.
Qed.

Lemma heard_tidy (m : LiveServerMessage) (s : AppState) :
  tidy s -> tidy (heard m s).
Proof.
  unfold tidy, heard. intros (H1 & H2 & H3).
  destruct (serverContent m ?. inputTranscription),
    (serverContent m ?. outputTranscription); simpl; auto.
Qed.

Lemma newMessages_tidy (u t : jsstring) :
  Forall (fun m => content m <> [] /\ trimmed (content m))
    (newMessages (trim u) (trim t)).
Proof.
  unfold newMessages. apply Forall_app. split.
  - destruct (trim u) as [|c r] eqn:E; simpl; constructor; [|constructor].
    simpl. split; [discriminate|]. rewrite <- E. apply trim_trimmed.
  - destruct (trim t) as [|c r] eqn:E; simpl; constructor; [|constructor].
    simpl. split; [discriminate|]. rewrite <- E. apply trim_trimmed.
Qed.

Lemma finalized_tidy (s : AppState) : tidy s -> tidy (finalized s).
Proof.
  unfold tidy, finalized. intros (H1 & H2 & H3). simpl.
  repeat split. apply Forall_app. split; [exact H3|].
  apply newMessages_tidy.
Qed.

Lemma afterOptionalStop_conversation (s : AppState) :
  conversation (afterOptionalStop s) = conversation s.
Proof. unfold afterOptionalStop. destruct (isSessionActive s); reflexivity. Qed.

(** A start request leaves the conversation alone when it is rejected
    and empties it otherwise. *)
Lemma handleNewSession_conversation (o : StartOutcome) (s : AppState) :
  wf s ->
  conversation (exec (handleNewSession o) s)
  = match aiRef s with
    | None => conversation s
    | Some _ => ([], [], [], [], [])
    end.
Proof.
  intros W. unfold exec. rewrite handleNewSession_eq by exact W.
  destruct (aiRef s).
  - apply (tryOpenSession_conversation o
             (resetConversation (afterOptionalStop s))).
  - apply afterOptionalStop_conversation.
Qed.

Section Conversation.
Variable initializeAi : jsstring -> option GoogleGenAI.
Variable decodeAudio : jsstring -> option AudioBuffer.

(** But for the server messages and the two start controls, no handler
    touches the conversation. *)
Lemma handler_conversation (ev : Event) :
  starts ev = false -> is_message ev = false ->
  preserves conversation (handler initializeAi decodeAudio ev).
Proof.
  destruct ev; try discriminate; intros _ _; unfold_handlers; frame.
Qed.

Lemma handleMicButtonClick_conversation (o : StartOutcome) (s : AppState) :
  wf s ->
  conversation (exec (handleMicButtonClick o) s) = conversation s \/
  conversation (exec (handleMicButtonClick o) s) = ([], [], [], [], []).
Proof.
  intros W. unfold exec, handleMicButtonClick, bind, get.
  destruct (negb (isApiKeySet s)); [left; reflexivity|].
  destruct (isSessionActive s) eqn:Ea.
  - left. apply stopSession_conversation.
  - pose proof (handleNewSession_conversation o s W) as H.
    unfold detach, exec in *. simpl. rewrite H.
    destruct (aiRef s); auto.
Qed.

Lemma step_tidy (ev : Event) (s : AppState) :
  wf s -> tidy s -> tidy (step initializeAi decodeAudio s ev).
Proof.
  intros W H. unfold step.
  destruct (starts ev) eqn:Es; [|destruct (is_message ev) eqn:Em].
  - destruct ev; try discriminate; simpl.
    + pose proof (handleNewSession_conversation o s W) as E.
      destruct (aiRef s);
        [apply tidy_empty, E | apply (tidy_transport s), H; exact E].
    + destruct (handleMicButtonClick_conversation o s W) as [E|E];
        [apply (tidy_transport s), H; exact E | apply tidy_empty, E].
  - destruct ev; try discriminate; simpl.
    eapply tidy_transport; [apply onmessage_conversation|].
    destruct (isTurnComplete message);
      [apply finalized_tidy|]; apply heard_tidy, H.
  - apply (tidy_transport s), H. apply (handler_conversation ev Es Em s).
Qed.

Lemma reachable_tidy (s : AppState) :
  reachable initializeAi decodeAudio s -> tidy s.
Proof.
  intros (saved & evs & ->).
  assert (H : wf (init saved) /\ tidy (init saved)).
  { split; [apply init_wf|]. repeat split. constructor. }
  revert H. generalize (init saved).
  induction evs as [|ev r IH]; intros s [W H]; [exact H|].
  simpl. apply IH. split; [apply handler_wf, W | apply step_tidy; auto].
Qed.

(** X6. In every reachable state each live-display value is exactly
    the text of its accumulator: what the interface shows as the
    current utterance of a speaker is what a turn-complete signal
    would finalize (before trimming). *)
Theorem display_shows_the_accumulator (s : AppState) :
  reachable initializeAi decodeAudio s ->
  displayUserTranscription s = currentUserTranscriptionRef s /\
  displayTutorTranscription s = currentTutorTranscriptionRef s.
Proof.
  intros Hr. destruct (reachable_tidy s Hr) as (H1 & H2 & _). auto.
Qed.

(** X7. In every reachable state no message of the transcript log is
    empty, and none begins or ends with a white-space character: every
    entry is a trimmed, non-empty text, so [trim] would leave it
    unchanged. *)
Theorem logged_messages_are_trimmed (s : AppState) (m : Message) :
  reachable initializeAi decodeAudio s ->
  m ∈ messages s ->
  content m <> [] /\ trimmed (content m) /\ trim (content m) = content m.
Proof.
  intros Hr Hm. destruct (reachable_tidy s Hr) as (_ & _ & H).
  rewrite List.Forall_forall in H.
  destruct (H m (proj1 (list_elem_of_In _ _) Hm)) as [H1 H2].
  repeat split; try apply H2; auto. apply trim_fixed, H2.
Qed.

Lemma step_log (ev : Event) (s : AppState) :
  starts ev = false ->
  exists new,
    messages (step initializeAi decodeAudio s ev) = messages s ++ new /\
    (completes ev = false -> new = []).
Proof.
  intros Es. unfold step. destruct (is_message ev) eqn:Em.
  - destruct ev; try discriminate; simpl.
    pose proof (onmessage_conversation decodeAudio clock message s) as E.
    apply (f_equal (fun c => fst (fst (fst (fst c))))) in E. simpl in E.
    rewrite E. destruct (heard_accumulators message s) as (A & _ & _).
    destruct (isTurnComplete message).
    + eexists. split; [simpl; rewrite A; reflexivity | discriminate].
    + exists []. rewrite A, app_nil_r. auto.
  - pose proof (handler_conversation ev Es Em s) as E.
    apply (f_equal (fun c => fst (fst (fst (fst c))))) in E. simpl in E.
    exists []. rewrite E, app_nil_r. auto.
Qed.

(** X8. The transcript log is append-only between start requests.
    Over every run of events that holds no click on a start control,
    from any state, the log at the end is the log at the beginning
    followed by new messages; and when no message of the run carries
    the turn-complete signal, the log is unchanged. *)
Theorem log_is_append_only (evs : list Event) (s : AppState) :
  Forall (fun ev => starts ev = false) evs ->
  exists new,
    messages (run initializeAi decodeAudio evs s) = messages s ++ new /\
    (Forall (fun ev => completes ev = false) evs -> new = []).
Proof.
  revert s. induction evs as [|ev r IH]; intros s H.
  - exists []. rewrite app_nil_r. auto.
  - apply Forall_cons_1 in H as [Hev Hr].
    change (run initializeAi decodeAudio (ev :: r) s)
      with (run initializeAi decodeAudio r
              (step initializeAi decodeAudio s ev)).
    destruct (step_log ev s Hev) as (n1 & E1 & C1).
    destruct (IH (step initializeAi decodeAudio s ev) Hr) as (n2 & E2 & C2).
    exists (n1 ++ n2). split.
    + rewrite E2, E1. symmetry. apply app_assoc.
    + intros Hc. apply Forall_cons_1 in Hc as [Hc1 Hc2].
      rewrite (C1 Hc1), (C2 Hc2). reflexivity.
Qed.
End Conversation.

Lemma heard_conversation (m1 m2 : LiveServerMessage) (s1 s2 : AppState) :
  conversation s1 = conversation s2 ->
  serverContent m1 ?. inputTranscription
  = serverContent m2 ?. inputTranscription ->
  serverContent m1 ?. outputTranscription
  = serverContent m2 ?. outputTranscription ->
  conversation (heard m1 s1) = conversation (heard m2 s2).
Proof.
  unfold heard, inputFragment, outputFragment, conversation.
  intros [= E1 E2 E3 E4 E5] Hi Ho. rewrite Hi, Ho.
  destruct (serverContent m2 ?. inputTranscription),
    (serverContent m2 ?. outputTranscription); simpl; congruence.
Qed.

Lemma finalized_conversation (s1 s2 : AppState) :
  conversation s1 = conversation s2 ->
  conversation (finalized s1) = conversation (finalized s2).
Proof.
  unfold finalized, conversation. intros [= E1 E2 E3 E4 E5]. simpl.
  congruence.
Qed.

(** X9. What [onmessage] does to the conversation does not depend on
    the audio side.  Two invocations on states with the same
    conversation, for messages with the same transcript fragments and
    the same turn-complete signal, leave the same conversation,
    whatever the audio parts and the interruption signal of the two
    messages, the decoders, the clocks and the rest of the two states:
    a fragment that cannot be decoded, a missing output context or an
    interruption never lose or alter transcript text. *)
Theorem transcript_is_independent_of_audio
        (decode1 decode2 : jsstring -> option AudioBuffer)
        (clock1 clock2 : nat -> N) (m1 m2 : LiveServerMessage)
        (s1 s2 : AppState) :
  conversation s1 = conversation s2 ->
  serverContent m1 ?. inputTranscription
  = serverContent m2 ?. inputTranscription ->
  serverContent m1 ?. outputTranscription
  = serverContent m2 ?. outputTranscription ->
  serverContent m1 ?. turnComplete = serverContent m2 ?. turnComplete ->
  conversation (exec (onmessage decode1 clock1 m1) s1)
  = conversation (exec (onmessage decode2 clock2 m2) s2).
Proof.
  intros Hs Hi Ho Ht. rewrite !onmessage_conversation.
  unfold isTurnComplete. rewrite Ht.
  pose proof (heard_conversation m1 m2 s1 s2 Hs Hi Ho) as H.
  destruct (truthy_flag _); [apply finalized_conversation|]; exact H.
Qed.

(** ** The tracked set between events *)

Lemma chain_raise (lo hi hi' : Q) (l : list SourceNode) :
  (hi <= hi')%Q -> chain lo l hi -> chain lo l hi'.
Proof.
  intros H. revert lo. induction l as [|src r IH]; intros lo; simpl.
  - intros H1. eapply Qle_trans; eauto.
  - intros (t & Ht & Hlo & Hr). exists t. repeat split; auto.
Qed.

Lemma schedule_ok_transport (s s' : AppState) :
  playback s' = playback s -> schedule_ok s -> schedule_ok s'.
Proof.
  unfold playback, schedule_ok, playing. intros [= E1 E2 E3].
  rewrite E1, E2, E3. auto.
Qed.

Lemma schedule_ok_flushed (s : AppState) :
  audioPlaybackSources s = [] -> nextStartTimeRef s = 0%Q -> schedule_ok s.
Proof.
  unfold schedule_ok, playing. intros E1 E2. rewrite E1, E2.
  split; [constructor|]. exists []. repeat split; try constructor.
  apply Qle_refl.
Qed.

Lemma playing_lt (s : AppState) (l : list SourceNode) (id : nat) :
  playing s l -> id ∈ audioPlaybackSources s -> id < length (sources s).
Proof.
  unfold playing. intros H Hid.
  apply list_elem_of_lookup in Hid as [i Hi].
  destruct (Forall2_lookup_l _ _ _ _ _ H Hi) as (src & _ & Hs).
  eapply lookup_lt_Some, Hs.
Qed.

Lemma schedule_ok_schedule (t : Q) (b : AudioBuffer) (s : AppState) :
  (nextStartTimeRef s <= t)%Q -> schedule_ok s -> schedule_ok (schedule t b s).
Proof.
  intros Ht (Hn & l & Hp & Hs & Hc).
  assert (Hfresh : length (sources s) ∉ audioPlaybackSources s).
  { intros Hin. apply (playing_lt s l) in Hin; [lia | exact Hp]. }
  unfold schedule_ok, playing, schedule. simpl.
  unfold Set_add. rewrite decide_False by exact Hfresh. split.
  - apply list.NoDup_app. split; [exact Hn|]. split.
    + intros x Hx Hx'. apply list_elem_of_singleton in Hx'. subst x.
      exact (Hfresh Hx).
    + apply NoDup_singleton.
  - exists (l ++ [mkSource b (Some t) false]). repeat split.
    + apply Forall2_app.
      * eapply list.Forall2_impl; [exact Hp|]. simpl. intros id src H.
        apply lookup_app_l_Some, H.
      * constructor; [apply lookup_new | constructor].
    + apply Forall_app. split; [exact Hs|]. constructor; [reflexivity|].
      constructor.
    + eapply chain_app; [exact Hc|]. simpl. exists t.
      repeat split; [exact Ht | apply Qle_refl].
Qed.

Lemma schedule_ok_cursor (t : Q) (s : AppState) :
  (nextStartTimeRef s <= t)%Q ->
  schedule_ok s -> schedule_ok (set_nextStartTimeRef t s).
Proof.
  intros Ht (Hn & l & Hp & Hs & Hc). split; [exact Hn|].
  exists l. repeat split; auto. simpl. eapply chain_raise; eauto.
Qed.

Lemma playing_filter (s : AppState) (f : nat -> Prop)
      `{!forall x, Decision (f x)} (ids : list nat) (l : list SourceNode)
      (lo hi : Q) :
  Forall2 (fun id src => sources s !! id = Some src) ids l ->
  Forall (fun src => stopped src = false) l ->
  chain lo l hi ->
  exists l',
    Forall2 (fun id src => sources s !! id = Some src) (filter f ids) l' /\
    Forall (fun src => stopped src = false) l' /\
    chain lo l' hi.
Proof.
  intros Hp. revert lo.
  induction Hp as [|id src ids l Hid Hr IH]; intros lo Hs Hc.
  - exists []. repeat split; auto.
  - apply Forall_cons_1 in Hs as [Hs1 Hs2]. simpl in Hc.
    destruct Hc as (t & Ht & Hlo & Hc).
    destruct (IH _ Hs2 Hc) as (l' & H1 & H2 & H3).
    rewrite filter_cons. case_decide.
    + exists (src :: l'). repeat split.
      * constructor; auto.
      * constructor; auto.
      * simpl. exists t. auto.
    + exists l'. repeat split; auto.
      eapply chain_lower; [|exact H3].
      eapply Qle_trans; [exact Hlo | apply Qle_plus_duration].
Qed.

Lemma schedule_ok_onended (source : nat) (s : AppState) :
  schedule_ok s -> schedule_ok (exec (onended source) s).
Proof.
  intros (Hn & l & Hp & Hs & Hc). unfold exec, onended, modify. simpl.
  split; simpl.
  - unfold Set_delete. apply list.NoDup_filter, Hn.
  - destruct (playing_filter s (fun y => y <> source) _ _ _ _ Hp Hs Hc)
      as (l' & H1 & H2 & H3).
    exists l'. repeat split; auto.
Qed.

Lemma schedule_ok_teardown (s : AppState) : schedule_ok (teardown s).
Proof. apply schedule_ok_flushed; reflexivity. Qed.

Lemma stopSession_exec (s : AppState) :
  wf s -> exec stopSession s = teardown s.
Proof.
  intros W. unfold exec. rewrite stopSession_teardown by exact W.
  reflexivity.
Qed.

(** [onopen] after the answer of [getUserMedia], in closed form. *)
Lemma onopen_resume_eq (r : MicResult) (s : AppState) :
  wf s ->
  onopen_resume r s
  = (Normal tt,
     match startCapture r s with
     | (Normal _, s1) => s1
     | (Throw _, s1) =>
         teardown
           (set_statusMessage
              (str "Microphone access denied. Please allow permission.") s1)
     end).
Proof.
  intros W. pose proof (startCapture_wf r s W) as W1.
  unfold onopen_resume, try_catch, exec in *.
  destruct (startCapture r s) as [[[]|e] s1]; [reflexivity|].
  simpl in W1. unfold bind, setStatusMessage, modify.
  apply stopSession_teardown.
  revert W1. apply wf_transport; [reflexivity | auto].
Qed.

Lemma onerror_eq (s : AppState) :
  wf s ->
  onerror s
  = (Normal tt,
     teardown
       (set_statusMessage
          (str "A connection error occurred. Please restart.") s)).
Proof.
  intros W. unfold onerror, bind, setStatusMessage, modify.
  apply stopSession_teardown.
  revert W. apply wf_transport; [reflexivity | auto].
Qed.

Lemma startCapture_playback (r : MicResult) :
  preserves playback (startCapture r).
Proof. unfold startCapture. frame. Qed.

Lemma tryOpenSession_playback (o : StartOutcome) :
  preserves playback (tryOpenSession o).
Proof. unfold tryOpenSession, openSession. frame. Qed.

Lemma schedule_ok_afterOptionalStop (s : AppState) :
  schedule_ok s -> schedule_ok (afterOptionalStop s).
Proof.
  unfold afterOptionalStop. destruct (isSessionActive s); auto.
  intros _. apply schedule_ok_teardown.
Qed.

Lemma handleNewSession_schedule_ok (o : StartOutcome) (s : AppState) :
  wf s -> schedule_ok s -> schedule_ok (exec (handleNewSession o) s).
Proof.
  intros W H. apply schedule_ok_afterOptionalStop in H.
  unfold exec. rewrite handleNewSession_eq by exact W.
  destruct (aiRef s).
  - eapply schedule_ok_transport; [apply tryOpenSession_playback|].
    revert H. apply schedule_ok_transport. reflexivity.
  - revert H. apply schedule_ok_transport. reflexivity.
Qed.

Section TrackedSet.
Variable initializeAi : jsstring -> option GoogleGenAI.
Variable decodeAudio : jsstring -> option AudioBuffer.

Lemma playPart_schedule_ok (now : N) (part : Part) :
  keeps schedule_ok (playPart decodeAudio now part).
Proof.
  intros s H. unfold exec. rewrite playPart_eq.
  destruct (payload part) as [d|]; [|exact H].
  destruct (outputAudioContextRef s) as [c|]; [|exact H].
  destruct (contexts s !! c) as [o|]; [|exact H].
  simpl. destruct (decodeAudio d) as [b|]; simpl.
  - apply schedule_ok_schedule; [apply Math_max_l | exact H].
  - apply schedule_ok_cursor; [apply Math_max_l | exact H].
Qed.

Lemma flushPlayback_schedule_ok (s : AppState) :
  wf s -> schedule_ok (exec flushPlayback s).
Proof.
  intros W. unfold exec. rewrite flushPlayback_eq by apply (wf_tracked s W).
  apply schedule_ok_flushed; reflexivity.
Qed.

Lemma onmessage_schedule_ok (clock : nat -> N) (m : LiveServerMessage)
      (s : AppState) :
  wf s -> schedule_ok s ->
  schedule_ok (exec (onmessage decodeAudio clock m) s).
Proof.
  intros W H. unfold exec. rewrite onmessage_split.
  set (s3 := if isTurnComplete m then finalized (heard m s) else heard m s).
  destruct (heard_outside_conversation m s) as (Ev & Ek & _ & _).
  fold s3 in Ev, Ek.
  assert (W3 : wf s3).
  { revert W. apply wf_transport; [exact Ev | rewrite Ek; auto]. }
  assert (H3 : schedule_ok s3).
  { revert H. apply schedule_ok_transport.
    unfold refs_view in Ev. unfold playback. congruence. }
  pose proof (playLoop_wf decodeAudio clock (audioParts m) 0 s3 W3) as W2.
  assert (H2 : schedule_ok
                 (exec (forEachFrom 0
                          (fun k part => playPart decodeAudio (clock k) part)
                          (audioParts m)) s3)).
  { revert H3. apply (steps_forEachFrom (inv schedule_ok)).
    intros k x. apply playPart_schedule_ok. }
  unfold bind. rewrite playParts_eq. unfold exec in *.
  destruct (forEachFrom 0 _ (audioParts m) s3) as [[[]|e] s2]; simpl in *;
    [|exact H2].
  unfold interrupt. destruct (truthy_flag _); [|exact H2].
  apply flushPlayback_schedule_ok, W2.
Qed.

Lemma handler_playback (ev : Event) :
  match ev with
  | EvMount | EvSaveApiKey _ | EvOpen => true
  | _ => false
  end = true ->
  preserves playback (handler initializeAi decodeAudio ev).
Proof.
  destruct ev; try discriminate; intros _; unfold_handlers; frame.
Qed.

Lemma handler_schedule_ok (ev : Event) (s : AppState) :
  wf s -> schedule_ok s ->
  schedule_ok (exec (handler initializeAi decodeAudio ev) s).
Proof.
  intros W H. destruct ev.
  - revert H. apply schedule_ok_transport.
    apply (handler_playback EvMount eq_refl s).
  - revert H. apply schedule_ok_transport.
    apply (handler_playback (EvSaveApiKey apiKeyInput) eq_refl s).
  - apply handleNewSession_schedule_ok; assumption.
  - simpl. unfold exec, handleMicButtonClick, bind, get.
    destruct (negb (isApiKeySet s)).
    + revert H. apply schedule_ok_transport. reflexivity.
    + destruct (isSessionActive s).
      * rewrite stopSession_teardown by exact W. apply schedule_ok_teardown.
      * apply (handleNewSession_schedule_ok o s W H).
  - revert H. apply schedule_ok_transport.
    apply (handler_playback EvOpen eq_refl s).
  - simpl. unfold exec. rewrite onopen_resume_eq by exact W.
    pose proof (startCapture_playback r s) as F. unfold exec, same in F.
    destruct (startCapture r s) as [[[]|e] s1]; simpl in *.
    + revert H. apply schedule_ok_transport, F.
    + apply schedule_ok_teardown.
  - apply onmessage_schedule_ok; assumption.
  - simpl. unfold exec. rewrite onerror_eq by exact W.
    apply schedule_ok_teardown.
  - simpl. unfold onclose. rewrite stopSession_exec by exact W.
    apply schedule_ok_teardown.
  - apply schedule_ok_onended, H.
  - simpl. rewrite stopSession_exec by exact W. apply schedule_ok_teardown.
Qed.

Lemma reachable_schedule_ok (s : AppState) :
  reachable initializeAi decodeAudio s -> schedule_ok s.
Proof.
  intros (saved & evs & ->).
  assert (H : wf (init saved) /\ schedule_ok (init saved)).
  { split; [apply init_wf | apply schedule_ok_flushed; reflexivity]. }
  revert H. generalize (init saved).
  induction evs as [|ev r IH]; intros s [W H]; [exact H|].
  simpl. apply IH. split; [apply handler_wf, W|].
  apply handler_schedule_ok; assumption.
Qed.

(** X10. In every reachable state the tracked playback set is a
    proper schedule, across messages, end-of-playback notifications,
    interruptions, stops and restarts: it holds no node twice; the
    cursor is not negative; every tracked node was started at a
    non-negative time, has not been stopped and ends by the cursor;
    and of two tracked nodes the one added first ends before the other
    starts, so the buffers still to be heard never overlap. *)
Theorem tracked_buffers_never_overlap (s : AppState) :
  reachable initializeAi decodeAudio s ->
  NoDup (audioPlaybackSources s) /\
  (0 <= nextStartTimeRef s)%Q /\
  (forall id, id ∈ audioPlaybackSources s ->
     exists src t,
       sources s !! id = Some src /\ startTime src = Some t /\
       stopped src = false /\ (0 <= t)%Q /\
       (t + duration (buffer src) <= nextStartTimeRef s)%Q) /\
  (forall i j idA idB a b,
     i < j ->
     audioPlaybackSources s !! i = Some idA ->
     audioPlaybackSources s !! j = Some idB ->
     sources s !! idA = Some a -> sources s !! idB = Some b ->
     exists ta tb,
       startTime a = Some ta /\ startTime b = Some tb /\
       (ta + duration (buffer a) <= tb)%Q).
Proof.
  intros Hr. destruct (reachable_schedule_ok s Hr) as (Hn & l & Hp & Hs & Hc).
  unfold playing in Hp. repeat apply conj.
  - exact Hn.
  - apply (chain_le _ _ _ Hc).
  - intros id Hid. apply list_elem_of_lookup in Hid as [i Hi].
    destruct (Forall2_lookup_l _ _ _ _ _ Hp Hi) as (src & Hl & Hsrc).
    assert (Hin : src ∈ l) by (eapply list_elem_of_lookup_2; eauto).
    destruct (chain_bounds _ _ _ _ Hc Hin) as (t & Ht & Hlo & Hhi).
    exists src, t. repeat split; auto.
    rewrite List.Forall_forall in Hs.
    apply Hs, (proj1 (list_elem_of_In _ _)), Hin.
  - intros i j idA idB a b Hij Hi Hj Ha Hb.
    destruct (Forall2_lookup_l _ _ _ _ _ Hp Hi) as (a' & Hla & Ha').
    destruct (Forall2_lookup_l _ _ _ _ _ Hp Hj) as (b' & Hlb & Hb').
    assert (a' = a) as -> by congruence.
    assert (b' = b) as -> by congruence.
    apply (chain_no_overlap _ _ _ _ _ _ _ Hc Hij Hla Hlb).
Qed.
End TrackedSet.

(** ** Which handlers can throw *)

Lemma tryOpenSession_normal (o : StartOutcome) (s : AppState) :
  tryOpenSession o s = (Normal tt, exec (tryOpenSession o) s).
Proof. destruct o; reflexivity. Qed.

Lemma handleNewSession_normal (o : StartOutcome) (s : AppState) :
  wf s -> handleNewSession o s = (Normal tt, exec (handleNewSession o) s).
Proof.
  intros W. unfold exec. rewrite handleNewSession_eq by exact W.
  destruct (aiRef s); [apply tryOpenSession_normal | reflexivity].
Qed.

(** The first part that cannot be decoded, if there is one. *)
Lemma first_undecodable (decodeAudio : jsstring -> option AudioBuffer)
      (ps : list Part) :
  Forall (decodes decodeAudio) ps \/
  exists pre bad post d,
    ps = pre ++ bad :: post /\ Forall (decodes decodeAudio) pre /\
    payload bad = Some d /\ decodeAudio d = None.
Proof.
  induction ps as [|p r IH]; [left; constructor|].
  destruct (payload p) as [d|] eqn:Ep.
  - destruct (decodeAudio d) as [b|] eqn:Ed.
    + destruct IH as [IH|(pre & bad & post & d' & -> & H1 & H2 & H3)].
      * left. constructor; [|exact IH]. unfold decodes. rewrite Ep. congruence.
      * right. exists (p :: pre), bad, post, d'. repeat split; auto.
        constructor; [|exact H1]. unfold decodes. rewrite Ep. congruence.
    + right. exists [], p, r, d. repeat split; auto.
  - destruct IH as [IH|(pre & bad & post & d' & -> & H1 & H2 & H3)].
    + left. constructor; [|exact IH]. unfold decodes. rewrite Ep. exact I.
    + right. exists (p :: pre), bad, post, d'. repeat split; auto.
      constructor; [|exact H1]. unfold decodes. rewrite Ep. exact I.
Qed.

Section Exceptions.
Variable initializeAi : jsstring -> option GoogleGenAI.
Variable decodeAudio : jsstring -> option AudioBuffer.

(** Without an output context the audio loop changes nothing; it ends
    normally when no part holds a payload and throws a [TypeError] at
    the first payload otherwise. *)
Lemma playLoop_without_output (clock : nat -> N) (ps : list Part) (k : nat)
      (s : AppState) :
  outputAudioContextRef s = None ->
  (Forall (fun p => payload p = None) ps ->
   forEachFrom k (fun k part => playPart decodeAudio (clock k) part) ps s
   = (Normal tt, s)) /\
  (~ Forall (fun p => payload p = None) ps ->
   forEachFrom k (fun k part => playPart decodeAudio (clock k) part) ps s
   = (Throw TypeError, s)).
Proof.
  intros Ho. revert k. induction ps as [|p ps IH]; intros k.
  - split; [reflexivity|]. intros H. destruct H. constructor.
  - simpl. unfold bind. rewrite playPart_eq, Ho.
    destruct (payload p) as [d|] eqn:Ep.
    + split; [|reflexivity]. intros H. apply Forall_cons_1 in H as [H _].
      simpl in H. congruence.
    + destruct (IH (S k)) as [IH1 IH2]. split.
      * intros H. apply Forall_cons_1 in H as [_ H]. apply IH1, H.
      * intros H. apply IH2. intros H'. apply H. constructor; assumption.
Qed.

(** X11. In a reachable state no handler but [onmessage] throws: the
    mount effect, [handleSaveApiKey], [handleNewSession],
    [handleMicButtonClick], both halves of [onopen], [onerror],
    [onclose], the end-of-playback callback and the teardown at
    unmount all end without an exception, whatever the environment
    answers (a context or a connection that cannot be opened, a
    microphone that is denied, a key that is refused).  In particular
    the teardown never calls [stop()] on a node that was not started
    and never dereferences a null ref. *)
Theorem only_onmessage_can_throw (ev : Event) (s : AppState) :
  reachable initializeAi decodeAudio s ->
  is_message ev = false ->
  exists s', handler initializeAi decodeAudio ev s = (Normal tt, s').
Proof.
  intros Hr Hm. apply reachable_wf in Hr.
  destruct ev; try discriminate; simpl.
  - unfold mountEffect, bind, get.
    destruct (localStorage s) as [k|]; [|eexists; reflexivity].
    destruct (truthy_string k); [|eexists; reflexivity].
    destruct (initializeAi k); eexists; reflexivity.
  - unfold handleSaveApiKey.
    destruct (truthy_string (trim apiKeyInput)); [|eexists; reflexivity].
    destruct (initializeAi apiKeyInput); eexists; reflexivity.
  - eexists. apply handleNewSession_normal, Hr.
  - unfold handleMicButtonClick, bind, get.
    destruct (negb (isApiKeySet s)); [eexists; reflexivity|].
    destruct (isSessionActive s); [|eexists; reflexivity].
    eexists. apply stopSession_teardown, Hr.
  - eexists. reflexivity.
  - eexists. apply onopen_resume_eq, Hr.
  - eexists. apply onerror_eq, Hr.
  - eexists. apply stopSession_teardown, Hr.
  - eexists. reflexivity.
  - eexists. apply stopSession_teardown, Hr.
Qed.

(** X12. When [onmessage] throws, in a reachable state.  With an
    output context it ends without an exception if every audio part of
    the message decodes, and throws the decoder's exception otherwise.
    Without an output context (the session was stopped, or never
    started) it ends without an exception if no part holds a payload,
    and throws a [TypeError] otherwise.  The transcript fragments, the
    turn-complete signal and the interruption signal never make it
    throw. *)
Theorem onmessage_throws_on_audio_only
        (clock : nat -> N) (m : LiveServerMessage) (s : AppState) :
  reachable initializeAi decodeAudio s ->
  (outputAudioContextRef s <> None ->
   (Forall (decodes decodeAudio) (audioParts m) ->
    exists s', onmessage decodeAudio clock m s = (Normal tt, s')) /\
   (~ Forall (decodes decodeAudio) (audioParts m) ->
    exists s', onmessage decodeAudio clock m s = (Throw DecodeError, s'))) /\
  (outputAudioContextRef s = None ->
   (Forall (fun p => payload p = None) (audioParts m) ->
    exists s', onmessage decodeAudio clock m s = (Normal tt, s')) /\
   (~ Forall (fun p => payload p = None) (audioParts m) ->
    exists s', onmessage decodeAudio clock m s = (Throw TypeError, s'))).
Proof.
  intros Hr. apply reachable_wf in Hr.
  set (s3 := if isTurnComplete m then finalized (heard m s) else heard m s).
  destruct (heard_outside_conversation m s) as (Ev & Ek & _ & _).
  fold s3 in Ev, Ek.
  assert (W3 : wf s3).
  { revert Hr. apply wf_transport; [exact Ev | rewrite Ek; auto]. }
  assert (Eo : outputAudioContextRef s3 = outputAudioContextRef s)
    by (unfold refs_view in Ev; congruence).
  assert (E : onmessage decodeAudio clock m s
              = (forEachFrom 0
                   (fun k part => playPart decodeAudio (clock k) part)
                   (audioParts m) >> interrupt m) s3).
  { rewrite onmessage_split. fold s3. unfold bind.
    rewrite playParts_eq. reflexivity. }
  assert (Hi : forall s2, wf s2 -> exists s', interrupt m s2 = (Normal tt, s')).
  { intros s2 W2. unfold interrupt.
    destruct (truthy_flag _); [|eexists; reflexivity].
    eexists. apply flushPlayback_eq, (wf_tracked s2 W2). }
  rewrite E. unfold bind. split.
  - intros Ho. split.
    + intros Hd.
      destruct (playParts_normal decodeAudio clock (audioParts m) 0 s3 W3)
        as [s2 E2]; [congruence | exact Hd |].
      pose proof (playLoop_wf decodeAudio clock (audioParts m) 0 s3 W3) as W2.
      unfold exec in W2. rewrite E2 in *. apply Hi, W2.
    + intros Hd.
      destruct (first_undecodable decodeAudio (audioParts m))
        as [H|(pre & bad & post & d & Eps & Hpre & Hb & Hdec)];
        [contradiction|].
      destruct (playParts_normal decodeAudio clock pre 0 s3 W3) as [s2 E2];
        [congruence | exact Hpre |].
      pose proof (playLoop_wf decodeAudio clock pre 0 s3 W3) as W2.
      pose proof (playLoop_outside_playback decodeAudio clock pre 0 s3) as F2.
      unfold exec, same in W2, F2. rewrite E2 in W2, F2. simpl in W2, F2.
      apply (f_equal outputAudioContextRef) in F2. simpl in F2.
      destruct (outputAudioContextRef s2) as [c|] eqn:Ec; [|congruence].
      destruct (wf_output s2 W2 c Ec) as (o & Hl & _).
      rewrite Eps, (forEachFrom_app _ pre (bad :: post) 0 s3 s2 E2). simpl.
      unfold bind. rewrite playPart_eq, Hb, Ec, Hl, Hdec.
      eexists. reflexivity.
  - intros Ho. rewrite <- Eo in Ho.
    destruct (playLoop_without_output clock (audioParts m) 0 s3 Ho)
      as [H1 H2].
    split; intros H.
    + rewrite (H1 H). apply Hi, W3.
    + rewrite (H2 H). eexists. reflexivity.
Qed.

(** X13. The status left by [onerror] and by the denial of the
    microphone.  Both handlers set their own status message and then
    run [stopSession], which sets its own: in every reachable state
    the status message the interface shows after the handler is the
    session-ended one, not the connection-error or microphone-denied
    one. *)
Theorem teardown_status_replaces_the_error_status (s : AppState) :
  reachable initializeAi decodeAudio s ->
  statusMessage (exec onerror s)
  = str "Session ended. Click the microphone to practice again." /\
  statusMessage (exec onerror s)
  <> str "A connection error occurred. Please restart." /\
  statusMessage (exec (onopen_resume Denied) s)
  = str "Session ended. Click the microphone to practice again." /\
  statusMessage (exec (onopen_resume Denied) s)
  <> str "Microphone access denied. Please allow permission.".
Proof.
  intros Hr. apply reachable_wf in Hr. unfold exec.
  rewrite onerror_eq, onopen_resume_eq by exact Hr. simpl.
  repeat split; discriminate.
Qed.

(** X14. A microphone that is granted after the session was stopped.
    When [getUserMedia] resolves in a reachable state whose input
    context ref is null (the teardown ran while the permission prompt
    was open), [onopen] does not start capturing: the handler ends
    without an exception in an idle state, the stream it was handed
    has all its tracks stopped, and no capture node was created. *)
Theorem microphone_granted_after_stop_is_released (n : nat) (s : AppState) :
  reachable initializeAi decodeAudio s ->
  inputAudioContextRef s = None ->
  exists s',
    onopen_resume (Granted n) s = (Normal tt, s') /\
    idle s' /\
    streams s' !! length (streams s) = Some (mkStream (replicate n true)) /\
    length (streams s') = S (length (streams s)) /\
    length (nodes s') = length (nodes s).
Proof.
  intros Hr Hi. apply reachable_wf in Hr.
  eexists. split; [apply onopen_resume_eq, Hr|].
  unfold startCapture, bind, newMediaStream, modify, get. simpl.
  rewrite Hi. simpl. split; [apply teardown_idle|]. simpl.
  repeat split.
  - rewrite list_lookup_alter_eq, lookup_new. simpl. unfold end_tracks.
    simpl. do 2 f_equal.
    induction n as [|n IH]; simpl; [reflexivity | rewrite IH; reflexivity].
  - rewrite length_alter, length_app. simpl. lia.
  - destruct (mediaStreamSourceRef s), (scriptProcessorRef s); simpl;
      rewrite ?length_alter; reflexivity.
Qed.
End Exceptions.

(** ** Start requests *)

Lemma afterOptionalStop_inactive (s : AppState) :
  isSessionActive (afterOptionalStop s) = false.
Proof.
  unfold afterOptionalStop. destruct (isSessionActive s) eqn:E; auto.
Qed.

Lemma released_grow (s x y : AppState) :
  (exists cs, contexts y = contexts x ++ cs) ->
  (exists ps, sessions y = sessions x ++ ps) ->
  streams y = streams x -> nodes y = nodes x -> sources y = sources x ->
  released s x -> released s y.
Proof.
  intros [cs Ec] [ps Ep] Est En Esrc (R1 & R2 & R3 & R4 & R5 & R6 & R7).
  unfold released. rewrite Ec, Ep, Est, En, Esrc. repeat split; auto.
  - intros c H. destruct (R4 c H) as (o & Ho & Hc). exists o.
    split; [apply lookup_app_l_Some, Ho | exact Hc].
  - intros c H. destruct (R5 c H) as (o & Ho & Hc). exists o.
    split; [apply lookup_app_l_Some, Ho | exact Hc].
  - intros p H. apply lookup_app_l_Some, R6, H.
Qed.

Lemma tryOpenSession_stores (o : StartOutcome) (s : AppState) :
  let s' := exec (tryOpenSession o) s in
  (exists cs, contexts s' = contexts s ++ cs) /\
  (exists ps, sessions s' = sessions s ++ ps) /\
  streams s' = streams s /\ nodes s' = nodes s /\ sources s' = sources s.
Proof.
  destruct o; simpl; repeat split;
    first [ exists []; symmetry; apply app_nil_r
          | eexists; reflexivity
          | eexists; symmetry; apply app_assoc ].
Qed.

Section StartRequests.
Variable initializeAi : jsstring -> option GoogleGenAI.
Variable decodeAudio : jsstring -> option AudioBuffer.

(** X15. Through the "Start New Session" button, which is disabled
    without the credential flag and while a session is active
    (line 376), [handleNewSession] never takes its two early branches
    in a reachable state: it does not stop a session (lines 150-152)
    and is not rejected for want of a client (lines 153-157), but
    resets the conversation and enters its [try] block. *)
Theorem start_button_always_reaches_the_try
        (o : StartOutcome) (s : AppState) :
  reachable initializeAi decodeAudio s ->
  startButtonDisabled s = false ->
  handleNewSession o s = tryOpenSession o (resetConversation s) /\
  aiRef s <> None /\
  statusMessage (exec (handleNewSession o) s)
  <> str "API Key not set. Please set it in the settings.".
Proof.
  intros Hr Hd. pose proof (reachable_credential_agrees _ _ s Hr) as Hk.
  apply reachable_wf in Hr. unfold startButtonDisabled in Hd.
  apply orb_false_elim in Hd as [Hs Ha]. apply negb_false_iff in Hs.
  assert (Hc : aiRef s <> None) by apply (proj1 Hk Hs).
  assert (E : handleNewSession o s = tryOpenSession o (resetConversation s)).
  { rewrite handleNewSession_eq by exact Hr.
    unfold afterOptionalStop. rewrite Ha.
    destruct (aiRef s); [reflexivity | congruence]. }
  repeat split; auto. unfold exec. rewrite E.
  destruct o; simpl; discriminate.
Qed.

(** X16. What a start request leaves behind, in a reachable state
    with a client.  [handleNewSession] ends without an exception and
    the session is not active yet (it becomes so in [onopen]).  When
    the two contexts and the connection are opened, the status is the
    connecting one, two new open contexts with the input and output
    sample rates are added and held by the two context refs, and one
    new session is added and held by the session ref.  When one of the
    three fails, the status is the failure message, no session is
    added and the session ref is left as it was. *)
Theorem start_request_outcomes (o : StartOutcome) (s : AppState) :
  reachable initializeAi decodeAudio s ->
  aiRef s <> None ->
  let s0 := afterOptionalStop s in
  let s' := exec (handleNewSession o) s in
  handleNewSession o s = (Normal tt, s') /\
  isSessionActive s' = false /\
  (o = Started ->
   statusMessage s' = str "Connecting to tutor..." /\
   contexts s'
   = contexts s0 ++ [mkContext INPUT_SAMPLE_RATE false;
                     mkContext OUTPUT_SAMPLE_RATE false] /\
   inputAudioContextRef s' = Some (length (contexts s0)) /\
   outputAudioContextRef s' = Some (S (length (contexts s0))) /\
   sessions s' = sessions s0 ++ [mkSession false] /\
   sessionPromiseRef s' = Some (length (sessions s0))) /\
  (o <> Started ->
   statusMessage s'
   = str "Failed to start session. Check your API key or connection." /\
   sessions s' = sessions s0 /\
   sessionPromiseRef s' = sessionPromiseRef s0).
Proof.
  intros Hr Hk. apply reachable_wf in Hr. cbv zeta.
  split; [apply handleNewSession_normal, Hr|].
  unfold exec. rewrite handleNewSession_eq by exact Hr.
  destruct (aiRef s) as [client|]; [clear Hk | congruence].
  pose proof (afterOptionalStop_inactive s) as Ha.
  set (s0 := afterOptionalStop s) in *.
  split; [|split].
  - destruct o; simpl; auto.
  - intros ->. simpl. rewrite <- app_assoc, length_app. simpl.
    repeat split. f_equal. lia.
  - intros Ho. destruct o; [| | |congruence]; simpl; auto.
Qed.

(** X17. A start request while a session is active releases that
    session first: in a reachable state with a client and an active
    session, after [handleNewSession], whatever its outcome, the
    stream, the capture nodes, the two audio contexts and the session
    the refs held before are released and every source node that was
    tracked is stopped. *)
Theorem restart_releases_the_active_session
        (o : StartOutcome) (s : AppState) :
  reachable initializeAi decodeAudio s ->
  aiRef s <> None ->
  isSessionActive s = true ->
  released s (exec (handleNewSession o) s).
Proof.
  intros Hr Hk Ha. apply reachable_wf in Hr.
  unfold exec. rewrite handleNewSession_eq by exact Hr.
  destruct (aiRef s) as [client|]; [clear Hk | congruence].
  unfold afterOptionalStop. rewrite Ha.
  destruct (tryOpenSession_stores o (resetConversation (teardown s)))
    as (Hc & Hp & Hst & Hn & Hsrc).
  apply (released_grow s (teardown s)); auto.
  apply teardown_released, Hr.
Qed.
End StartRequests.

(** ** Objects that are held, and objects that are not *)

Lemma owned_transport (s s' : AppState) :
  resources s' = resources s -> owned s -> owned s'.
Proof.
  unfold resources, owned. intros [= E1 E2 E3 E4 E5 E6 E7 E8 E9 E10].
  rewrite E1, E2, E3, E4, E5, E6, E7, E8, E9, E10. auto.
Qed.

Lemma nothing_open_owned (s : AppState) : nothing_open s -> owned s.
Proof.
  intros (H1 & H2 & H3 & H4).
  rewrite Forall_lookup in H1. rewrite Forall_lookup in H2.
  rewrite Forall_lookup in H3. rewrite Forall_lookup in H4.
  repeat split; intros i o Ho; left; eauto.
Qed.

(** After a teardown nothing that was held is open. *)
Lemma owned_teardown (s : AppState) : owned s -> nothing_open (teardown s).
Proof.
  intros (H1 & H2 & H3 & H4). unfold nothing_open. simpl.
  repeat split; apply Forall_lookup; intros i o Ho.
  - rewrite !alter_ref_lookup in Ho.
    destruct (contexts s !! i) as [o0|] eqn:E; [|discriminate].
    simpl in Ho. injection Ho as <-.
    destruct (H1 i o0 E) as [H|[H|H]];
      repeat case_decide; try congruence; try reflexivity; exact H.
  - rewrite alter_ref_lookup in Ho.
    destruct (streams s !! i) as [o0|] eqn:E; [|discriminate].
    simpl in Ho. injection Ho as <-.
    destruct (H2 i o0 E) as [H|H]; case_decide; try congruence;
      first [apply tracks_all_ended | exact H].
  - rewrite !alter_ref_lookup in Ho.
    destruct (nodes s !! i) as [o0|] eqn:E; [|discriminate].
    simpl in Ho. injection Ho as <-.
    destruct (H3 i o0 E) as [H|[H|H]];
      repeat case_decide; try congruence; try reflexivity; exact H.
  - rewrite alter_ref_lookup in Ho.
    destruct (sessions s !! i) as [o0|] eqn:E; [|discriminate].
    simpl in Ho. injection Ho as <-.
    destruct (H4 i o0 E) as [H|H]; case_decide; try congruence;
      first [reflexivity | exact H].
Qed.

Lemma holds_session_false (s : AppState) :
  holds_session s = false ->
  inputAudioContextRef s = None /\ outputAudioContextRef s = None /\
  sessionPromiseRef s = None.
Proof.
  unfold holds_session.
  destruct (inputAudioContextRef s), (outputAudioContextRef s),
    (sessionPromiseRef s); try discriminate; auto.
Qed.

Lemma holds_capture_false (s : AppState) :
  holds_capture s = false ->
  streamRef s = None /\ scriptProcessorRef s = None /\
  mediaStreamSourceRef s = None.
Proof.
  unfold holds_capture.
  destruct (streamRef s), (scriptProcessorRef s), (mediaStreamSourceRef s);
    try discriminate; auto.
Qed.

(** A lookup in a store to which one object was added. *)
Lemma lookup_snoc {A} (l : list A) (x o : A) (i : nat) :
  (l ++ [x]) !! i = Some o ->
  l !! i = Some o \/ (i = length l /\ o = x).
Proof.
  intros H. apply lookup_app_Some in H as [H|[Hi H]]; [auto|].
  right. destruct (i - length l) as [|k] eqn:E; simpl in H.
  - injection H as <-. split; [lia | reflexivity].
  - destruct k; discriminate.
Qed.

(** Opening a session from refs that hold nothing keeps every open
    object held. *)
Lemma owned_open (o : StartOutcome) (s : AppState) :
  holds_session s = false -> owned s ->
  owned (exec (tryOpenSession o) s).
Proof.
  intros Hh (H1 & H2 & H3 & H4).
  apply holds_session_false in Hh as (Ei & Eo & Ep).
  assert (C : forall c x, contexts s !! c = Some x -> closed x = true).
  { intros c x Hx. destruct (H1 c x Hx) as [H|[H|H]]; congruence. }
  assert (P : forall p x, sessions s !! p = Some x -> closeRequested x = true).
  { intros p x Hx. destruct (H4 p x Hx) as [H|H]; congruence. }
  destruct o; (split; [|split; [|split]]); simpl; auto.
  all: intros i x Hx.
  all: repeat match type of Hx with
         | (_ ++ [_]) !! _ = Some _ =>
             apply lookup_snoc in Hx as [Hx|[-> ->]]
         end.
  all: eauto.
  all: rewrite ?length_app; simpl; auto.
  all: try (right; right; f_equal; lia).
Qed.

Lemma startCapture_owned (r : MicResult) (s : AppState) :
  wf s -> holds_capture s = false -> owned s ->
  owned (exec (startCapture r) s).
Proof.
  intros W Hh (H1 & H2 & H3 & H4).
  apply holds_capture_false in Hh as (Es & Ep & Em).
  destruct r as [|n]; [repeat split; auto|].
  assert (S' : forall st x, streams s !! st = Some x ->
                 Forall (fun e => e = true) (tracksEnded x)).
  { intros st x Hx. destruct (H2 st x Hx) as [H|H]; congruence. }
  assert (N' : forall i x, nodes s !! i = Some x -> connected x = false).
  { intros i x Hx. destruct (H3 i x Hx) as [H|[H|H]]; congruence. }
  unfold exec, startCapture, bind, newMediaStream, modify, get. simpl.
  destruct (inputAudioContextRef s) as [c|] eqn:E; simpl.
  - split; [|split; [|split]]; simpl; rewrite ?E; auto.
    + intros st x Hx. apply lookup_snoc in Hx as [Hx|[-> ->]]; eauto.
    + intros i x Hx. rewrite !length_app in *. simpl in *.
      destruct (decide (i = length (nodes s) + 1)) as [->|Hne1]; [auto|].
      rewrite list_lookup_alter_ne in Hx by lia.
      destruct (decide (i = length (nodes s))) as [->|Hne2]; [auto|].
      rewrite list_lookup_alter_ne in Hx by lia.
      apply lookup_snoc in Hx as [Hx|[-> ->]];
        [|rewrite length_app in *; simpl in *; lia].
      apply lookup_snoc in Hx as [Hx|[-> ->]]; [|lia]. eauto.
  - split; [|split; [|split]]; simpl; rewrite ?E; auto.
    intros st x Hx. apply lookup_snoc in Hx as [Hx|[-> ->]]; eauto.
Qed.

Lemma owned_afterOptionalStop (s : AppState) :
  owned s -> owned (afterOptionalStop s).
Proof.
  unfold afterOptionalStop. destruct (isSessionActive s); auto.
  intros H. apply nothing_open_owned, owned_teardown, H.
Qed.

Lemma handleNewSession_owned (o : StartOutcome) (s : AppState) :
  wf s -> owned s ->
  isSessionActive s = true \/ holds_session s = false ->
  owned (exec (handleNewSession o) s).
Proof.
  intros W H Hh. unfold exec. rewrite handleNewSession_eq by exact W.
  pose proof (owned_afterOptionalStop s H) as H0.
  destruct (aiRef s).
  - apply owned_open.
    + unfold afterOptionalStop.
      destruct Hh as [Ha|Hh]; [rewrite Ha; reflexivity|].
      destruct (isSessionActive s); [reflexivity | exact Hh].
    + revert H0. apply owned_transport. reflexivity.
  - revert H0. apply owned_transport. reflexivity.
Qed.

Section Ownership.
Variable initializeAi : jsstring -> option GoogleGenAI.
Variable decodeAudio : jsstring -> option AudioBuffer.

(** The mount effect, [handleSaveApiKey], the first half of [onopen],
    [onmessage] and the end-of-playback callback touch neither the
    connection nor the capture chain. *)
Lemma handler_resources (ev : Event) :
  quiet ev = true ->
  preserves resources (handler initializeAi decodeAudio ev).
Proof.
  destruct ev; try discriminate; intros _; unfold_handlers; frame.
Qed.

Lemma owned_step (ev : Event) (s : AppState) :
  wf s -> owned s -> overwrites s ev = false ->
  owned (step initializeAi decodeAudio s ev).
Proof.
  intros W H Ho. unfold step.
  assert (T : forall x, wf x -> owned x -> owned (exec stopSession x)).
  { intros x Wx Hx. rewrite stopSession_exec by exact Wx.
    apply nothing_open_owned, owned_teardown, Hx. }
  destruct (quiet ev) eqn:Eq.
  { revert H. apply owned_transport. apply (handler_resources ev Eq s). }
  destruct ev; try discriminate; simpl in *.
  - apply handleNewSession_owned; auto.
    destruct (isSessionActive s); [auto|]. right. exact Ho.
  - unfold exec, handleMicButtonClick, bind, get.
    destruct (isApiKeySet s); simpl in *;
      [|revert H; apply owned_transport; reflexivity].
    destruct (isSessionActive s) eqn:Ea; simpl in *.
    + apply (T s W H).
    + apply (handleNewSession_owned o s W H). auto.
  - unfold exec. rewrite onopen_resume_eq by exact W.
    assert (Hc : holds_capture s = false \/ r = Denied)
      by (destruct r; auto).
    assert (H1 : owned (exec (startCapture r) s)).
    { destruct Hc as [Hc| ->]; [|exact H].
      apply startCapture_owned; auto. }
    pose proof (startCapture_wf r s W) as W1.
    unfold exec in *.
    destruct (startCapture r s) as [[[]|e] s1]; simpl in *; [exact H1|].
    apply nothing_open_owned, owned_teardown.
    revert H1. apply owned_transport. reflexivity.
  - unfold exec. rewrite onerror_eq by exact W.
    apply nothing_open_owned, owned_teardown.
    revert H. apply owned_transport. reflexivity.
  - apply (T s W H).
  - apply (T s W H).
Qed.

Lemma orderly_owned (evs : list Event) (s : AppState) :
  wf s -> owned s -> orderly initializeAi decodeAudio s evs = true ->
  owned (run initializeAi decodeAudio evs s).
Proof.
  revert s. induction evs as [|ev r IH]; intros s W H Ho; [exact H|].
  simpl in Ho. apply andb_true_iff in Ho as [Ho1 Ho2].
  apply negb_true_iff in Ho1.
  simpl. apply IH; [apply handler_wf, W | | exact Ho2].
  apply owned_step; assumption.
Qed.

(** X18. No object is leaked in an orderly run.  Along a run from the
    initial state in which no start request arrives while the session
    is inactive with a context or session ref still set, and no second
    microphone stream is handed over, every audio context, stream,
    capture node and session that is still open is held by its ref;
    so whenever the session ends, by [onerror], [onclose] or the
    unmount, the state is idle and not one context, stream, capture
    node or session created since the component was initialised is
    left open. *)
Theorem orderly_run_leaves_nothing_open
        (saved : option jsstring) (evs : list Event) (stop : Event) :
  orderly initializeAi decodeAudio (init saved) evs = true ->
  stop = EvError \/ stop = EvClose \/ stop = EvUnmount ->
  let s := run initializeAi decodeAudio evs (init saved) in
  owned s /\
  idle (step initializeAi decodeAudio s stop) /\
  nothing_open (step initializeAi decodeAudio s stop).
Proof.
  intros Ho Hs. cbv zeta.
  pose proof (run_wf initializeAi decodeAudio evs (init saved)
                (init_wf saved)) as W.
  assert (H : owned (run initializeAi decodeAudio evs (init saved))).
  { apply orderly_owned; [apply init_wf | | exact Ho].
    repeat split; simpl; intros i o Hi; discriminate. }
  split; [exact H|].
  set (s := run initializeAi decodeAudio evs (init saved)) in *.
  unfold step. destruct Hs as [->|[->| ->]]; simpl.
  - unfold exec. rewrite onerror_eq by exact W. simpl.
    split; [apply teardown_idle|]. apply owned_teardown.
    revert H. apply owned_transport. reflexivity.
  - unfold onclose. rewrite stopSession_exec by exact W.
    split; [apply teardown_idle | apply owned_teardown, H].
  - rewrite stopSession_exec by exact W.
    split; [apply teardown_idle | apply owned_teardown, H].
Qed.
End Ownership.

(** ** The teardown and the objects it releases *)

Section Teardown.
Variable initializeAi : jsstring -> option GoogleGenAI.
Variable decodeAudio : jsstring -> option AudioBuffer.


End Teardown.





(** ** Objects no ref holds any more *)

#[local] Instance untouched_preorder (c p : nat) : PreOrder (untouched c p).
Proof.
  split.
  - intros s. split; auto.
  - intros s1 s2 s3 [A1 B1] [A2 B2]. split.
    + intros H. destruct (A1 H) as [H1 E1]. destruct (A2 H1) as [H2 E2].
      split; [exact H2 | congruence].
    + intros H. destruct (B1 H) as [H1 E1]. destruct (B2 H1) as [H2 E2].
      split; [exact H2 | congruence].
Qed.

Lemma untouched_same (c p : nat) (s s' : AppState) :
  contexts s' = contexts s -> sessions s' = sessions s ->
  inputAudioContextRef s' = inputAudioContextRef s ->
  outputAudioContextRef s' = outputAudioContextRef s ->
  sessionPromiseRef s' = sessionPromiseRef s ->
  untouched c p s s'.
Proof.
  unfold untouched, unheld_context, unheld_session.
  intros E1 E2 E3 E4 E5. rewrite E1, E2, E3, E4, E5. tauto.
Qed.

Lemma untouched_teardown (c p : nat) (s : AppState) :
  untouched c p s (teardown s).
Proof.
  split.
  - intros (Hl & Hi & Ho). unfold unheld_context. simpl.
    rewrite !alter_ref_lookup.
    rewrite !decide_False by (intros H; congruence).
    repeat split; try discriminate.
    + destruct (outputAudioContextRef s), (inputAudioContextRef s); simpl;
        rewrite ?length_alter; exact Hl.
    + destruct (contexts s !! c); reflexivity.
  - intros (Hl & Hp). unfold unheld_session. simpl.
    rewrite alter_ref_lookup.
    rewrite decide_False by (intros H; congruence).
    repeat split; try discriminate.
    + destruct (sessionPromiseRef s); simpl; rewrite ?length_alter; exact Hl.
    + destruct (sessions s !! p); reflexivity.
Qed.

Lemma untouched_open (o : StartOutcome) (c p : nat) (s : AppState) :
  untouched c p s (exec (tryOpenSession o) s).
Proof.
  unfold untouched, unheld_context, unheld_session.
  destruct o; simpl; split.
  all: intros H; repeat split; try tauto.
  all: rewrite ?length_app; simpl; try lia.
  all: try (intros [= E]; lia).
  all: rewrite ?lookup_app_l by (rewrite ?length_app; simpl; lia).
  all: reflexivity.
Qed.

Lemma untouched_handleNewSession (o : StartOutcome) (c p : nat)
      (s : AppState) :
  wf s -> untouched c p s (exec (handleNewSession o) s).
Proof.
  intros W. unfold exec. rewrite handleNewSession_eq by exact W.
  assert (H0 : untouched c p s (afterOptionalStop s)).
  { unfold afterOptionalStop.
    destruct (isSessionActive s); [apply untouched_teardown | reflexivity]. }
  etransitivity; [exact H0|]. destruct (aiRef s).
  - etransitivity; [|apply untouched_open].
    apply untouched_same; reflexivity.
  - apply untouched_same; reflexivity.
Qed.

Lemma startCapture_connection (r : MicResult) :
  preserves (fun s => (contexts s, sessions s, inputAudioContextRef s,
                       outputAudioContextRef s, sessionPromiseRef s))
    (startCapture r).
Proof. unfold startCapture. frame. Qed.

Section Orphans.
Variable initializeAi : jsstring -> option GoogleGenAI.
Variable decodeAudio : jsstring -> option AudioBuffer.

(** No handler touches a context or a session that no ref holds. *)
Lemma step_untouched (c p : nat) (ev : Event) (s : AppState) :
  wf s -> untouched c p s (step initializeAi decodeAudio s ev).
Proof.
  intros W. unfold step.
  assert (T : forall x, wf x -> untouched c p x (exec stopSession x)).
  { intros x Wx. rewrite stopSession_exec by exact Wx.
    apply untouched_teardown. }
  destruct (quiet ev) eqn:Eq.
  { pose proof (handler_resources initializeAi decodeAudio ev Eq s) as F.
    unfold same, resources in F.
    injection F as E1 E2 E3 E4 E5 E6 E7 E8 E9 E10.
    apply untouched_same; assumption. }
  destruct ev; try discriminate; simpl.
  - apply untouched_handleNewSession, W.
  - unfold exec, handleMicButtonClick, bind, get.
    destruct (negb (isApiKeySet s)); [apply untouched_same; reflexivity|].
    destruct (isSessionActive s).
    + apply (T s W).
    + apply (untouched_handleNewSession o c p s W).
  - unfold exec. rewrite onopen_resume_eq by exact W.
    pose proof (startCapture_connection r s) as F.
    pose proof (startCapture_wf r s W) as W1.
    unfold exec, same in *. injection F as E1 E2 E3 E4 E5.
    destruct (startCapture r s) as [[[]|e] s1]; simpl in *.
    + apply untouched_same; assumption.
    + etransitivity; [|apply untouched_teardown].
      apply untouched_same; assumption.
  - unfold exec. rewrite onerror_eq by exact W.
    etransitivity; [|apply untouched_teardown].
    apply untouched_same; reflexivity.
  - apply (T s W).
  - apply (T s W).
Qed.

Lemma run_untouched (c p : nat) (evs : list Event) (s : AppState) :
  wf s -> untouched c p s (run initializeAi decodeAudio evs s).
Proof.
  revert s. induction evs as [|ev r IH]; intros s W; [reflexivity|].
  simpl. etransitivity; [apply (step_untouched c p ev s W)|].
  apply IH, handler_wf, W.
Qed.

Lemma session_pending_same (s s' : AppState) :
  sessions s' = sessions s -> sessionPromiseRef s' = sessionPromiseRef s ->
  session_pending s -> session_pending s'.
Proof. unfold session_pending. intros E1 E2. rewrite E1, E2. auto. Qed.

Lemma session_pending_teardown (s : AppState) : session_pending (teardown s).
Proof. intros p. simpl. discriminate. Qed.

Lemma session_pending_open (o : StartOutcome) (s : AppState) :
  session_pending s -> session_pending (exec (tryOpenSession o) s).
Proof.
  unfold session_pending. intros H.
  destruct o; simpl; auto.
  intros p [= <-]. apply lookup_new.
Qed.

Lemma step_session_pending (ev : Event) (s : AppState) :
  wf s -> session_pending s ->
  session_pending (step initializeAi decodeAudio s ev).
Proof.
  intros W H. unfold step.
  assert (T : forall x, wf x -> session_pending (exec stopSession x)).
  { intros x Wx. rewrite stopSession_exec by exact Wx.
    apply session_pending_teardown. }
  destruct (quiet ev) eqn:Eq.
  { pose proof (handler_resources initializeAi decodeAudio ev Eq s) as F.
    unfold same, resources in F.
    injection F as E1 E2 E3 E4 E5 E6 E7 E8 E9 E10.
    revert H. apply session_pending_same; assumption. }
  assert (N : forall o, session_pending (exec (handleNewSession o) s)).
  { intros o. unfold exec. rewrite handleNewSession_eq by exact W.
    assert (H0 : session_pending (afterOptionalStop s)).
    { unfold afterOptionalStop.
      destruct (isSessionActive s);
        [apply session_pending_teardown | exact H]. }
    destruct (aiRef s).
    - apply session_pending_open. revert H0.
      apply session_pending_same; reflexivity.
    - revert H0. apply session_pending_same; reflexivity. }
  destruct ev; try discriminate; simpl.
  - apply N.
  - unfold exec, handleMicButtonClick, bind, get.
    destruct (negb (isApiKeySet s)).
    + revert H. apply session_pending_same; reflexivity.
    + destruct (isSessionActive s); [apply (T s W) | apply (N o)].
  - unfold exec. rewrite onopen_resume_eq by exact W.
    pose proof (startCapture_connection r s) as F.
    unfold exec, same in *. injection F as E1 E2 E3 E4 E5.
    destruct (startCapture r s) as [[[]|e] s1]; simpl in *.
    + revert H. apply session_pending_same; assumption.
    + apply session_pending_teardown.
  - unfold exec. rewrite onerror_eq by exact W.
    apply session_pending_teardown.
  - apply (T s W).
  - apply (T s W).
Qed.

Lemma reachable_session_pending (s : AppState) :
  reachable initializeAi decodeAudio s -> session_pending s.
Proof.
  intros (saved & evs & ->).
  assert (H : wf (init saved) /\ session_pending (init saved)).
  { split; [apply init_wf|]. intros p. simpl. discriminate. }
  revert H. generalize (init saved).
  induction evs as [|ev r IH]; intros s [W H]; [exact H|].
  simpl. apply IH. split; [apply handler_wf, W|].
  apply step_session_pending; assumption.
Qed.

(** X19. A start request that arrives while the session is not active
    but its refs are set (the earlier start is still connecting, or
    failed after it had opened a context) abandons what the refs hold.
    In a reachable state with a client and an inactive session, after
    a start request that opens its contexts and connection, the
    contexts the two context refs held are still open and the session
    the session ref held has still not been asked to close, and no
    later event changes that:
    no ref holds them any more and no handler ever closes them. *)
Theorem start_over_a_pending_session_abandons_it
        (evs : list Event) (s : AppState) :
  reachable initializeAi decodeAudio s ->
  aiRef s <> None ->
  isSessionActive s = false ->
  let s' := run initializeAi decodeAudio (EvStartButton Started :: evs) s in
  (forall c,
     inputAudioContextRef s = Some c \/ outputAudioContextRef s = Some c ->
     (exists o, contexts s' !! c = Some o /\ closed o = false) /\
     inputAudioContextRef s' <> Some c /\ outputAudioContextRef s' <> Some c) /\
  (forall p,
     sessionPromiseRef s = Some p ->
     sessions s' !! p = Some (mkSession false) /\
     sessionPromiseRef s' <> Some p).
Proof.
  intros Hr Hk Ha. pose proof (reachable_session_pending s Hr) as Hpend.
  apply reachable_wf in Hr. cbv zeta.
  set (s1 := step initializeAi decodeAudio s (EvStartButton Started)).
  change (run initializeAi decodeAudio (EvStartButton Started :: evs) s)
    with (run initializeAi decodeAudio evs s1).
  assert (W1 : wf s1) by apply handler_wf, Hr.
  assert (E1 : s1 = exec (tryOpenSession Started) (resetConversation s)).
  { unfold s1, step, exec. simpl. rewrite handleNewSession_eq by exact Hr.
    unfold afterOptionalStop. rewrite Ha.
    destruct (aiRef s); [reflexivity | congruence]. }
  split.
  - intros c Hc.
    assert (Hopen : exists o, contexts s !! c = Some o /\ closed o = false).
    { destruct Hc as [Hc|Hc];
        [apply (wf_input s Hr c Hc) | apply (wf_output s Hr c Hc)]. }
    assert (Hlt : c < length (contexts s)) by apply open_context_lt, Hopen.
    assert (U1 : unheld_context c s1 /\ contexts s1 !! c = contexts s !! c).
    { rewrite E1. unfold unheld_context. simpl.
      rewrite !length_app. simpl. repeat split.
      - lia.
      - intros [= E]. lia.
      - intros [= E]. lia.
      - rewrite !lookup_app_l by (rewrite ?length_app; simpl; lia).
        reflexivity. }
    destruct U1 as [U1 L1].
    destruct (run_untouched c 0 evs s1 W1) as [Hu _].
    destruct (Hu U1) as [(_ & Hi & Ho) L2].
    split; [|split; assumption].
    rewrite L2, L1. exact Hopen.
  - intros p Hp.
    assert (Hlt : p < length (sessions s)) by apply (wf_session s Hr p Hp).
    assert (U1 : unheld_session p s1 /\ sessions s1 !! p = sessions s !! p).
    { rewrite E1. unfold unheld_session. simpl.
      rewrite !length_app. simpl. repeat split.
      - lia.
      - intros [= E]. lia.
      - rewrite !lookup_app_l by (rewrite ?length_app; simpl; lia).
        reflexivity. }
    destruct U1 as [U1 L1].
    destruct (run_untouched 0 p evs s1 W1) as [_ Hu].
    destruct (Hu U1) as [(_ & Hp') L2].
    split; [|exact Hp']. rewrite L2, L1. apply Hpend, Hp.
Qed.
End Orphans.

(** ** What [onmessage] leaves alone *)

Section MessageFrame.
Variable initializeAi : jsstring -> option GoogleGenAI.
Variable decodeAudio : jsstring -> option AudioBuffer.

(** X20. [onmessage] changes the conversation and the playback state
    only.  Whatever the state and the message, and whether the handler
    throws or not, the state afterwards differs from the state before
    in the transcript log, the accumulators, the live-display values,
    the tracked set, the cursor and the source nodes at most: a server
    message never changes the session-active flag, the status message,
    the credential, the stored key, the refs of the connection and of
    the capture chain, or the contexts, streams, capture nodes and
    sessions themselves. *)
Theorem onmessage_changes_conversation_and_playback_only
        (clock : nat -> N) (m : LiveServerMessage) (s : AppState) :
  let s' := exec (onmessage decodeAudio clock m) s in
  outside_conversation_and_playback s'
  = outside_conversation_and_playback s /\
  isSessionActive s' = isSessionActive s /\
  statusMessage s' = statusMessage s /\
  credential s' = credential s /\
  localStorage s' = localStorage s /\
  resources s' = resources s.
Proof.
  assert (F : preserves outside_conversation_and_playback
                (onmessage decodeAudio clock m)).
  { unfold_handlers. frame. }
  specialize (F s). unfold same in F. cbv zeta. repeat apply conj.
  - exact F.
  - apply (f_equal isSessionActive) in F. exact F.
  - apply (f_equal statusMessage) in F. exact F.
  - apply (f_equal credential) in F. exact F.
  - apply (f_equal localStorage) in F. exact F.
  - apply (f_equal resources) in F. exact F.
Qed.

(** X21. A message that arrives when there is no output context (the
    session was stopped, or not started yet) is transcribed but not
    played.  In a reachable state without an output context,
    [onmessage] leaves exactly the state of its transcript blocks:
    the fragments are accumulated and a turn-complete signal is acted
    on, while no source node is created, nothing is tracked and the
    cursor stays at zero, whether the message holds audio (the handler
    then throws) or an interruption signal or neither. *)
Theorem message_without_output_context_plays_nothing
        (clock : nat -> N) (m : LiveServerMessage) (s : AppState) :
  reachable initializeAi decodeAudio s ->
  outputAudioContextRef s = None ->
  let s' := exec (onmessage decodeAudio clock m) s in
  s' = (if isTurnComplete m then finalized (heard m s) else heard m s) /\
  sources s' = sources s /\
  audioPlaybackSources s' = [] /\
  nextStartTimeRef s' = 0%Q.
Proof.
  intros Hr Ho. apply reachable_wf in Hr. cbv zeta.
  set (s3 := if isTurnComplete m then finalized (heard m s) else heard m s).
  destruct (heard_outside_conversation m s) as (Ev & Ek & _ & _).
  fold s3 in Ev, Ek.
  assert (W3 : wf s3).
  { revert Hr. apply wf_transport; [exact Ev | rewrite Ek; auto]. }
  assert (Eo : outputAudioContextRef s3 = None)
    by (unfold refs_view in Ev; congruence).
  assert (Es : sources s3 = sources s)
    by (unfold refs_view in Ev; congruence).
  destruct (wf_noOutput s3 W3 Eo) as [Ht Hc].
  assert (E : exec (onmessage decodeAudio clock m) s = s3).
  { unfold exec. rewrite onmessage_split. fold s3. unfold bind.
    rewrite playParts_eq.
    destruct (playLoop_no_output decodeAudio clock (audioParts m) 0 s3 Eo)
      as (r & Er & _).
    rewrite Er. destruct r as [[]|e]; [|reflexivity].
    unfold interrupt. destruct (truthy_flag _); [|reflexivity].
    rewrite flushPlayback_eq by apply (wf_tracked s3 W3). simpl.
    rewrite Ht. change (stop_all [] (sources s3)) with (sources s3).
    destruct s3; simpl in *; subst; reflexivity. }
  rewrite E. auto.
Qed.
End MessageFrame.

(** ** From the start request to the connected session *)

Section Connecting.
Variable initializeAi : jsstring -> option GoogleGenAI.
Variable decodeAudio : jsstring -> option AudioBuffer.

(** X22. The three steps of a successful start compose to a connected
    session.  From a reachable state with a client, a start request
    that opens its contexts and connection, followed by [onopen] and
    by the microphone being granted with [n] tracks, ends in a state
    where the session is active with the connected status, the two
    context refs hold two new open contexts with the input and the
    output sample rate, the session ref holds a new session, the
    stream ref holds the new stream with its [n] tracks live, the two
    capture nodes are new, held and connected, and the conversation is
    empty. *)
Theorem start_open_grant_connects (n : nat) (s : AppState) :
  reachable initializeAi decodeAudio s ->
  aiRef s <> None ->
  let s0 := afterOptionalStop s in
  let s' := run initializeAi decodeAudio
              [EvStartButton Started; EvOpen; EvMicrophone (Granted n)] s in
  isSessionActive s' = true /\
  statusMessage s' = str "Connected! Start speaking when you are ready." /\
  conversation s' = ([], [], [], [], []) /\
  (inputAudioContextRef s' = Some (length (contexts s0)) /\
   contexts s' !! length (contexts s0)
   = Some (mkContext INPUT_SAMPLE_RATE false)) /\
  (outputAudioContextRef s' = Some (S (length (contexts s0))) /\
   contexts s' !! S (length (contexts s0))
   = Some (mkContext OUTPUT_SAMPLE_RATE false)) /\
  (sessionPromiseRef s' = Some (length (sessions s0)) /\
   sessions s' !! length (sessions s0) = Some (mkSession false)) /\
  (streamRef s' = Some (length (streams s0)) /\
   streams s' !! length (streams s0) = Some (mkStream (replicate n false))) /\
  (mediaStreamSourceRef s' = Some (length (nodes s0)) /\
   nodes s' !! length (nodes s0) = Some (mkNode true)) /\
  (scriptProcessorRef s' = Some (S (length (nodes s0))) /\
   nodes s' !! S (length (nodes s0)) = Some (mkNode true)).
Proof.
  intros Hr Hk. apply reachable_wf in Hr. cbv zeta.
  assert (E1 : step initializeAi decodeAudio s (EvStartButton Started)
               = exec (tryOpenSession Started)
                   (resetConversation (afterOptionalStop s))).
  { unfold step, exec. simpl. rewrite handleNewSession_eq by exact Hr.
    destruct (aiRef s); [reflexivity | congruence]. }
  change (run initializeAi decodeAudio
            [EvStartButton Started; EvOpen; EvMicrophone (Granted n)] s)
    with (exec (onopen_resume (Granted n))
            (exec onopen_begin
               (step initializeAi decodeAudio s (EvStartButton Started)))).
  rewrite E1. generalize (afterOptionalStop s). intros s0. simpl.
  rewrite !length_app. simpl.
  replace (length (nodes s0) + 1) with (S (length (nodes s0))) by lia.
  replace (length (contexts s0) + 1) with (S (length (contexts s0))) by lia.
  repeat apply conj; try reflexivity.
  - apply lookup_new2.
  - rewrite lookup_app_r by (rewrite length_app; simpl; lia).
    rewrite length_app. simpl.
    replace (S (length (contexts s0)) - (length (contexts s0) + 1)) with 0
      by lia.
    reflexivity.
  - apply lookup_new.
  - apply lookup_new.
  - rewrite list_lookup_alter_ne by lia.
    rewrite list_lookup_alter_eq, lookup_new2. reflexivity.
  - rewrite list_lookup_alter_eq.
    rewrite list_lookup_alter_ne by lia.
    rewrite lookup_app_r by (rewrite length_app; simpl; lia).
    rewrite length_app. simpl.
    replace (S (length (nodes s0)) - (length (nodes s0) + 1)) with 0 by lia.
    reflexivity.
Qed.
End Connecting.

(** ** The system prompt *)

Lemma template_app (h : jsstring) (hr mid rest : list jsstring) :
  template ((h :: hr) ++ mid ++ rest)
  = template (h :: hr) ++ concat (map (fun x => LF :: x) mid)
    ++ concat (map (fun x => LF :: x) rest).
Proof.
  unfold template. rewrite <- app_comm_cons, !map_app, !concat_app.
  rewrite <- app_assoc. reflexivity.
Qed.

(** The prompt is fixed text around the level and the topic. *)
Lemma getSystemPrompt_eq (level topic : jsstring) :
  getSystemPrompt level topic
  = (template promptHeader ++ LF :: str "- Level: ")
    ++ level
    ++ LF :: str "- Topic: "
    ++ topic ++ concat (map (fun x => LF :: x) promptInstructions).
Proof.
  unfold getSystemPrompt, promptHeader. rewrite template_app.
  cbn [concat map]. rewrite <- !app_assoc. cbn [app].
  rewrite <- !app_assoc. reflexivity.
Qed.

Lemma singleLine_cons (c : N) (x : jsstring) :
  singleLine (c :: x) = true -> c <> LF /\ singleLine x = true.
Proof.
  unfold singleLine. simpl. intros H.
  apply andb_true_iff in H as [H1 H2]. split; [|exact H2].
  apply negb_true_iff, N.eqb_neq in H1. exact H1.
Qed.

(** Two texts cut at their first line feed. *)
Lemma first_line (x x' y y' : jsstring) :
  singleLine x = true -> singleLine x' = true ->
  x ++ LF :: y = x' ++ LF :: y' -> x = x' /\ y = y'.
Proof.
  revert x'. induction x as [|c x IH]; intros [|c' x'] H H' E; simpl in E.
  - injection E as <-. auto.
  - injection E as <- _. apply singleLine_cons in H' as [H' _]. congruence.
  - injection E as -> _. apply singleLine_cons in H as [H _]. congruence.
  - injection E as <- E. apply singleLine_cons in H as [_ H].
    apply singleLine_cons in H' as [_ H'].
    destruct (IH x' H H' E) as [-> ->]. auto.
Qed.

Lemma getSystemPrompt_inj (level level' topic topic' : jsstring) :
  singleLine level = true -> singleLine level' = true ->
  getSystemPrompt level topic = getSystemPrompt level' topic' ->
  level = level' /\ topic = topic'.
Proof.
  intros H H' E. rewrite !getSystemPrompt_eq in E.
  apply app_inv_head in E.
  apply (first_line level level' _ _ H H') in E as [-> E].
  split; [reflexivity|].
  apply app_inv_head in E. apply app_inv_tail in E. exact E.
Qed.

Lemma levels_single_line : forallb singleLine LEVELS = true.
Proof. vm_compute. reflexivity. Qed.

(** X23. The system prompt tells the settings apart.  For two levels
    offered by the settings panel (the entries of [LEVELS]) and any two
    topics, [getSystemPrompt] gives the same text exactly when the
    levels are the same and the topics are the same: no two different
    selections are described to the tutor by the same prompt. *)
Theorem prompt_tells_the_settings_apart
        (level level' topic topic' : jsstring) :
  level ∈ LEVELS -> level' ∈ LEVELS ->
  getSystemPrompt level topic = getSystemPrompt level' topic'
  <-> level = level' /\ topic = topic'.
Proof.
  intros H H'. split; [|intros [-> ->]; reflexivity].
  pose proof levels_single_line as L. rewrite forallb_forall in L.
  apply getSystemPrompt_inj; apply L, (proj1 (list_elem_of_In _ _));
    assumption.
Qed.

(** ** The key handlers and the session *)

Section KeyFrame.
Variable initializeAi : jsstring -> option GoogleGenAI.

(** X24. Loading and saving a key leave the session alone.  Whatever
    the state and the key, the mount effect and [handleSaveApiKey]
    change the client, the credential flag, the modal flag, the status
    message and the stored key at most: a session that is running
    keeps its refs, its objects, its playback state, its active flag
    and its conversation. *)
Theorem key_handlers_leave_the_session_alone
        (k : jsstring) (s : AppState) :
  let s1 := exec (mountEffect initializeAi) s in
  let s2 := exec (handleSaveApiKey initializeAi k) s in
  (outside_credential s1 = outside_credential s /\
   outside_credential s2 = outside_credential s) /\
  (isSessionActive s1 = isSessionActive s /\
   isSessionActive s2 = isSessionActive s) /\
  (conversation s1 = conversation s /\ conversation s2 = conversation s) /\
  (playback s1 = playback s /\ playback s2 = playback s) /\
  (resources s1 = resources s /\ resources s2 = resources s).
Proof.
  assert (F1 : preserves outside_credential (mountEffect initializeAi)).
  { unfold mountEffect. frame. }
  assert (F2 : preserves outside_credential
                 (handleSaveApiKey initializeAi k)).
  { unfold handleSaveApiKey. frame. }
  specialize (F1 s). specialize (F2 s). unfold same in *. cbv zeta.
  repeat apply conj; try assumption.
  - apply (f_equal isSessionActive) in F1. exact F1.
  - apply (f_equal isSessionActive) in F2. exact F2.
  - apply (f_equal conversation) in F1. exact F1.
  - apply (f_equal conversation) in F2. exact F2.
  - apply (f_equal playback) in F1. exact F1.
  - apply (f_equal playback) in F2. exact F2.
  - apply (f_equal resources) in F1. exact F1.
  - apply (f_equal resources) in F2. exact F2.
Qed.
End KeyFrame.

(** ** Playback without gaps *)

Lemma Math_max_behind (a b : Q) : (b <= a)%Q -> (Math_max a b == a)%Q.
Proof.
  intros H. unfold Math_max. destruct (Qle_bool a b) eqn:E.
  - apply Qle_bool_iff in E. apply Qle_antisym; assumption.
  - reflexivity.
Qed.

Lemma gapless_app (a b c : Q) (l1 l2 : list SourceNode) :
  gapless a l1 b -> gapless b l2 c -> gapless a (l1 ++ l2) c.
Proof.
  revert a. induction l1 as [|src r IH]; intros a; simpl.
  - intros H1 H2. destruct l2 as [|x l2]; simpl in *.
    + rewrite H1. exact H2.
    + destruct H2 as (t & Ht & Hlo & Hr). exists t. repeat split; auto.
      rewrite Hlo. symmetry. exact H1.
  - intros (t & Ht & Hlo & Hr) H2. exists t. repeat split; auto.
Qed.

Lemma gapless_le (lo hi : Q) (l : list SourceNode) :
  gapless lo l hi -> (lo <= hi)%Q.
Proof.
  revert lo. induction l as [|src r IH]; intros lo; simpl.
  - intros H. rewrite H. apply Qle_refl.
  - intros (t & Ht & Hlo & Hr). apply IH in Hr. rewrite <- Hlo.
    eapply Qle_trans; [apply Qle_plus_duration | exact Hr].
Qed.

Section Gapless.
Variable initializeAi : jsstring -> option GoogleGenAI.
Variable decodeAudio : jsstring -> option AudioBuffer.

Lemma playLoop_gapless (clock : nat -> N) (ps : list Part) (c : nat)
      (o : AudioContextObj) (bound : Q) (k : nat) (s : AppState) :
  outputAudioContextRef s = Some c ->
  contexts s !! c = Some o ->
  Forall (decodes decodeAudio) ps ->
  (forall j, (Z.of_N (clock j) # sampleRate o <= bound)%Q) ->
  (bound <= nextStartTimeRef s)%Q ->
  exists s' news,
    forEachFrom k (fun k part => playPart decodeAudio (clock k) part) ps s
    = (Normal tt, s') /\
    sources s' = sources s ++ news /\
    gapless (nextStartTimeRef s) news (nextStartTimeRef s') /\
    length news = length (omap payload ps).
Proof.
  intros Hc Ho Hd Hclock. revert k s Hc Ho.
  induction Hd as [|p ps Hp Hps IH]; intros k s Hc Ho Hb.
  - exists s, []. simpl. rewrite app_nil_r.
    split; [reflexivity|]. split; [reflexivity|]. split; reflexivity.
  - simpl. unfold bind. rewrite playPart_eq. unfold decodes in Hp.
    destruct (payload p) as [d|] eqn:Ep.
    + rewrite Hc, Ho. cbv zeta.
      destruct (decodeAudio d) as [b|]; [|congruence].
      set (t := Math_max (nextStartTimeRef s)
                         (Z.of_N (clock k) # sampleRate o)).
      assert (Et : (t == nextStartTimeRef s)%Q).
      { apply Math_max_behind. eapply Qle_trans; [apply Hclock | exact Hb]. }
      destruct (IH (S k) (schedule t b s)) as (s' & news & E & Es & Hg & Hl).
      * exact Hc.
      * exact Ho.
      * simpl. eapply Qle_trans; [exact Hb|]. rewrite <- Et.
        apply Qle_plus_duration.
      * exists s', (mkSource b (Some t) false :: news).
        split; [exact E|]. split; [|split].
        -- rewrite Es. simpl. rewrite <- app_assoc. reflexivity.
        -- simpl. exists t. repeat split; auto.
        -- simpl. rewrite Hl. reflexivity.
    + destruct (IH (S k) s Hc Ho Hb) as (s' & news & E & Es & Hg & Hl).
      exists s', news. auto.
Qed.

(** X25. Fragments that arrive in time are played without a gap.
    When a message without interruption signal arrives in a reachable
    state with an output context, all its audio parts decode and the
    clock of the context is, at each part, at or before the cursor the
    message found (the audio still to be heard reaches beyond the
    current time), then the handler ends normally, one source node is
    added per payload, the first is started at the cursor, each next
    one at the end of the one before it, and the cursor ends at the
    end of the last: the buffers follow each other with neither gap
    nor overlap. *)
Theorem timely_fragments_play_without_gaps
        (clock : nat -> N) (m : LiveServerMessage) (c : nat)
        (o : AudioContextObj) (s : AppState) :
  reachable initializeAi decodeAudio s ->
  outputAudioContextRef s = Some c ->
  contexts s !! c = Some o ->
  Forall (decodes decodeAudio) (audioParts m) ->
  (forall j, (Z.of_N (clock j) # sampleRate o <= nextStartTimeRef s)%Q) ->
  isInterrupted m = false ->
  exists s' news,
    onmessage decodeAudio clock m s = (Normal tt, s') /\
    sources s' = sources s ++ news /\
    length news = length (omap payload (audioParts m)) /\
    gapless (nextStartTimeRef s) news (nextStartTimeRef s').
Proof.
  intros Hr Hc Ho Hd Hclock Hi. apply reachable_wf in Hr.
  set (s3 := if isTurnComplete m then finalized (heard m s) else heard m s).
  destruct (heard_outside_conversation m s) as (Ev & _ & Ecur & _).
  fold s3 in Ev, Ecur. unfold refs_view in Ev.
  injection Ev as E1 E2 E3 E4 E5 E6 E7 E8 E9 E10 E11 E12 E13.
  destruct (playLoop_gapless clock (audioParts m) c o (nextStartTimeRef s)
              0 s3) as (s' & news & E & Es & Hg & Hl).
  - congruence.
  - congruence.
  - exact Hd.
  - exact Hclock.
  - rewrite Ecur. apply Qle_refl.
  - exists s', news. repeat split.
    + rewrite onmessage_split. fold s3. unfold bind.
      rewrite playParts_eq, E. unfold interrupt.
      unfold isInterrupted in Hi. rewrite Hi. reflexivity.
    + congruence.
    + exact Hl.
    + rewrite <- Ecur. exact Hg.
Qed.

(** X26. A buffer that ends is forgotten.  In a reachable state with
    an output context, scheduling a decoded fragment adds one source
    node and tracks it; the end-of-playback callback of that node
    restores the tracked set the fragment found, and stops nothing. *)
Theorem ended_buffer_is_untracked
        (now : N) (part : Part) (d : jsstring) (b : AudioBuffer) (c : nat)
        (s : AppState) :
  reachable initializeAi decodeAudio s ->
  outputAudioContextRef s = Some c ->
  payload part = Some d ->
  decodeAudio d = Some b ->
  let s1 := exec (playPart decodeAudio now part) s in
  let s2 := exec (onended (length (sources s))) s1 in
  length (sources s1) = S (length (sources s)) /\
  audioPlaybackSources s1 = audioPlaybackSources s ++ [length (sources s)] /\
  audioPlaybackSources s2 = audioPlaybackSources s /\
  sources s2 = sources s1 /\
  nextStartTimeRef s2 = nextStartTimeRef s1.
Proof.
  intros Hr Hc Hp Hd.
  destruct (reachable_schedule_ok initializeAi decodeAudio s Hr)
    as (Hn & l & Hl & _).
  apply reachable_wf in Hr. destruct (wf_output s Hr c Hc) as (o & Ho & _).
  assert (Hfresh : length (sources s) ∉ audioPlaybackSources s).
  { intros Hin. apply (playing_lt s l) in Hin; [lia | exact Hl]. }
  cbv zeta. unfold exec. rewrite playPart_eq, Hp, Hc, Ho, Hd. simpl.
  unfold Set_add, Set_delete. rewrite decide_False by exact Hfresh.
  rewrite length_app. simpl. repeat split.
  - lia.
  - rewrite list.filter_app, filter_cons, decide_False by auto.
    rewrite filter_nil, app_nil_r.
    clear -Hfresh. induction (audioPlaybackSources s) as [|x r IH];
      [reflexivity|].
    rewrite filter_cons.
    rewrite decide_True
      by (intros ->; apply Hfresh; apply elem_of_cons; auto).
    f_equal. apply IH. intros H. apply Hfresh, elem_of_cons. auto.
Qed.
End Gapless.

(** ** The properties on the sample sessions *)

Example readySession_reachable :
  reachable sampleInitializeAi sampleDecodeAudio readySession.
Proof. apply reachable_run, reachable_init. Qed.

Example pendingSession_reachable :
  reachable sampleInitializeAi sampleDecodeAudio pendingSession.
Proof. apply reachable_run, readySession_reachable. Qed.

Example midTurn_reachable :
  reachable sampleInitializeAi sampleDecodeAudio midTurn.
Proof. apply reachable_run, connectedSession_reachable. Qed.

Example afterTurn_reachable :
  reachable sampleInitializeAi sampleDecodeAudio afterTurn.
Proof. apply reachable_run, connectedSession_reachable. Qed.

Example stoppedSession_reachable :
  reachable sampleInitializeAi sampleDecodeAudio stoppedSession.
Proof. apply reachable_run, speakingSession_reachable. Qed.

Example stoppedAtPrompt_reachable :
  reachable sampleInitializeAi sampleDecodeAudio stoppedAtPrompt.
Proof. apply reachable_run, pendingSession_reachable. Qed.

Example sample_states :
  (isApiKeySet readySession, isSessionActive readySession,
   holds_session readySession)
  = (true, false, false) /\
  (isSessionActive pendingSession, inputAudioContextRef pendingSession,
   outputAudioContextRef pendingSession, sessionPromiseRef pendingSession)
  = (false, Some 0, Some 1, Some 0) /\
  conversation midTurn = ([], str "I go", str "Good", str "I go", str "Good") /\
  messages afterTurn
  = [mkMessage user (str "I go to school");
     mkMessage ai (str "Well done.")] /\
  (isSessionActive stoppedSession, outputAudioContextRef stoppedSession)
  = (false, None) /\
  (isSessionActive stoppedAtPrompt, inputAudioContextRef stoppedAtPrompt)
  = (false, None).
Proof. vm_compute. repeat split. Qed.

Lemma display_shows_the_accumulator_witness :
  displayUserTranscription midTurn = currentUserTranscriptionRef midTurn /\
  displayTutorTranscription midTurn = currentTutorTranscriptionRef midTurn.
Proof.
  apply (display_shows_the_accumulator sampleInitializeAi sampleDecodeAudio
           midTurn).
  exact midTurn_reachable.
Defined.

Lemma logged_messages_are_trimmed_witness :
  content (mkMessage user (str "I go to school")) <> [] /\
  trimmed (content (mkMessage user (str "I go to school"))) /\
  trim (content (mkMessage user (str "I go to school")))
  = content (mkMessage user (str "I go to school")).
Proof.
  apply (logged_messages_are_trimmed sampleInitializeAi sampleDecodeAudio
           afterTurn (mkMessage user (str "I go to school"))).
  - exact afterTurn_reachable.
  - vm_compute. left.
Defined.

Lemma log_is_append_only_witness :
  exists new,
    messages
      (run sampleInitializeAi sampleDecodeAudio
         [EvMessage (clockAt 0) (userFragment "Hi"); EvOpen;
          EvMessage (clockAt 0) turnCompleteSignal; EvEnded 0; EvClose]
         afterTurn)
    = messages afterTurn ++ new /\
    (Forall (fun ev => completes ev = false)
       [EvMessage (clockAt 0) (userFragment "Hi"); EvOpen;
        EvMessage (clockAt 0) turnCompleteSignal; EvEnded 0; EvClose] ->
     new = []).
Proof.
  apply (log_is_append_only sampleInitializeAi sampleDecodeAudio
           [EvMessage (clockAt 0) (userFragment "Hi"); EvOpen;
            EvMessage (clockAt 0) turnCompleteSignal; EvEnded 0; EvClose]
           afterTurn).
  repeat constructor.
Defined.

Lemma transcript_is_independent_of_audio_witness :
  conversation
    (exec (onmessage sampleDecodeAudio (clockAt 48000) noisyMessage)
          connectedSession)
  = conversation
      (exec (onmessage sampleDecodeAudio (clockAt 0) (userFragment "Hi"))
            (init None)).
Proof.
  apply (transcript_is_independent_of_audio
           sampleDecodeAudio sampleDecodeAudio (clockAt 48000) (clockAt 0)
           noisyMessage (userFragment "Hi") connectedSession (init None)).
  - vm_compute. reflexivity.
  - reflexivity.
  - reflexivity.
  - reflexivity.
Defined.

Lemma tracked_buffers_never_overlap_witness :
  NoDup (audioPlaybackSources speakingSession) /\
  (0 <= nextStartTimeRef speakingSession)%Q /\
  (forall id, id ∈ audioPlaybackSources speakingSession ->
     exists src t,
       sources speakingSession !! id = Some src /\ startTime src = Some t /\
       stopped src = false /\ (0 <= t)%Q /\
       (t + duration (buffer src) <= nextStartTimeRef speakingSession)%Q) /\
  (forall i j idA idB a b,
     i < j ->
     audioPlaybackSources speakingSession !! i = Some idA ->
     audioPlaybackSources speakingSession !! j = Some idB ->
     sources speakingSession !! idA = Some a ->
     sources speakingSession !! idB = Some b ->
     exists ta tb,
       startTime a = Some ta /\ startTime b = Some tb /\
       (ta + duration (buffer a) <= tb)%Q).
Proof.
  apply (tracked_buffers_never_overlap sampleInitializeAi sampleDecodeAudio
           speakingSession).
  exact speakingSession_reachable.
Defined.

Lemma only_onmessage_can_throw_witness :
  exists s',
    handler sampleInitializeAi sampleDecodeAudio (EvStartButton ConnectFails)
      connectedSession
    = (Normal tt, s').
Proof.
  apply (only_onmessage_can_throw sampleInitializeAi sampleDecodeAudio
           (EvStartButton ConnectFails) connectedSession).
  - exact connectedSession_reachable.
  - reflexivity.
Defined.

Lemma onmessage_throws_on_audio_only_witness :
  exists s',
    onmessage sampleDecodeAudio (clockAt 48000) noisyMessage connectedSession
    = (Throw DecodeError, s').
Proof.
  destruct (onmessage_throws_on_audio_only
              sampleInitializeAi sampleDecodeAudio (clockAt 48000)
              noisyMessage connectedSession) as [H _].
  - exact connectedSession_reachable.
  - destruct H as [_ H].
    + vm_compute. discriminate.
    + apply H. intros Hd. vm_compute in Hd.
      apply Forall_cons_1 in Hd as [Hd _]. apply Hd. reflexivity.
Defined.

Lemma teardown_status_replaces_the_error_status_witness :
  statusMessage (exec onerror connectedSession)
  = str "Session ended. Click the microphone to practice again." /\
  statusMessage (exec onerror connectedSession)
  <> str "A connection error occurred. Please restart." /\
  statusMessage (exec (onopen_resume Denied) connectedSession)
  = str "Session ended. Click the microphone to practice again." /\
  statusMessage (exec (onopen_resume Denied) connectedSession)
  <> str "Microphone access denied. Please allow permission.".
Proof.
  apply (teardown_status_replaces_the_error_status
           sampleInitializeAi sampleDecodeAudio connectedSession).
  exact connectedSession_reachable.
Defined.

Lemma microphone_granted_after_stop_is_released_witness :
  exists s',
    onopen_resume (Granted 2) stoppedAtPrompt = (Normal tt, s') /\
    idle s' /\
    streams s' !! length (streams stoppedAtPrompt)
    = Some (mkStream (replicate 2 true)) /\
    length (streams s') = S (length (streams stoppedAtPrompt)) /\
    length (nodes s') = length (nodes stoppedAtPrompt).
Proof.
  apply (microphone_granted_after_stop_is_released
           sampleInitializeAi sampleDecodeAudio 2 stoppedAtPrompt).
  - exact stoppedAtPrompt_reachable.
  - vm_compute. reflexivity.
Defined.

Lemma start_button_always_reaches_the_try_witness :
  handleNewSession Started readySession
  = tryOpenSession Started (resetConversation readySession) /\
  aiRef readySession <> None /\
  statusMessage (exec (handleNewSession Started) readySession)
  <> str "API Key not set. Please set it in the settings.".
Proof.
  apply (start_button_always_reaches_the_try
           sampleInitializeAi sampleDecodeAudio Started readySession).
  - exact readySession_reachable.
  - vm_compute. reflexivity.
Defined.

Lemma start_request_outcomes_witness :
  exists s',
    handleNewSession OutputContextFails speakingSession = (Normal tt, s') /\
    isSessionActive s' = false.
Proof.
  destruct (start_request_outcomes sampleInitializeAi sampleDecodeAudio
              OutputContextFails speakingSession) as (E & Ha & _).
  - exact speakingSession_reachable.
  - exact speakingSession_has_client.
  - eexists. split; [exact E | exact Ha].
Defined.

Lemma restart_releases_the_active_session_witness :
  released speakingSession (exec (handleNewSession Started) speakingSession).
Proof.
  apply (restart_releases_the_active_session
           sampleInitializeAi sampleDecodeAudio Started speakingSession).
  - exact speakingSession_reachable.
  - exact speakingSession_has_client.
  - vm_compute. reflexivity.
Defined.

Lemma orderly_run_leaves_nothing_open_witness :
  let s := run sampleInitializeAi sampleDecodeAudio twoSessions (init None) in
  owned s /\
  idle (step sampleInitializeAi sampleDecodeAudio s EvClose) /\
  nothing_open (step sampleInitializeAi sampleDecodeAudio s EvClose).
Proof.
  apply (orderly_run_leaves_nothing_open sampleInitializeAi sampleDecodeAudio
           None twoSessions EvClose).
  - vm_compute. reflexivity.
  - right. left. reflexivity.
Defined.

Lemma start_over_a_pending_session_abandons_it_witness :
  let s' := run sampleInitializeAi sampleDecodeAudio
              (EvStartButton Started
               :: [EvOpen; EvMicrophone (Granted 1); EvClose])
              pendingSession in
  (forall c,
     inputAudioContextRef pendingSession = Some c \/
     outputAudioContextRef pendingSession = Some c ->
     (exists o, contexts s' !! c = Some o /\ closed o = false) /\
     inputAudioContextRef s' <> Some c /\ outputAudioContextRef s' <> Some c) /\
  (forall p,
     sessionPromiseRef pendingSession = Some p ->
     sessions s' !! p = Some (mkSession false) /\
     sessionPromiseRef s' <> Some p).
Proof.
  apply (start_over_a_pending_session_abandons_it
           sampleInitializeAi sampleDecodeAudio
           [EvOpen; EvMicrophone (Granted 1); EvClose] pendingSession).
  - exact pendingSession_reachable.
  - vm_compute. discriminate.
  - vm_compute. reflexivity.
Defined.

Example abandoned_session_scenario :
  let s' := run sampleInitializeAi sampleDecodeAudio
              [EvStartButton Started; EvOpen; EvMicrophone (Granted 1);
               EvClose]
              pendingSession in
  map closed (contexts s') = [false; false; true; true] /\
  map closeRequested (sessions s') = [false; true] /\
  idle s'.
Proof. vm_compute. repeat split. Qed.

Lemma message_without_output_context_plays_nothing_witness :
  let s' := exec (onmessage sampleDecodeAudio (clockAt 0) noisyMessage)
                 stoppedSession in
  s' = (if isTurnComplete noisyMessage
        then finalized (heard noisyMessage stoppedSession)
        else heard noisyMessage stoppedSession) /\
  sources s' = sources stoppedSession /\
  audioPlaybackSources s' = [] /\
  nextStartTimeRef s' = 0%Q.
Proof.
  apply (message_without_output_context_plays_nothing
           sampleInitializeAi sampleDecodeAudio (clockAt 0) noisyMessage
           stoppedSession).
  - exact stoppedSession_reachable.
  - vm_compute. reflexivity.
Defined.

Lemma start_open_grant_connects_witness :
  let s0 := afterOptionalStop readySession in
  let s' := run sampleInitializeAi sampleDecodeAudio
              [EvStartButton Started; EvOpen; EvMicrophone (Granted 1)]
              readySession in
  isSessionActive s' = true /\
  statusMessage s' = str "Connected! Start speaking when you are ready." /\
  conversation s' = ([], [], [], [], []) /\
  (inputAudioContextRef s' = Some (length (contexts s0)) /\
   contexts s' !! length (contexts s0)
   = Some (mkContext INPUT_SAMPLE_RATE false)) /\
  (outputAudioContextRef s' = Some (S (length (contexts s0))) /\
   contexts s' !! S (length (contexts s0))
   = Some (mkContext OUTPUT_SAMPLE_RATE false)) /\
  (sessionPromiseRef s' = Some (length (sessions s0)) /\
   sessions s' !! length (sessions s0) = Some (mkSession false)) /\
  (streamRef s' = Some (length (streams s0)) /\
   streams s' !! length (streams s0) = Some (mkStream (replicate 1 false))) /\
  (mediaStreamSourceRef s' = Some (length (nodes s0)) /\
   nodes s' !! length (nodes s0) = Some (mkNode true)) /\
  (scriptProcessorRef s' = Some (S (length (nodes s0))) /\
   nodes s' !! S (length (nodes s0)) = Some (mkNode true)).
Proof.
  apply (start_open_grant_connects sampleInitializeAi sampleDecodeAudio
           1 readySession).
  - exact readySession_reachable.
  - vm_compute. discriminate.
Defined.

Lemma prompt_tells_the_settings_apart_witness :
  getSystemPrompt (str "Intermediate (B1): Everyday conversations")
                  (str "Food & Cooking")
  = getSystemPrompt (str "Advanced (C1): Complex & abstract discussions")
                    (str "Food & Cooking")
  <-> str "Intermediate (B1): Everyday conversations"
      = str "Advanced (C1): Complex & abstract discussions" /\
      str "Food & Cooking" = str "Food & Cooking".
Proof.
  apply (prompt_tells_the_settings_apart
           (str "Intermediate (B1): Everyday conversations")
           (str "Advanced (C1): Complex & abstract discussions")
           (str "Food & Cooking") (str "Food & Cooking")).
  - vm_compute. right. left.
  - vm_compute. do 3 right. left.
Defined.

Lemma timely_fragments_play_without_gaps_witness :
  exists s' news,
    onmessage sampleDecodeAudio (clockAt 60000) twoFragments speakingSession
    = (Normal tt, s') /\
    sources s' = sources speakingSession ++ news /\
    length news = length (omap payload (audioParts twoFragments)) /\
    gapless (nextStartTimeRef speakingSession) news (nextStartTimeRef s').
Proof.
  apply (timely_fragments_play_without_gaps
           sampleInitializeAi sampleDecodeAudio (clockAt 60000) twoFragments
           1 (mkContext OUTPUT_SAMPLE_RATE false) speakingSession).
  - exact speakingSession_reachable.
  - vm_compute. reflexivity.
  - vm_compute. reflexivity.
  - repeat constructor; vm_compute; discriminate.
  - intros j. vm_compute. discriminate.
  - reflexivity.
Defined.

Example timely_fragments_scenario :
  let s' := exec (onmessage sampleDecodeAudio (clockAt 60000) twoFragments)
                 speakingSession in
  map (fun src => (Qred (startOf src), Qred (endOf src))) (sources s')
  = [(2, 3); (3, 4); (4, 5); (5, 6)]%Q.
Proof. vm_compute. reflexivity. Qed.

Lemma ended_buffer_is_untracked_witness :
  let s1 := exec (playPart sampleDecodeAudio 48000 (audioPart "AAAA"))
                 speakingSession in
  let s2 := exec (onended (length (sources speakingSession))) s1 in
  length (sources s1) = S (length (sources speakingSession)) /\
  audioPlaybackSources s1
  = audioPlaybackSources speakingSession
    ++ [length (sources speakingSession)] /\
  audioPlaybackSources s2 = audioPlaybackSources speakingSession /\
  sources s2 = sources s1 /\
  nextStartTimeRef s2 = nextStartTimeRef s1.
Proof.
  apply (ended_buffer_is_untracked sampleInitializeAi sampleDecodeAudio
           48000 (audioPart "AAAA") (str "AAAA")
           (mkAudioBuffer 24000 OUTPUT_SAMPLE_RATE) 1 speakingSession).
  - exact speakingSession_reachable.
  - vm_compute. reflexivity.
  - reflexivity.
  - reflexivity.
Defined.
